(** * BottleUnwrapper: the geometric core, embedded and verified

    A shallow embedding of the numeric engine of the bottle-unwrapping
    pipeline:

    - [Preprocess]   : [scripts/preprocess.py]   (axis alignment, body cut)
    - [SeamExtract]  : [scripts/seam_extract.py] (seam path discovery)
    - [UvRepack]     : [scripts/uv_repack.py]    (UV parsing, texture remap)

    Conventions.  Python [float]s are idealised as exact numbers: rationals
    [Q] wherever the code only adds, multiplies, divides and compares, and
    reals [R] in the alignment step, which needs square roots and
    [arccos].  Library routines whose result is not determined by the
    repository (the Pillow rasteriser, [float()], [int()], the planar
    norm of a vertex, the Gaussian filter, the power [x ** 0.3]) are
    parameters of the sections that use them; those with a simple
    contract ([np.percentile], [np.digitize], [np.unique], [np.argmin],
    trimesh's [rotation_matrix], networkx's [shortest_path]) are written
    out.  Python exceptions and [sys.exit] are explicit results. *)

From Stdlib Require Import List ZArith QArith Qabs Qround Bool Arith Lia Lra Psatz.
From Stdlib Require Import String Ascii DecimalString.
From Stdlib Require Import Reals.
Import ListNotations.

(* ================================================================== *)
(** * Shared vocabulary *)
(* ================================================================== *)

(** Python exceptions that the modelled code can raise. *)
Inductive exn : Type :=
| ValueError
| IndexError.

(** The outcome of a computation that may raise. *)
Inductive result (A : Type) : Type :=
| Ok (a : A)
| Raise (e : exn).

Arguments Ok {A} a.
Arguments Raise {A} e.

Definition bind {A B : Type} (r : result A) (k : A -> result B) : result B :=
  match r with
  | Ok a => k a
  | Raise e => Raise e
  end.

Notation "x <- r ;; k" := (bind r (fun x => k))
  (at level 61, r at next level, right associativity).

(** [mapM f l] runs [f] over [l] from left to right and stops at the
    first exception. *)
Fixpoint mapM {A B : Type} (f : A -> result B) (l : list A) : result (list B) :=
  match l with
  | [] => Ok []
  | a :: l' => b <- f a ;; bs <- mapM f l' ;; Ok (b :: bs)
  end.

(** Decimal rendering of a count inside an f-string. *)
Definition show_nat (n : nat) : string :=
  NilEmpty.string_of_uint (Nat.to_uint n).

(** [imap f l] is [[f 0 l[0]; f 1 l[1]; ...]]. *)
Fixpoint imap_from {A B : Type} (i : nat) (f : nat -> A -> B) (l : list A) : list B :=
  match l with
  | [] => []
  | a :: l' => f i a :: imap_from (S i) f l'
  end.

Definition imap {A B : Type} (f : nat -> A -> B) (l : list A) : list B :=
  imap_from 0 f l.

(* ================================================================== *)
(** * [scripts/preprocess.py] *)
(* ================================================================== *)

Module Preprocess.

(** ** [align_robust], step 4: rotating the principal axis onto Z

    The candidate axes come from [np.linalg.svd] and the choice among
    them from floating-point scores; this step starts from the chosen
    [principal_axis].  Arithmetic is over the reals. *)

Section Align.

Local Open Scope R_scope.

Definition vec3 : Type := (R * R * R)%type.

(** A 3x3 matrix, by rows. *)
Definition mat3 : Type := (vec3 * vec3 * vec3)%type.

(** [np.cross] *)
Definition cross (a b : vec3) : vec3 :=
  let '(a1, a2, a3) := a in
  let '(b1, b2, b3) := b in
  (a2 * b3 - a3 * b2, a3 * b1 - a1 * b3, a1 * b2 - a2 * b1).

(** [np.dot] *)
Definition dot3 (a b : vec3) : R :=
  let '(a1, a2, a3) := a in
  let '(b1, b2, b3) := b in
  a1 * b1 + a2 * b2 + a3 * b3.

(** [np.linalg.norm] *)
Definition norm3 (a : vec3) : R := sqrt (dot3 a a).

Definition div3 (a : vec3) (k : R) : vec3 :=
  let '(a1, a2, a3) := a in (a1 / k, a2 / k, a3 / k).

Definition sub3 (a b : vec3) : vec3 :=
  let '(a1, a2, a3) := a in
  let '(b1, b2, b3) := b in
  (a1 - b1, a2 - b2, a3 - b3).

(** [np.clip] *)
Definition clip (x lo hi : R) : R :=
  if Rlt_dec x lo then lo else if Rlt_dec hi x then hi else x.

Definition mat_vec (m : mat3) (v : vec3) : vec3 :=
  let '(r1, r2, r3) := m in (dot3 r1 v, dot3 r2 v, dot3 r3 v).

(** [trimesh.transformations.rotation_matrix(angle, direction)], its
    rotation block: the direction is normalised, then
    [cos * I + (1 - cos) * d d^T + sin * [d]x]. *)
Definition rotation_matrix (angle : R) (direction : vec3) : mat3 :=
  let sina := sin angle in
  let cosa := cos angle in
  let '(x, y, z) := div3 direction (norm3 direction) in
  ((cosa + x * x * (1 - cosa), x * y * (1 - cosa) - z * sina, x * z * (1 - cosa) + y * sina),
   (y * x * (1 - cosa) + z * sina, cosa + y * y * (1 - cosa), y * z * (1 - cosa) - x * sina),
   (z * x * (1 - cosa) - y * sina, z * y * (1 - cosa) + x * sina, cosa + z * z * (1 - cosa))).

Definition target_axis : vec3 := (0, 0, 1).

(** The guard [norm > 1e-6]. *)
Definition align_tol : R := 1 / 1000000.

(** Lines 43-50: the rotation that is applied, if any. *)
Definition alignment_rotation (principal_axis : vec3) : option mat3 :=
  let rotation_axis := cross principal_axis target_axis in
  let norm := norm3 rotation_axis in
  if Rlt_dec align_tol norm
  then
    let rotation_axis := div3 rotation_axis norm in
    let angle := acos (clip (dot3 principal_axis target_axis) (-1) 1) in
    Some (rotation_matrix angle rotation_axis)
  else None.

(** Line 51, [mesh.apply_transform(R)], on the vertex positions. *)
Definition apply_alignment (principal_axis : vec3) (vertices : list vec3) : list vec3 :=
  match alignment_rotation principal_axis with
  | Some rot => map (mat_vec rot) vertices
  | None => vertices
  end.

(** Where the mesh's own principal direction points afterwards. *)
Definition aligned_axis (principal_axis : vec3) : vec3 :=
  match alignment_rotation principal_axis with
  | Some rot => mat_vec rot principal_axis
  | None => principal_axis
  end.

(** Rows of the SVD factor and of the identity are unit vectors. *)
Definition is_unit (v : vec3) : Prop := dot3 v v = 1.

End Align.

(** ** [extract_stable_cylinder] *)

Local Open Scope Q_scope.

Definition vertex : Type := (Q * Q * Q)%type.

Definition vz (v : vertex) : Q := snd v.

(** What the function prints. *)
Inductive event : Type :=
| WarnNoStable                       (* "Warning: No stable cylinder detected! ..." *)
| Detected (n : nat)                 (* "Detected n stable segments:" *)
| SegmentLine (z_start z_end : Q) (len : nat) (seg_r score : Q)
| Selection (z_cut_min z_cut_max : Q).

(** How a stage ends: with a value, or in [sys.exit(msg)]. *)
Inductive outcome (A : Type) : Type :=
| Done (a : A)
| SysExit (msg : string)
| Uncaught (e : exn).

Arguments Done {A} a.
Arguments SysExit {A} msg.
Arguments Uncaught {A} e.

Definition qsum (l : list Q) : Q := fold_left Qplus l 0.

Definition qlen {A : Type} (l : list A) : Q := inject_Z (Z.of_nat (List.length l)).

(** [np.mean], taken exactly: numpy rounds the sum and the quotient, so
    its mean of floats can differ from this one in the last place. *)
Definition qmean (l : list Q) : Q := qsum l / qlen l.

Definition qmin (a b : Q) : Q := if Qlt_le_dec b a then b else a.
Definition qmax (a b : Q) : Q := if Qlt_le_dec a b then b else a.

(** [z.min()] and [z.max()] of a non-empty array (0 stands for no value). *)
Definition list_min (l : list Q) : Q :=
  match l with
  | [] => 0
  | x :: r => fold_left qmin r x
  end.

Definition list_max (l : list Q) : Q :=
  match l with
  | [] => 0
  | x :: r => fold_left qmax r x
  end.

(** [np.linspace(a, b, num)]: [num] evenly spaced points from [a] to [b]. *)
Definition linspace (a b : Q) (num : nat) : list Q :=
  let step := (b - a) / inject_Z (Z.of_nat (num - 1)) in
  map (fun i => a + inject_Z (Z.of_nat i) * step) (seq 0 num).

(** [np.digitize(x, edges)] for increasing [edges]: the number of edges
    that are [<= x], so that [edges[i-1] <= x < edges[i]] gives [i]. *)
Definition digitize (x : Q) (edges : list Q) : nat :=
  List.length (filter (fun e => Qle_bool e x) edges).

(** Sorting, for the percentile. *)
Fixpoint insert_sorted (x : Q) (l : list Q) : list Q :=
  match l with
  | [] => [x]
  | y :: r => if Qle_bool x y then x :: y :: r else y :: insert_sorted x r
  end.

Definition sort_q (l : list Q) : list Q := fold_right insert_sorted [] l.

(** [np.percentile(a, 90)] with the default linear interpolation, on a
    non-empty array: position [0.9 * (n - 1)] of the sorted values. *)
Definition percentile90 (a : list Q) : Q :=
  let s := sort_q a in
  let n := List.length s in
  let virtual := inject_Z (Z.of_nat (n - 1)) * (9 # 10) in
  let lo := Z.to_nat (Qfloor virtual) in
  let hi := Nat.min (lo + 1) (n - 1) in
  let gamma := virtual - inject_Z (Qfloor virtual) in
  nth lo s 0 + gamma * (nth hi s 0 - nth lo s 0).

(** [radii_verts[bin_indices == i]] *)
Definition layer (radii : list Q) (bin_indices : list nat) (i : nat) : list Q :=
  map fst (filter (fun rb => Nat.eqb (snd rb) i) (combine radii bin_indices)).

(** One turn of the loop of lines 85-93. *)
Definition layer_radius (radii : list Q) (bin_indices : list nat)
           (profile_r : list Q) (i : nat) : Q :=
  match layer radii bin_indices i with
  | [] => last profile_r 0
  | r :: rs => percentile90 (r :: rs)
  end.

Fixpoint profile_loop (radii : list Q) (bin_indices : list nat)
         (range : list nat) (profile_r : list Q) : list Q :=
  match range with
  | [] => profile_r
  | i :: rest =>
      profile_loop radii bin_indices rest
                   (profile_r ++ [layer_radius radii bin_indices profile_r i])
  end.

Definition flat_tol : Q := 1 # 1000000.

(** [np.gradient] of a profile with at least two samples: one-sided
    differences at both ends, centred differences in between. *)
Definition gradient (f : list Q) : list Q :=
  let n := List.length f in
  map (fun i =>
         if Nat.eqb i 0 then nth 1 f 0 - nth 0 f 0
         else if Nat.eqb i (n - 1) then nth (n - 1) f 0 - nth (n - 2) f 0
         else (nth (i + 1) f 0 - nth (i - 1) f 0) / 2)
      (seq 0 n).

(** The loop of lines 116-127: maximal runs of stable bins, entered at
    bin [i] with the finished [segments] and the run being read. *)
Fixpoint group_stable (i : nat) (is_stable : list bool)
         (segments : list (list nat)) (current : list nat) : list (list nat) :=
  match is_stable with
  | [] =>
      match current with
      | [] => segments
      | _ :: _ => segments ++ [current]
      end
  | stable :: rest =>
      if stable
      then group_stable (S i) rest segments (current ++ [i])
      else
        match current with
        | [] => group_stable (S i) rest segments current
        | _ :: _ => group_stable (S i) rest (segments ++ [current]) []
        end
  end.

Definition stable_segments (is_stable : list bool) : list (list nat) :=
  group_stable 0 is_stable [] [].

(** [length < bins * 0.05], with the product taken exactly. *)
Definition too_short (len bins : nat) : bool :=
  if Qlt_le_dec (inject_Z (Z.of_nat len)) (inject_Z (Z.of_nat bins) * (5 # 100))
  then true else false.

(** [range(int(bins*0.25), int(bins*0.75))] *)
Definition middle_half (bins : nat) : list nat :=
  seq (bins / 4) (3 * bins / 4 - bins / 4).

Definition no_body_message : string := "Error: No valid body segment found.".

Section Segmenter.

(** [np.linalg.norm(v[:2])], [x ** 0.3] and
    [gaussian_filter1d(., sigma=2)] are library routines on floats. *)
Variable planar_radius : vertex -> Q.
Variable pow03 : Q -> Q.
Variable gaussian_filter1d : list Q -> list Q.

(** Lines 66-95: the radius profile, or the fatal exit before it. *)
Definition radius_profile (vertices : list vertex) (bins : nat) : outcome (list Q) :=
  match vertices with
  | [] => SysExit "Error: Empty mesh"
  | _ :: _ =>
      let z := map vz vertices in
      let z_min := list_min z in
      let z_max := list_max z in
      let height := z_max - z_min in
      if Qlt_le_dec height flat_tol
      then SysExit "Error: Flat mesh (no height)"
      else
        let radii_verts := map planar_radius vertices in
        let bin_edges := linspace z_min z_max (bins + 1) in
        let bin_indices := map (fun x => digitize x bin_edges) z in
        Done (profile_loop radii_verts bin_indices (seq 1 bins) [])
  end.

(** Lines 105-113: the stability flags of a smoothed profile. *)
Definition stability (profile_smooth : list Q) (stability_tol : Q) : list bool :=
  let mean_r := qmean profile_smooth in
  let mean_r := if Qlt_le_dec mean_r flat_tol then 1 else mean_r in
  map (fun g => if Qlt_le_dec (Qabs g / mean_r) stability_tol then true else false)
      (gradient profile_smooth).

(** [np.mean(profile_smooth[seg])] *)
Definition segment_radius (profile_smooth : list Q) (seg : list nat) : Q :=
  qmean (map (fun i => nth i profile_smooth 0) seg).

(** One turn of the ranking loop of lines 142-157 on the state
    [(printed, best_score, best_segment)]. *)
Definition rank_step (bins : nat) (profile_smooth bin_centers : list Q)
           (st : list event * Q * list nat) (seg : list nat)
  : list event * Q * list nat :=
  let '(out, best_score, best_segment) := st in
  let length := List.length seg in
  if too_short length bins then st
  else
    let seg_r := segment_radius profile_smooth seg in
    let score := inject_Z (Z.of_nat length) * pow03 seg_r in
    let line := SegmentLine (nth (hd 0%nat seg) bin_centers 0)
                            (nth (last seg 0%nat) bin_centers 0) length seg_r score in
    if Qlt_le_dec best_score score
    then (out ++ [line], score, seg)
    else (out ++ [line], best_score, best_segment).

(** Lines 129-160: the chosen run of bins, or the fatal exit. *)
Definition select_segment (bins : nat) (profile_smooth bin_centers : list Q)
           (segments : list (list nat)) : list event * outcome (list nat) :=
  let '(out, best_segment) :=
    match segments with
    | [] => ([WarnNoStable], middle_half bins)
    | _ :: _ =>
        let '(out, _, best) :=
          fold_left (rank_step bins profile_smooth bin_centers) segments
                    ([Detected (List.length segments)], - (1), []) in
        (out, best)
    end in
  match best_segment with
  | [] => (out, SysExit no_body_message)
  | _ :: _ => (out, Done best_segment)
  end.

(** [(bin_edges[:-1] + bin_edges[1:]) / 2] *)
Definition centers (bin_edges : list Q) : list Q :=
  map (fun ab => (fst ab + snd ab) / 2) (combine (removelast bin_edges) (tl bin_edges)).

(** The function up to the height interval that is kept (line 170). *)
Definition extract_stable_cylinder (vertices : list vertex) (bins : nat) (stability_tol : Q)
  : list event * outcome (Q * Q) :=
  match radius_profile vertices bins with
  | SysExit msg => ([], SysExit msg)
  | Uncaught e => ([], Uncaught e)
  | Done profile_r =>
      let z := map vz vertices in
      let bin_edges := linspace (list_min z) (list_max z) (bins + 1) in
      let profile_smooth := gaussian_filter1d profile_r in
      if (List.length profile_smooth <? 2)%nat
      then ([], Uncaught ValueError)    (* np.gradient needs two samples *)
      else
        let is_stable := stability profile_smooth stability_tol in
        match select_segment bins profile_smooth (centers bin_edges)
                             (stable_segments is_stable) with
        | (out, SysExit msg) => (out, SysExit msg)
        | (out, Uncaught e) => (out, Uncaught e)
        | (out, Done best_segment) =>
            let idx_start := hd 0%nat best_segment in
            let idx_end := last best_segment 0%nat in
            let z_cut_min := nth idx_start bin_edges 0 in
            let z_cut_max := nth (idx_end + 1) bin_edges 0 in
            (out ++ [Selection z_cut_min z_cut_max], Done (z_cut_min, z_cut_max))
        end
  end.

End Segmenter.

(** ** Vocabulary of the statements about this module *)

(** No run of stable bins is long enough to be ranked. *)
Definition none_eligible (bins : nat) (is_stable : list bool) : Prop :=
  forall seg, In seg (stable_segments is_stable) -> too_short (List.length seg) bins = true.

(** The value that bin [k] (0-based) of a profile must hold, given the
    bin before it. *)
Definition profile_entry (radii : list Q) (bin_indices : list nat)
           (profile : list Q) (k : nat) : Q :=
  match layer radii bin_indices (k + 1) with
  | [] => match k with
          | O => 0
          | S k' => nth k' profile 0
          end
  | r :: rs => percentile90 (r :: rs)
  end.

(** Example data: four vertices on the coordinate axes, where the planar
    radius is the sum of the absolute coordinates. *)
Definition axis_radius (v : vertex) : Q := Qabs (fst (fst v)) + Qabs (snd (fst v)).

Definition four_vertices : list vertex :=
  [ (2, 0, 0); (0, 4, 0); (6, 0, 4 # 5); (0, 8, 1) ].

(** A 300-bin profile with a single stable bin. *)
Definition one_stable_bin : list bool := true :: repeat false 299.

End Preprocess.

(* ================================================================== *)
(** * [scripts/seam_extract.py] *)
(* ================================================================== *)

Module SeamExtract.

Local Open Scope Q_scope.

Definition vertex : Type := (Q * Q * Q)%type.
Definition face : Type := (nat * nat * nat)%type.
Definition edge : Type := (nat * nat)%type.

(** A triangle mesh as loaded with [process=False]; face entries index
    [vertices] and are taken to be in range. *)
Record mesh : Type := mkMesh {
  vertices : list vertex;
  faces : list face
}.

Definition vx (v : vertex) : Q := fst (fst v).
Definition vy (v : vertex) : Q := snd (fst v).
Definition vz (v : vertex) : Q := snd v.

(** [mesh.vertices[i]] *)
Definition vertex_at (m : mesh) (i : nat) : vertex := nth i (vertices m) (0, 0, 0).

(** [a < b] on coordinates, as a boolean. *)
Definition qltb (a b : Q) : bool := negb (Qle_bool b a).

(** ** Boundary vertices (lines 12-16) *)

(** [mesh.edges]: the three directed edges of every face, in face order. *)
Definition face_edges (f : face) : list edge :=
  let '(a, b, c) := f in [(a, b); (b, c); (c, a)].

Definition mesh_edges (m : mesh) : list edge := flat_map face_edges (faces m).

(** [mesh.edges_sorted]: every edge with its smaller end first. *)
Definition sort_edge (e : edge) : edge := (Nat.min (fst e) (snd e), Nat.max (fst e) (snd e)).

Definition edges_sorted (m : mesh) : list edge := map sort_edge (mesh_edges m).

Definition edge_eqb (e1 e2 : edge) : bool :=
  Nat.eqb (fst e1) (fst e2) && Nat.eqb (snd e1) (snd e2).

Definition occurrences (e : edge) (l : list edge) : nat :=
  List.length (filter (edge_eqb e) l).

(** [mesh.edges[group_rows(edges_sorted, require_count=1)]]: the edges
    that belong to exactly one face. *)
Definition unique_edges (m : mesh) : list edge :=
  filter (fun e => Nat.eqb (occurrences (sort_edge e) (edges_sorted m)) 1) (mesh_edges m).

(** [np.unique]: the distinct values in increasing order. *)
Fixpoint insert_unique (x : nat) (l : list nat) : list nat :=
  match l with
  | [] => [x]
  | y :: r =>
      if Nat.ltb x y then x :: y :: r
      else if Nat.eqb x y then y :: r
      else y :: insert_unique x r
  end.

Definition np_unique (l : list nat) : list nat := fold_right insert_unique [] l.

Definition endpoints (es : list edge) : list nat := flat_map (fun e => [fst e; snd e]) es.

Definition boundary_indices (m : mesh) : list nat := np_unique (endpoints (unique_edges m)).

(** ** Top and bottom groups (lines 24-28) *)

Definition qsum (l : list Q) : Q := fold_left Qplus l 0.

(** [np.mean], taken exactly: numpy rounds the sum and the quotient, so
    its mean of floats can differ from this one in the last place. *)
Definition qmean (l : list Q) : Q := qsum l / inject_Z (Z.of_nat (List.length l)).

Definition z_mean (m : mesh) : Q :=
  qmean (map (fun i => vz (vertex_at m i)) (boundary_indices m)).

Definition top_indices (m : mesh) : list nat :=
  filter (fun i => qltb (z_mean m) (vz (vertex_at m i))) (boundary_indices m).

Definition bottom_indices (m : mesh) : list nat :=
  filter (fun i => qltb (vz (vertex_at m i)) (z_mean m)) (boundary_indices m).

(** ** Start and end of the seam (lines 37-42) *)

(** [np.argmin]: the position of the first smallest value. *)
Fixpoint argmin_from (best_i : nat) (best : Q) (i : nat) (l : list Q) : nat :=
  match l with
  | [] => best_i
  | x :: r =>
      if qltb x best then argmin_from i x (S i) r else argmin_from best_i best (S i) r
  end.

Definition argmin (l : list Q) : nat :=
  match l with
  | [] => O
  | x :: r => argmin_from 0 x 1 r
  end.

Definition start_idx (m : mesh) : nat :=
  let top := top_indices m in
  nth (argmin (map (fun i => vx (vertex_at m i)) top)) top O.

(** The square of [np.linalg.norm(p - q)]; the smallest distance and
    the smallest squared distance are reached at the same position. *)
Definition dist2 (p q : vertex) : Q :=
  (vx p - vx q) * (vx p - vx q) + (vy p - vy q) * (vy p - vy q)
  + (vz p - vz q) * (vz p - vz q).

Definition end_idx (m : mesh) : nat :=
  let bottom := bottom_indices m in
  let start_pos := vertex_at m (start_idx m) in
  nth (argmin (map (fun i => dist2 (vertex_at m i) start_pos) bottom)) bottom O.

(** ** The vertex-adjacency graph and the shortest path (lines 48-50) *)

(** [mesh.vertex_adjacency_graph]: an undirected edge per mesh edge. *)
Definition neighbors (m : mesh) (u : nat) : list nat :=
  flat_map (fun e => (if Nat.eqb (fst e) u then [snd e] else [])
                       ++ (if Nat.eqb (snd e) u then [fst e] else []))
           (mesh_edges m).

Definition mem (v : nat) (l : list nat) : bool := existsb (Nat.eqb v) l.

(** [v] is a neighbour of [u] in a graph given by its neighbour lists. *)
Definition adjacent_in (nbrs : nat -> list nat) (u v : nat) : bool := mem v (nbrs u).

Definition adjacent (m : mesh) (u v : nat) : bool := adjacent_in (neighbors m) u v.

Definition nodes (m : mesh) : list nat := np_unique (endpoints (mesh_edges m)).

Section ShortestPath.

(** [nx.shortest_path] without weights is a breadth-first search of
    networkx; it is modelled by a search by levels from the source. *)
Variable nbrs : nat -> list nat.

(** The vertices within [k] edges of [s]. *)
Fixpoint reach (s : nat) (k : nat) : list nat :=
  match k with
  | O => [s]
  | S k' =>
      let r := reach s k' in
      nodup Nat.eq_dec (r ++ flat_map nbrs r)
  end.

(** The first level, from [k] on, at which [t] is reached. *)
Fixpoint first_level (s t : nat) (fuel k : nat) : option nat :=
  match fuel with
  | O => None
  | S fuel' => if mem t (reach s k) then Some k else first_level s t fuel' (S k)
  end.

(** From [v], reached within [k] edges, back to the source. *)
Fixpoint path_back (s : nat) (k : nat) (v : nat) : list nat :=
  match k with
  | O => [v]
  | S k' =>
      if mem v (reach s k') then path_back s k' v
      else
        match find (fun u => mem v (nbrs u)) (reach s k') with
        | Some u => v :: path_back s k' u
        | None => [v]
        end
  end.

(** [None] stands for [NetworkXNoPath]. *)
Definition shortest_path (n_nodes : nat) (s t : nat) : option (list nat) :=
  match first_level s t (S n_nodes) 0 with
  | Some k => Some (rev (path_back s k t))
  | None => None
  end.

End ShortestPath.

(** ** [extract_seam] *)

Inductive seam_result : Type :=
| Watertight       (* "Error: Mesh is watertight (no boundaries). ..." *)
| NotSeparable     (* "Error: Could not separate top and bottom loops." *)
| NoPath           (* "Error: No path found between top and bottom. ..." *)
| Seam (path : list nat).

Definition extract_seam (m : mesh) : seam_result :=
  match boundary_indices m with
  | [] => Watertight
  | _ :: _ =>
      match top_indices m, bottom_indices m with
      | [], _ => NotSeparable
      | _, [] => NotSeparable
      | _ :: _, _ :: _ =>
          match shortest_path (neighbors m) (List.length (nodes m))
                              (start_idx m) (end_idx m) with
          | Some path => Seam path
          | None => NoPath
          end
      end
  end.

(** The lines written after the header: index and coordinates. *)
Definition seam_lines (m : mesh) (path : list nat) : list (nat * vertex) :=
  map (fun idx => (idx, vertex_at m idx)) path.

(** ** Vocabulary of the statements about this module *)

(** Every step of [l] follows an edge. *)
Fixpoint linked (adj : nat -> nat -> bool) (l : list nat) : bool :=
  match l with
  | [] => true
  | a :: r =>
      match r with
      | [] => true
      | b :: _ => adj a b && linked adj r
      end
  end.

(** [l] is a walk from [s] to [t]. *)
Definition walk (adj : nat -> nat -> bool) (s t : nat) (l : list nat) : Prop :=
  hd_error l = Some s /\ last l s = t /\ linked adj l = true.

(** Example data: a single triangle standing on its side, and a strip of
    two triangles between the heights 0 and 1. *)
Definition lone_triangle : mesh :=
  mkMesh [ (0, 0, 0); (1, 0, 1); (0, 0, 2) ] [ (0, 1, 2)%nat ].

Definition strip : mesh :=
  mkMesh [ (0, 0, 0); (1, 0, 0); (0, 0, 1); (1, 0, 1) ]
         [ (0, 1, 2)%nat; (1, 3, 2)%nat ].

End SeamExtract.

(* ================================================================== *)
(** * [scripts/uv_repack.py] *)
(* ================================================================== *)

Module UvRepack.

Local Open Scope string_scope.

(** ** Text primitives used by [load_obj_uv] *)

(** White space as [str.split()] without arguments sees it, among the
    characters with a code below 256, which are the characters of a
    [string] here: tab to carriage return, the four separators 28-31,
    the space, and the two of the upper half, next line (133) and
    no-break space (160).  Text with characters beyond 255 is not
    covered. *)
Definition is_space (c : ascii) : bool :=
  let n := N_of_ascii c in
  ((9 <=? n) && (n <=? 13) || (28 <=? n) && (n <=? 31) || (n =? 32)
   || (n =? 133) || (n =? 160))%N.

Definition snoc (s : string) (c : ascii) : string := s ++ String c EmptyString.

Definition nonempty (s : string) : bool :=
  match s with
  | EmptyString => false
  | String _ _ => true
  end.

(** [str.split()]: the maximal runs of non-space characters. [cur] is the
    run being read. *)
Fixpoint split_ws_from (cur s : string) : list string :=
  match s with
  | EmptyString => if nonempty cur then [cur] else []
  | String c s' =>
      if is_space c
      then (if nonempty cur then cur :: split_ws_from "" s' else split_ws_from "" s')
      else split_ws_from (snoc cur c) s'
  end.

Definition split_ws (s : string) : list string := split_ws_from "" s.

(** [str.split(sep)] for a one-character separator: empty fields are kept. *)
Fixpoint split_on_from (sep : ascii) (cur s : string) : list string :=
  match s with
  | EmptyString => [cur]
  | String c s' =>
      if Ascii.eqb c sep
      then cur :: split_on_from sep "" s'
      else split_on_from sep (snoc cur c) s'
  end.

Definition split_on (sep : ascii) (s : string) : list string :=
  split_on_from sep "" s.

Definition startswith (p s : string) : bool := String.prefix p s.

(** A UV face: three indices into the UV list (0-based after parsing). *)
Definition uv_face : Type := (Z * Z * Z)%type.

(** The fan [(0, i+1, i+2)] for [i] in [range(len(uv_indices) - 2)]. *)
Definition fan_triangulate (uv_indices : list Z) : list uv_face :=
  map (fun i => (nth 0 uv_indices 0%Z,
                 nth (i + 1) uv_indices 0%Z,
                 nth (i + 2) uv_indices 0%Z))
      (seq 0 (List.length uv_indices - 2)).

Section Parser.

(** Python's [float()] and [int()] on a token; [None] is [ValueError]. *)
Variable py_float : string -> option Q.
Variable py_int : string -> option Z.

Definition to_float (s : string) : result Q :=
  match py_float s with
  | Some q => Ok q
  | None => Raise ValueError
  end.

Definition item (parts : list string) (k : nat) : result string :=
  match nth_error parts k with
  | Some s => Ok s
  | None => Raise IndexError
  end.

(** A [vt] line: [[float(parts[1]), 1.0 - float(parts[2])]]. *)
Definition parse_vt (line : string) : result (Q * Q) :=
  let parts := split_ws line in
  p1 <- item parts 1 ;;
  u <- to_float p1 ;;
  p2 <- item parts 2 ;;
  v <- to_float p2 ;;
  Ok (u, 1 - v)%Q.

(** The inner loop over the vertex entries of a face line: an entry
    contributes [int(vals[1]) - 1] when it has a second, non-empty
    slash-separated field, and nothing otherwise. *)
Fixpoint face_uv_indices (parts : list string) : result (list Z) :=
  match parts with
  | [] => Ok []
  | p :: ps =>
      match split_on "/" p with
      | _ :: v1 :: _ =>
          if nonempty v1
          then match py_int v1 with
               | Some k => r <- face_uv_indices ps ;; Ok ((k - 1)%Z :: r)
               | None => Raise ValueError
               end
          else face_uv_indices ps
      | _ => face_uv_indices ps
      end
  end.

(** The UV faces contributed by one [f] line. *)
Definition parse_face_line (line : string) : result (list uv_face) :=
  uv_indices <- face_uv_indices (tl (split_ws line)) ;;
  Ok (fan_triangulate uv_indices).

(** The loop of [load_obj_uv] over the lines of the file, threading the
    two accumulators. *)
Fixpoint load_lines (lines : list string) (uvs : list (Q * Q))
         (uv_faces : list uv_face) : result (list (Q * Q) * list uv_face) :=
  match lines with
  | [] => Ok (uvs, uv_faces)
  | line :: rest =>
      if startswith "vt " line
      then uv <- parse_vt line ;; load_lines rest (uvs ++ [uv]) uv_faces
      else if startswith "f " line
      then fs <- parse_face_line line ;; load_lines rest uvs (uv_faces ++ fs)
      else load_lines rest uvs uv_faces
  end.

Definition load_obj_uv (lines : list string) : result (list (Q * Q) * list uv_face) :=
  load_lines lines [] [].

End Parser.

(** A plain decimal reading of an integer token: an optional sign and
    digits.  It is one admissible instance of [py_int]. *)
Definition digit_val (c : ascii) : option Z :=
  let n := N_of_ascii c in
  if ((48 <=? n) && (n <=? 57))%N then Some (Z.of_N (n - 48)) else None.

Fixpoint digits_val (acc : Z) (s : string) : option Z :=
  match s with
  | EmptyString => Some acc
  | String c s' =>
      match digit_val c with
      | Some d => digits_val (10 * acc + d) s'
      | None => None
      end
  end.

Definition decimal_int (s : string) : option Z :=
  match s with
  | EmptyString => None
  | String "-" (String c r) => option_map Z.opp (digits_val 0 (String c r))
  | String "+" (String c r) => digits_val 0 (String c r)
  | _ => digits_val 0 s
  end.

(** The number of face lines of a file: what a geometry loader counts. *)
Definition face_line_count (lines : list string) : nat :=
  List.length (filter (startswith "f ") lines).

(** ** [main]: reconciling the two face lists (lines 53-58) *)

Definition mismatch_warning (n_old n_new : nat) : string :=
  "Warning: Face count mismatch! Old: " ++ show_nat n_old
    ++ ", New: " ++ show_nat n_new.

(** Returns the lines printed and the two lists the rest of [main] uses. *)
Definition reconcile_faces {F : Type} (old_faces new_faces : list F)
  : list string * (list F * list F) :=
  if Nat.eqb (List.length old_faces) (List.length new_faces)
  then ([], (old_faces, new_faces))
  else
    let min_len := Nat.min (List.length old_faces) (List.length new_faces) in
    ([mismatch_warning (List.length old_faces) (List.length new_faces)],
     (firstn min_len old_faces, firstn min_len new_faces)).

(** ** [main]: the triangle ownership map (lines 72-100) *)

Definition point : Type := (Q * Q)%type.
Definition triangle : Type := (point * point * point)%type.

(** numpy indexing by one integer: negative indices count from the end,
    anything else out of range raises. *)
Definition np_index {A : Type} (a : list A) (k : Z) : result A :=
  let n := Z.of_nat (List.length a) in
  let k' := if (k <? 0)%Z then (k + n)%Z else k in
  if ((0 <=? k') && (k' <? n))%Z
  then match nth_error a (Z.to_nat k') with
       | Some x => Ok x
       | None => Raise IndexError
       end
  else Raise IndexError.

(** [uvs[face]]: the three UV points of a face. *)
Definition gather (uvs : list point) (f : uv_face) : result triangle :=
  let '(i, j, k) := f in
  a <- np_index uvs i ;; b <- np_index uvs j ;; c <- np_index uvs k ;;
  Ok (a, b, c).

Definition scale_point (w h : Q) (p : point) : point :=
  (fst p * w, snd p * h)%Q.

Definition scale_triangle (w h : Q) (t : triangle) : triangle :=
  let '(a, b, c) := t in (scale_point w h a, scale_point w h b, scale_point w h c).

(** [new_uvs[new_faces] * [dst_w, dst_h]]. *)
Definition tri_uvs (new_uvs : list point) (new_faces : list uv_face)
           (dst_w dst_h : nat) : result (list triangle) :=
  mapM (fun f => t <- gather new_uvs f ;;
                 Ok (scale_triangle (inject_Z (Z.of_nat dst_w))
                                    (inject_Z (Z.of_nat dst_h)) t))
       new_faces.

(** An image of mode ['I']: [dst_h] rows of [dst_w] integer cells. *)
Definition image : Type := list (list Z).

Definition new_image (w h : nat) (fill : Z) : image := repeat (repeat fill w) h.

Definition cell (img : image) (x y : nat) : Z := nth x (nth y img []) 0%Z.

Section Rasterizer.

(** [ImageDraw.polygon] is Pillow's: [footprint poly x y] says whether
    filling [poly] writes the pixel in column [x] of row [y]. *)
Variable footprint : triangle -> nat -> nat -> bool.

Definition draw_polygon (poly : triangle) (fill : Z) (img : image) : image :=
  imap (fun y row => imap (fun x old => if footprint poly x y then fill else old) row) img.

(** [for i, tri in enumerate(tri_uvs): draw.polygon(poly, fill=i+1)],
    entered at face number [i]. *)
Fixpoint draw_faces (i : nat) (tris : list triangle) (img : image) : image :=
  match tris with
  | [] => img
  | tri :: rest => draw_faces (S i) rest (draw_polygon tri (Z.of_nat i + 1) img)
  end.

Definition face_map (tris : list triangle) (dst_w dst_h : nat) : image :=
  draw_faces 0 tris (new_image dst_w dst_h 0).

(** [np.where(face_map > 0)]: the covered pixels [(y, x)], row by row. *)
Definition covered_pixels (fm : image) : list (nat * nat) :=
  List.concat (imap (fun y row =>
                  List.concat (imap (fun x c => if (0 <? c)%Z then [(y, x)] else []) row))
               fm).

(** [face_map[pixel_y, pixel_x] - 1]. *)
Definition face_index (fm : image) (px : nat * nat) : Z :=
  (cell fm (snd px) (fst px) - 1)%Z.

End Rasterizer.

(** ** [main]: barycentric weights (lines 117-138) *)

Local Open Scope Q_scope.

Definition vsub (p q : point) : point := (fst p - fst q, snd p - snd q).
Definition vdot (p q : point) : Q := fst p * fst q + snd p * snd q.

Definition eps_denom : Q := 1 # 100000000.

(** [denom[np.abs(denom) < 1e-8] = 1e-8]. *)
Definition clamp_denom (denom : Q) : Q :=
  if Qlt_le_dec (Qabs denom) eps_denom then eps_denom else denom.

(** The raw determinant [d00 * d11 - d01 * d01] of a triangle, taken
    exactly: it is 0 for collinear corners, where the rounded products
    of floats need not cancel. *)
Definition raw_denom (t : triangle) : Q :=
  let '(A, B, C) := t in
  let v0 := vsub B A in
  let v1 := vsub C A in
  vdot v0 v0 * vdot v1 v1 - vdot v0 v1 * vdot v0 v1.

(** The value both divisions of lines 133-134 divide by. *)
Definition bary_denom (t : triangle) : Q := clamp_denom (raw_denom t).

(** The weights [(u, v, w)] of pixel centre [P] in triangle [(A, B, C)]. *)
Definition barycentric (t : triangle) (P : point) : Q * Q * Q :=
  let '(A, B, C) := t in
  let v0 := vsub B A in
  let v1 := vsub C A in
  let v2 := vsub P A in
  let d00 := vdot v0 v0 in
  let d01 := vdot v0 v1 in
  let d11 := vdot v1 v1 in
  let d20 := vdot v2 v0 in
  let d21 := vdot v2 v1 in
  let denom := clamp_denom (d00 * d11 - d01 * d01) in
  let v := (d11 * d20 - d01 * d21) / denom in
  let w := (d00 * d21 - d01 * d20) / denom in
  let u := 1 - v - w in
  (u, v, w).

(** [P = np.stack([pixel_x, pixel_y])]: a pixel [(y, x)] as a point. *)
Definition pixel_point (px : nat * nat) : point :=
  (inject_Z (Z.of_nat (snd px)), inject_Z (Z.of_nat (fst px))).

(** [target_uv = (weights * tris_old).sum(axis=1)]. *)
Definition interpolate (wts : Q * Q * Q) (t : triangle) : point :=
  let '(u, v, w) := wts in
  let '(A, B, C) := t in
  (u * fst A + v * fst B + w * fst C, u * snd A + v * snd B + w * snd C).

(** What [main] computes for one covered pixel: the face that owns it, the
    weights in that face's new triangle, the face's old triangle and the
    sampling position in the source image. *)
Record sample : Type := mkSample {
  s_pixel : nat * nat;
  s_face : Z;
  s_weights : Q * Q * Q;
  s_old_triangle : triangle;
  s_source_xy : point
}.

Definition remap_pixel (old_uvs new_uvs : list point)
           (old_faces new_faces : list uv_face)
           (dst_w dst_h src_w src_h : nat) (fm : image) (px : nat * nat)
  : result sample :=
  let fi := face_index fm px in
  new_f <- np_index new_faces fi ;;
  tn <- gather new_uvs new_f ;;
  let tri_new := scale_triangle (inject_Z (Z.of_nat dst_w)) (inject_Z (Z.of_nat dst_h)) tn in
  let wts := barycentric tri_new (pixel_point px) in
  old_f <- np_index old_faces fi ;;
  tri_old <- gather old_uvs old_f ;;
  let target_uv := interpolate wts tri_old in
  Ok (mkSample px fi wts tri_old
        (scale_point (inject_Z (Z.of_nat src_w)) (inject_Z (Z.of_nat src_h)) target_uv)).

(** [np.array] of an empty Python list is a one-dimensional array of
    floats, and a slice of it still is one.  numpy takes no array of
    floats as an index, not even an empty one: a face array parsed from
    a file without UV faces raises where it is first used as an index. *)
Definition as_index {F : Type} (parsed : list F) : result unit :=
  match parsed with
  | [] => Raise IndexError
  | _ :: _ => Ok tt
  end.

(** A UV array built from an empty list has no second axis.  Indexing it
    with no face at all gives rows of three numbers, not of three pairs,
    and the product with [[dst_w, dst_h]] (line 78) or with the weights
    (line 148) cannot be broadcast. *)
Definition as_pairs (uvs : list point) : result unit :=
  match uvs with
  | [] => Raise ValueError
  | _ :: _ => Ok tt
  end.

Section Remap.

Variable footprint : triangle -> nat -> nat -> bool.

(** Steps 1 to 4 of [main] after the files are parsed: reconcile the
    face lists, rasterise the ownership map, and compute one sample per
    covered pixel.  The printed lines come first.  The arguments are
    the lists as [load_obj_uv] collected them, before [np.array]: the
    parsed [new_faces] is what line 78 uses as an index, the parsed
    [old_faces] what line 143 does, each after the cut of lines 57-58,
    which keeps the element type. *)
Definition remap (old_uvs new_uvs : list point)
           (old_faces new_faces : list uv_face)
           (dst_w dst_h src_w src_h : nat)
  : list string * result (list sample) :=
  let '(out, (old_faces', new_faces')) := reconcile_faces old_faces new_faces in
  (out,
   _ <- as_index new_faces ;;
   tris <- tri_uvs new_uvs new_faces' dst_w dst_h ;;
   _ <- as_pairs new_uvs ;;
   let fm := face_map footprint tris dst_w dst_h in
   _ <- as_index old_faces ;;
   samples <- mapM (remap_pixel old_uvs new_uvs old_faces' new_faces'
                                dst_w dst_h src_w src_h fm)
                   (covered_pixels fm) ;;
   _ <- as_pairs old_uvs ;;
   Ok samples).

End Remap.

(** ** Vocabulary of the statements about this module *)

(** [P] lies in the closed triangle [t]: it is a convex combination of
    the three corners. *)
Definition inside_closed (t : triangle) (P : point) : Prop :=
  let '(A, B, C) := t in
  exists a b c : Q,
    0 <= a /\ 0 <= b /\ 0 <= c /\ a + b + c == 1 /\
    fst P == a * fst A + b * fst B + c * fst C /\
    snd P == a * snd A + b * snd B + c * snd C.

(** Pixel [(x, y)] is a cell of the image. *)
Definition in_bounds (img : image) (x y : nat) : Prop :=
  (y < List.length img)%nat /\ (x < List.length (nth y img []))%nat.

Definition no_triangle : triangle := ((0, 0), (0, 0), (0, 0)).

Local Open Scope string_scope.

Fixpoint all_chars (p : ascii -> bool) (s : string) : bool :=
  match s with
  | EmptyString => true
  | String c s' => p c && all_chars p s'
  end.

Definition no_space (s : string) : bool := all_chars (fun c => negb (is_space c)) s.
Definition no_slash (s : string) : bool := all_chars (fun c => negb (Ascii.eqb c "/")) s.

(** The text of a face line with the given vertex entries:
    [f e1 e2 ... en] and the end of the line. *)
Definition join_entries (entries : list string) : string :=
  fold_right (fun e acc => " " ++ e ++ acc) "" entries.

Definition face_line (entries : list string) : string :=
  "f" ++ join_entries entries ++ String "010" "".

(** A vertex entry [v/t] or [v/t/n] whose UV field [t] reads as [k]. *)
Definition carries_uv (py_int : string -> option Z) (e : string) (k : Z) : Prop :=
  exists v t tail,
    e = v ++ "/" ++ t ++ tail /\
    no_slash v = true /\ no_slash t = true /\ nonempty t = true /\
    (tail = "" \/ exists n, tail = "/" ++ n) /\
    py_int t = Some k.

(** Example data: a toy rasteriser (the bounding box of the three
    corners) and two overlapping triangles. *)
Definition between (lo1 lo2 lo3 q : Q) : bool :=
  (Qle_bool lo1 q || Qle_bool lo2 q || Qle_bool lo3 q) &&
  (Qle_bool q lo1 || Qle_bool q lo2 || Qle_bool q lo3).

Definition box_footprint (t : triangle) (x y : nat) : bool :=
  let '(a, b, c) := t in
  between (fst a) (fst b) (fst c) (inject_Z (Z.of_nat x)) &&
  between (snd a) (snd b) (snd c) (inject_Z (Z.of_nat y)).

Definition two_overlapping : list triangle :=
  [ ((0, 0), (2, 0), (0, 2)); ((1, 1), (3, 1), (1, 3)) ]%Q.

End UvRepack.

From Stdlib Require DecimalNat.

(* ================================================================== *)
(** * [scripts/preprocess.py], vocabulary of the further statements *)
(* ================================================================== *)

Module PreprocessProps.

Import Preprocess.

Local Open Scope Q_scope.

(** [seg] is a non-empty run of consecutive bin indices, and the bins
    next to it on either side, where there are any, are not stable. *)
Definition maximal_run (is_stable : list bool) (seg : list nat) : Prop :=
  seg <> [] /\
  seg = seq (hd O seg) (List.length seg) /\
  (hd O seg = O \/ nth (hd O seg - 1) is_stable false = false) /\
  nth (hd O seg + List.length seg) is_stable false = false.

(** [length * (seg_r ** 0.3)] of line 149. *)
Definition segment_score (pow03 : Q -> Q) (profile_smooth : list Q) (seg : list nat) : Q :=
  inject_Z (Z.of_nat (List.length seg)) * pow03 (segment_radius profile_smooth seg).

(** What the ranking loop of lines 142-157 holds in [best_score] and
    [best_segment] after the segments [seen]: nothing yet, or the first
    of the ranked segments with the highest score. *)
Definition ranking_state (pow03 : Q -> Q) (bins : nat) (profile_smooth : list Q)
           (seen : list (list nat)) (best_score : Q) (best : list nat) : Prop :=
  (best = [] /\ best_score = - (1) /\
   forall s, In s seen -> too_short (List.length s) bins = true)
  \/
  (best_score = segment_score pow03 profile_smooth best /\
   too_short (List.length best) bins = false /\
   exists before after,
     seen = (before ++ best :: after)%list /\
     (forall s, In s before -> too_short (List.length s) bins = false ->
                segment_score pow03 profile_smooth s < segment_score pow03 profile_smooth best) /\
     (forall s, In s after -> too_short (List.length s) bins = false ->
                segment_score pow03 profile_smooth s <= segment_score pow03 profile_smooth best)).

(** Entry [i] of [np.linspace(z_min, z_max, bins + 1)]. *)
Definition edge (z_min z_max : Q) (bins i : nat) : Q :=
  z_min + inject_Z (Z.of_nat i) * ((z_max - z_min) / inject_Z (Z.of_nat bins)).

(** Bin [k] of the profile, counted from 1, as a slice of the height:
    a vertex is in it when its height is at least entry [k - 1] of the
    bin edges and below entry [k]. *)
Definition in_bin (bin_edges : list Q) (k : nat) (v : vertex) : bool :=
  Qle_bool (nth (k - 1) bin_edges 0) (vz v) && negb (Qle_bool (nth k bin_edges 0) (vz v)).

Definition bin_vertices (bin_edges : list Q) (k : nat) (vertices : list vertex)
  : list vertex :=
  filter (in_bin bin_edges k) vertices.


(** Example data: two runs of stable bins in a profile of 40 bins. *)
Definition two_runs : list bool :=
  (repeat true 10 ++ false :: repeat true 20 ++ repeat false 9)%list.

End PreprocessProps.

(* ================================================================== *)
(** * [scripts/seam_extract.py], vocabulary of the further statements *)
(* ================================================================== *)

Module SeamProps.

Import SeamExtract.

(** Two directed edges join the same two vertices. *)
Definition same_ends (e1 e2 : edge) : bool :=
  (Nat.eqb (fst e1) (fst e2) && Nat.eqb (snd e1) (snd e2))
  || (Nat.eqb (fst e1) (snd e2) && Nat.eqb (snd e1) (fst e2)).

(** The number of face sides that join the two ends of [e]. *)
Definition sides (m : mesh) (e : edge) : nat :=
  List.length (filter (same_ends e) (mesh_edges m)).

(** Strictly increasing, without repetition. *)
Fixpoint increasing (l : list nat) : Prop :=
  match l with
  | [] => True
  | x :: r => (forall y, In y r -> (x < y)%nat) /\ increasing r
  end.

(** Example data: a closed surface, the four faces of a tetrahedron, and
    a triangle lying flat. *)
Definition tetrahedron : mesh :=
  mkMesh [ (0, 0, 0); (1, 0, 0); (0, 1, 0); (0, 0, 1) ]%Q
         [ (0, 2, 1)%nat; (0, 1, 3)%nat; (1, 2, 3)%nat; (0, 3, 2)%nat ].

Definition flat_triangle : mesh :=
  mkMesh [ (0, 0, 0); (1, 0, 0); (0, 1, 0) ]%Q [ (0, 1, 2)%nat ].

End SeamProps.

(* ================================================================== *)
(** * [scripts/uv_repack.py], the end of [main] (lines 150-176) *)
(* ================================================================== *)

Module Resample.

Import UvRepack.

(** One RGBA pixel of the output, four [uint8] values. *)
Definition rgba : Type := (Z * Z * Z * Z)%type.

(** What [np.zeros] leaves in a pixel. *)
Definition transparent : rgba := (0, 0, 0, 0)%Z.

(** [dst_img_arr]: [dst_h] rows of [dst_w] pixels. *)
Definition canvas : Type := list (list rgba).

(** [np.zeros((dst_h, dst_w, 4), dtype=np.uint8)] *)
Definition blank (w h : nat) : canvas := repeat (repeat transparent w) h.

Definition pixel (img : canvas) (x y : nat) : rgba := nth x (nth y img []) transparent.

(** [dst_img_arr[y, x] = c] for a position inside the image. *)
Definition set_pixel (y x : nat) (c : rgba) (img : canvas) : canvas :=
  imap (fun j row =>
          if Nat.eqb j y
          then imap (fun i old => if Nat.eqb i x then c else old) row
          else row)
       img.

Section Render.

Variable footprint : triangle -> nat -> nat -> bool.

(** The four [scipy.ndimage.map_coordinates] calls of lines 163-166 at
    one sampling position [(sample_x, sample_y)] of the source image,
    stored as [uint8]: bilinear, clamped at the border. *)
Variable sample_source : point -> rgba.

(** [dst_img_arr[pixel_y, pixel_x] = out_pixels.T] *)
Definition paint (samples : list sample) (dst_w dst_h : nat) : canvas :=
  fold_left (fun img s =>
               set_pixel (fst (s_pixel s)) (snd (s_pixel s))
                         (sample_source (s_source_xy s)) img)
            samples (blank dst_w dst_h).

(** [main] from the parsed files to the image that is saved. *)
Definition render (old_uvs new_uvs : list point) (old_faces new_faces : list uv_face)
           (dst_w dst_h src_w src_h : nat) : list string * result canvas :=
  let '(out, r) :=
    remap footprint old_uvs new_uvs old_faces new_faces dst_w dst_h src_w src_h in
  (out, samples <- r ;; Ok (paint samples dst_w dst_h)).

End Render.

(** ** Vocabulary of the statements about this module *)

(** [k] is an index numpy accepts for an array of [n] rows. *)
Definition index_ok (n : nat) (k : Z) : Prop := (- Z.of_nat n <= k < Z.of_nat n)%Z.

Definition face_ok (uvs : list point) (f : uv_face) : Prop :=
  let '(i, j, k) := f in
  index_ok (List.length uvs) i /\ index_ok (List.length uvs) j /\ index_ok (List.length uvs) k.

(** The text of a [vt] line with the given coordinate tokens. *)
Definition vt_line (tokens : list string) : string :=
  ("vt" ++ join_entries tokens ++ String "010" "")%string.

(** Lines that [load_obj_uv] looks at. *)
Definition relevant (line : string) : bool :=
  startswith "vt " line || startswith "f " line.

(** Example data: one right triangle over a square of UV space, and a
    sampler that returns the sampling position rounded down. *)
Definition unit_uvs : list point := [ (0, 0); (1, 0); (0, 1) ]%Q.

Definition unit_faces : list uv_face := [ (0, 1, 2)%Z ].

Definition half_uvs : list point := [ (0, 0); (1 # 2, 0); (0, 1 # 2) ]%Q.

Definition floor_sampler (p : point) : rgba :=
  (Qfloor (fst p), Qfloor (snd p), 0, 255)%Z.

(** The 4x4 output for the old layout [unit_uvs], the new layout
    [half_uvs], the bounding-box rasteriser and [floor_sampler]. *)
Definition half_render : canvas :=
  [ [ (0, 0, 0, 255); (2, 0, 0, 255); (4, 0, 0, 255); (0, 0, 0, 0) ];
    [ (0, 2, 0, 255); (2, 2, 0, 255); (4, 2, 0, 255); (0, 0, 0, 0) ];
    [ (0, 4, 0, 255); (2, 4, 0, 255); (4, 4, 0, 255); (0, 0, 0, 0) ];
    [ (0, 0, 0, 0); (0, 0, 0, 0); (0, 0, 0, 0); (0, 0, 0, 0) ] ]%Z.

(** A rasteriser written out for the examples.  As the polygon fill of
    Pillow does, it cuts each corner coordinate to a whole number (the
    cast to [int] of the drawing code) and writes the pixels of the
    closed triangle between the cut corners, corners and edges
    included. *)
Definition cut (q : Q) : Q := inject_Z (Z.quot (Qnum q) (Zpos (Qden q))).

Definition cut_point (p : point) : point := (cut (fst p), cut (snd p)).

(** Twice the signed area of [(a, b, p)]. *)
Definition edge_side (a b p : point) : Q :=
  ((fst b - fst a) * (snd p - snd a) - (snd b - snd a) * (fst p - fst a))%Q.

Definition closed_footprint (t : triangle) (x y : nat) : bool :=
  let '(a, b, c) := t in
  let a' := cut_point a in
  let b' := cut_point b in
  let c' := cut_point c in
  let p := (inject_Z (Z.of_nat x), inject_Z (Z.of_nat y)) in
  box_footprint (a', b', c') x y &&
  ((Qle_bool 0 (edge_side a' b' p) && Qle_bool 0 (edge_side b' c' p)
    && Qle_bool 0 (edge_side c' a' p))
   || (Qle_bool (edge_side a' b' p) 0 && Qle_bool (edge_side b' c' p) 0
       && Qle_bool (edge_side c' a' p) 0)).


Definition offset_triangle : triangle :=
  scale_triangle (inject_Z 4) (inject_Z 4) ((1 # 8, 1 # 8), (5 # 8, 1 # 8), (1 # 8, 5 # 8))%Q.


(** A reading of floating-point tokens for the examples: integers only. *)
Definition integer_float (s : string) : option Q := option_map inject_Z (decimal_int s).

End Resample.

(* ================================================================== *)
(** * The seam file: written by [scripts/seam_extract.py] (lines 57-61),
      read by [scripts/seam2uv.py] (lines 31-35) *)
(* ================================================================== *)

Module SeamFile.

Import SeamExtract UvRepack.

Local Open Scope string_scope.

Definition line_feed : ascii := "010"%char.
Definition carriage_return : ascii := "013"%char.

Section Writer.

(** The rendering [f"{x:.6f}"] of a coordinate. *)
Variable fmt6 : Q -> string.

Definition header : string := "# index  x  y  z" ++ String line_feed "".

(** [f"{idx} {v[0]:.6f} {v[1]:.6f} {v[2]:.6f}\n"] *)
Definition seam_line (entry : nat * vertex) : string :=
  show_nat (fst entry) ++ " " ++ fmt6 (vx (snd entry)) ++ " " ++ fmt6 (vy (snd entry))
    ++ " " ++ fmt6 (vz (snd entry)) ++ String line_feed "".

(** The text of the file after the loop of lines 59-61. *)
Definition write_seam (m : mesh) (path : list nat) : string :=
  header ++ fold_right append "" (map seam_line (seam_lines m path)).

End Writer.

(** [for line in f] on a file opened for reading as text: the lines with
    their line ends, where a line end written as a line feed, a carriage
    return or both is read as a line feed.  [cur] is the line being
    read; [after_cr] tells that the last character was a carriage
    return. *)
Fixpoint file_lines (after_cr : bool) (cur s : string) : list string :=
  match s with
  | EmptyString => if nonempty cur then [cur] else []
  | String c s' =>
      if Ascii.eqb c line_feed
      then (if after_cr then file_lines false cur s'
            else snoc cur line_feed :: file_lines false "" s')
      else if Ascii.eqb c carriage_return
      then snoc cur line_feed :: file_lines true "" s'
      else file_lines false (snoc cur c) s'
  end.

Section Reader.

(** Python's [int()] on a token; [None] is [ValueError]. *)
Variable py_int : string -> option Z.

(** One turn of the loop of lines 33-35. *)
Definition read_line (line : string) (seam_indices : list Z) : result (list Z) :=
  if startswith "#" line then Ok seam_indices
  else
    match split_ws line with
    | [] => Raise IndexError
    | token :: _ =>
        match py_int token with
        | Some k => Ok (seam_indices ++ [k])%list
        | None => Raise ValueError
        end
    end.

Fixpoint read_lines (lines : list string) (seam_indices : list Z) : result (list Z) :=
  match lines with
  | [] => Ok seam_indices
  | line :: rest =>
      seam_indices' <- read_line line seam_indices ;; read_lines rest seam_indices'
  end.

Definition read_seam (content : string) : result (list Z) :=
  read_lines (file_lines false "" content) [].

End Reader.

(** ** Vocabulary of the statements about this module *)

Definition is_digit (c : ascii) : bool :=
  match digit_val c with
  | Some _ => true
  | None => false
  end.

Definition no_line_end (s : string) : bool :=
  all_chars (fun c => negb (Ascii.eqb c line_feed || Ascii.eqb c carriage_return)) s.

(** Example rendering, exact on whole numbers: sign, integer part and
    six zeros. *)
Definition fixed6_whole (q : Q) : string :=
  (if Qle_bool 0 q then "" else "-")
    ++ show_nat (Z.to_nat (Z.abs (Qfloor q))) ++ ".000000".

End SeamFile.

(* ================================================================== *)
(** * [scripts/preprocess.py], [align_robust]: the choice of the axis
      (lines 27-38) and the recentring (lines 55-57) *)
(* ================================================================== *)

Module AlignRobust.

Import Preprocess.

Local Open Scope Q_scope.

Definition face : Type := (nat * nat * nat)%type.

Definition vx (v : vertex) : Q := fst (fst v).
Definition vy (v : vertex) : Q := snd (fst v).

Definition dot (a b : vertex) : Q := vx a * vx b + vy a * vy b + vz a * vz b.

Definition neg (a : vertex) : vertex := (- vx a, - vy a, - vz a).

(** ** The score of a candidate axis *)

(** [np.sum(face_areas * np.abs(np.dot(face_normals, axis)))], on the
    normals and areas of the faces, one of each per face. *)
Definition axis_score (face_normals : list vertex) (face_areas : list Q) (axis : vertex) : Q :=
  qsum (map (fun an => fst an * Qabs (dot (snd an) axis)) (combine face_areas face_normals)).

(** The loop of lines 30-35 over [range(3)]; the candidate axes are the
    rows of the matrix returned by the decomposition, and a row that is
    not there is an [IndexError]. *)
Definition axis_scores (face_normals : list vertex) (face_areas : list Q)
           (candidate_axes : list vertex) : result (list Q) :=
  mapM (fun i => match nth_error candidate_axes i with
                 | Some axis => Ok (axis_score face_normals face_areas axis)
                 | None => Raise IndexError
                 end)
       (seq 0 3).

(** Lines 37-38: [best_axis_idx] and [principal_axis]. *)
Definition principal_axis (face_normals : list vertex) (face_areas : list Q)
           (candidate_axes : list vertex) : result (nat * vertex) :=
  scores <- axis_scores face_normals face_areas candidate_axes ;;
  let best_axis_idx := SeamExtract.argmin scores in
  match nth_error candidate_axes best_axis_idx with
  | Some axis => Ok (best_axis_idx, axis)
  | None => Raise IndexError
  end.

(** ** Recentring *)

Definition corner_of (f : face) (i : nat) : bool :=
  let '(a, b, c) := f in Nat.eqb a i || Nat.eqb b i || Nat.eqb c i.

(** [mesh.referenced_vertices]: the vertices that some face uses. *)
Definition referenced (faces : list face) (i : nat) : bool :=
  existsb (fun f => corner_of f i) faces.

(** [mesh.vertices[mesh.referenced_vertices]] *)
Definition in_mesh (vertices : list vertex) (faces : list face) : list vertex :=
  map snd (filter (fun iv => referenced faces (fst iv))
                  (combine (seq 0 (List.length vertices)) vertices)).

(** [mesh.bounds]: the lowest and the highest corner of the box around
    the referenced vertices; there is none when no vertex is referenced. *)
Definition bounds (vertices : list vertex) (faces : list face) : option (vertex * vertex) :=
  match in_mesh vertices faces with
  | [] => None
  | _ :: _ =>
      let pts := in_mesh vertices faces in
      Some ((list_min (map vx pts), list_min (map vy pts), list_min (map vz pts)),
            (list_max (map vx pts), list_max (map vy pts), list_max (map vz pts)))
  end.

(** [mesh.apply_translation(t)] *)
Definition apply_translation (t : vertex) (vertices : list vertex) : list vertex :=
  map (fun v => (vx v + vx t, vy v + vy t, vz v + vz t)) vertices.

(** Lines 55-57.  [None] stands for the failure of [.mean] on bounds
    that are not there. *)
Definition recentre (vertices : list vertex) (faces : list face) : option (list vertex) :=
  match bounds vertices faces with
  | None => None
  | Some (lo, hi) =>
      let center_x := (vx lo + vx hi) / 2 in
      let center_y := (vy lo + vy hi) / 2 in
      Some (apply_translation (- center_x, - center_y, 0) vertices)
  end.

(** Example data: a triangle off the axis and a vertex that no face
    uses. *)
Definition off_axis_vertices : list vertex :=
  [ (2, 1, 0); (6, 1, 3); (2, 5, 7); (100, 100, 100) ].

Definition off_axis_faces : list face := [ (0, 1, 2)%nat ].

End AlignRobust.

(* ================================================================== *)
(** * [main.py]: the four steps run one after the other *)
(* ================================================================== *)

Module Pipeline.

Local Open Scope string_scope.

Definition BLENDER_PATH : string := "E:\Softwares\Blender\blender.exe".

(** What [pipeline] can raise. *)
Inductive raised : Type :=
| RuntimeError (msg : string)
| FileNotFoundError (msg : string)
| Propagated (what : string).    (* raised by [os.makedirs] or by [subprocess.run] itself *)

(** How [subprocess.run(cmd, check=True, ...)] ends: exit status 0, a
    non-zero exit status with the captured output, or an exception of
    its own. *)
Inductive run_end : Type :=
| Exit0
| CalledProcessError (stdout stderr : string)
| RunRaised (what : string).

(** What a run leaves behind: the printed lines and, with them, the
    commands handed to [subprocess.run], each with its end. *)
Inductive event : Type :=
| Print (text : string)
| Call (cmd : list string) (ending : run_end).

Inductive outcome (A : Type) : Type :=
| Returned (a : A)
| Raised (e : raised).

Arguments Returned {A} a.
Arguments Raised {A} e.

Definition truthy (s : string) : bool :=
  match s with
  | EmptyString => false
  | String _ _ => true
  end.

Section World.

(** The file system and the programs outside: a state that the calls
    read and change. *)
Variable world : Type.
Variable path_exists : string -> world -> bool.
Variable makedirs : string -> world -> option string * world.
Variable subprocess_run : list string -> world -> run_end * world.

(** [os.path] and the interpreter's own paths. *)
Variable abspath : string -> string.
Variable join : string -> string -> string.
Variable dirname : string -> string.
Variable basename : string -> string.
Variable splitext_root : string -> string.
Variable executable : string.
Variable this_file : string.

(** A computation on the world and the trace that may raise. *)
Definition M (A : Type) : Type := world * list event -> outcome A * (world * list event).

Definition ret {A : Type} (a : A) : M A := fun s => (Returned a, s).

Definition raise {A : Type} (e : raised) : M A := fun s => (Raised e, s).

Definition andthen {A B : Type} (m : M A) (k : A -> M B) : M B :=
  fun s =>
    match m s with
    | (Returned a, s') => k a s'
    | (Raised e, s') => (Raised e, s')
    end.

Definition print (text : string) : M unit :=
  fun s => (Returned tt, (fst s, snd s ++ [Print text]))%list.

Definition exists_now (p : string) : M bool :=
  fun s => (Returned (path_exists p (fst s)), s).

Definition when (b : bool) (m : M unit) : M unit := if b then m else ret tt.

(** [run_command] *)
Definition run_command (cmd : list string) (step_name : string) : M unit :=
  andthen (print (String "010" "[Step: " ++ step_name ++ "] Running...")) (fun _ =>
  fun s =>
    let '(ending, w') := subprocess_run cmd (fst s) in
    let s' := (w', snd s ++ [Call cmd ending])%list in
    match ending with
    | Exit0 => print ("[Step: " ++ step_name ++ "] Success.") s'
    | CalledProcessError stdout stderr =>
        andthen (print ("[Step: " ++ step_name ++ "] Failed!")) (fun _ =>
        andthen (when (truthy stdout)
                      (andthen (print "--- STDOUT Log ---") (fun _ => print stdout))) (fun _ =>
        andthen (when (truthy stderr)
                      (andthen (print "--- STDERR Log ---") (fun _ => print stderr))) (fun _ =>
        raise (RuntimeError (step_name ++ " failed."))))) s'
    | RunRaised what => (Raised (Propagated what), s')
    end).

(** The paths and the four commands that [pipeline] builds. *)
Section Commands.

Variable input_obj : string.
Variable input_texture : option string.
Variable output_dir : string.

Definition obj_abs : string := abspath input_obj.

Definition texture_abs : option string :=
  match input_texture with
  | Some t => if truthy t then Some (abspath t) else Some t
  | None => None
  end.

Definition out_abs : string := abspath output_dir.

Definition scripts_dir : string := join (dirname (abspath this_file)) "scripts".

Definition base_name : string := splitext_root (basename obj_abs).

Definition path_v3_obj : string := join out_abs (base_name ++ "_preprocessed.obj").
Definition path_seam_txt : string := join out_abs (base_name ++ "_seam.txt").
Definition path_new_obj : string := join out_abs (base_name ++ "_seamed.obj").
Definition path_layout_svg : string := join out_abs (base_name ++ "_uv.svg").
Definition path_final_tex : string := join out_abs (base_name ++ "_texture.png").

Definition cmd_1 : list string :=
  [ executable; join scripts_dir "preprocess.py";
    "--input"; obj_abs; "--output"; path_v3_obj ].

Definition cmd_2 : list string :=
  [ executable; join scripts_dir "seam_extract.py";
    "--input_obj"; path_v3_obj; "--output_txt"; path_seam_txt ].

Definition cmd_3 : list string :=
  [ BLENDER_PATH; "-b"; "-P"; join scripts_dir "seam2uv.py"; "--";
    "--input_obj"; path_v3_obj; "--seam_txt"; path_seam_txt;
    "--output_obj"; path_new_obj; "--output_layout"; path_layout_svg ].

Definition cmd_4 (texture : string) : list string :=
  [ executable; join scripts_dir "uv_repack.py";
    "--old"; path_v3_obj; "--new"; path_new_obj;
    "--image"; texture; "--out"; path_final_tex; "--scale"; "1.0" ].

(** Step 4, or the warning in its place. *)
Definition repack_step : M unit :=
  match texture_abs with
  | Some t =>
      if truthy t
      then andthen (exists_now t) (fun there =>
             if there then run_command (cmd_4 t) "Texture Repack"
             else print "[Warning] No texture provided or file not found. Skipping repack.")
      else print "[Warning] No texture provided or file not found. Skipping repack."
  | None => print "[Warning] No texture provided or file not found. Skipping repack."
  end.

(** [pipeline] *)
Definition pipeline : M string :=
  andthen (exists_now output_dir) (fun there =>
  andthen (if there then ret tt
           else fun s =>
                  match makedirs output_dir (fst s) with
                  | (None, w') => (Returned tt, (w', snd s))
                  | (Some what, w') => (Raised (Propagated what), (w', snd s))
                  end) (fun _ =>
  andthen (run_command cmd_1 "Preprocess (Cut Body)") (fun _ =>
  andthen (run_command cmd_2 "Seam Extraction") (fun _ =>
  andthen (exists_now BLENDER_PATH) (fun blender =>
  if negb blender
  then raise (FileNotFoundError ("Blender executable not found at: " ++ BLENDER_PATH))
  else
    andthen (run_command cmd_3 "UV Unwrapping (Blender)") (fun _ =>
    andthen repack_step (fun _ =>
    andthen (print (String "010" "All Done! Results saved in: " ++ out_abs)) (fun _ =>
    ret path_final_tex)))))))).

End Commands.

End World.

(** ** Vocabulary of the statements about this module *)

(** The commands of a trace, in the order in which they were run. *)
Fixpoint calls (trace : list event) : list (list string * run_end) :=
  match trace with
  | [] => []
  | Print _ :: rest => calls rest
  | Call cmd ending :: rest => (cmd, ending) :: calls rest
  end.

(** Every command but the last one has ended with exit status 0. *)
Fixpoint only_last_may_fail (cs : list (list string * run_end)) : Prop :=
  match cs with
  | [] => True
  | (_, ending) :: rest =>
      match rest with
      | [] => True
      | _ :: _ => ending = Exit0 /\ only_last_may_fail rest
      end
  end.

(** Example world: a counter of the commands run so far; every command
    succeeds, directories can be made, and the only file that exists is
    the one named [here]. *)
Definition counting_run (cmd : list string) (n : nat) : run_end * nat := (Exit0, S n).

Definition only_file (here : string) (p : string) (n : nat) : bool := String.eqb p here.

Definition always_makedirs (p : string) (n : nat) : option string * nat := (None, n).

End Pipeline.

(* ================================================================== *)
(** * Properties of [scripts/preprocess.py] *)
(* ================================================================== *)

Section Alignment.

Import Preprocess.
Local Open Scope R_scope.

Lemma cross_target (a b c : R) :
  cross (a, b, c) target_axis = (b * 1 - c * 0, c * 0 - a * 1, a * 0 - b * 0).
Proof. reflexivity. Qed.

Lemma norm_cross_target (a b c : R) :
  norm3 (cross (a, b, c) target_axis) = sqrt (a * a + b * b).
Proof. unfold norm3, cross, target_axis, dot3. f_equal. ring. Qed.

Lemma clip_inside (x : R) : -1 <= x <= 1 -> clip x (-1) 1 = x.
Proof.
  intros [Hlo Hhi]. unfold clip.
  destruct (Rlt_dec x (-1)); [lra |]. destruct (Rlt_dec 1 x); [lra | reflexivity].
Qed.

(** The rotation about the normalised cross product by the arccosine
    of the dot product carries a unit axis onto Z. *)
Lemma rotation_maps_axis (a b c : R) :
  is_unit (a, b, c) ->
  align_tol < norm3 (cross (a, b, c) target_axis) ->
  exists rot, alignment_rotation (a, b, c) = Some rot /\
              mat_vec rot (a, b, c) = target_axis.
Proof.
  unfold is_unit. intros Hu Hn. simpl in Hu.
  unfold alignment_rotation. cbv zeta.
  destruct (Rlt_dec align_tol (norm3 (cross (a, b, c) target_axis))) as [_ | Hno];
    [| contradiction].
  eexists. split; [reflexivity |].
  rewrite norm_cross_target in *.
  set (n := sqrt (a * a + b * b)) in *.
  assert (Hnpos : 0 < n) by (unfold align_tol in Hn; lra).
  assert (Hnn : n * n = a * a + b * b) by (apply sqrt_sqrt; nra).
  assert (Hc : -1 <= c <= 1) by (split; nra).
  assert (Hdot : dot3 (a, b, c) target_axis = c) by (simpl; ring).
  rewrite Hdot, (clip_inside c Hc).
  unfold rotation_matrix. rewrite (cos_acos c Hc), (sin_acos c Hc).
  assert (Hs : sqrt (1 - c²) = n).
  { unfold n. f_equal. unfold Rsqr. lra. }
  rewrite Hs. rewrite cross_target.
  set (x := (b * 1 - c * 0) / n).
  set (y := (c * 0 - a * 1) / n).
  set (z := (a * 0 - b * 0) / n).
  change (div3 (b * 1 - c * 0, c * 0 - a * 1, a * 0 - b * 0) n) with (x, y, z).
  assert (Hx : x * n = b) by (unfold x; field; lra).
  assert (Hy : y * n = - a) by (unfold y; field; lra).
  assert (Hz : z = 0) by (unfold z; field; lra).
  assert (Hone : x * x + y * y = 1).
  { apply (Rmult_eq_reg_r (n * n)); [| nra].
    replace ((x * x + y * y) * (n * n)) with ((x * n) * (x * n) + (y * n) * (y * n)) by ring.
    rewrite Hx, Hy. lra. }
  assert (Hk : norm3 (x, y, z) = 1).
  { unfold norm3. simpl. rewrite Hz.
    replace (x * x + y * y + 0 * 0) with 1 by lra. apply sqrt_1. }
  rewrite Hk. unfold div3. rewrite Hz.
  assert (Hxy : x * a + y * b = 0).
  { apply (Rmult_eq_reg_r n); [| lra].
    replace ((x * a + y * b) * n) with ((x * n) * a + (y * n) * b) by ring.
    rewrite Hx, Hy. ring. }
  unfold mat_vec, target_axis. simpl.
  f_equal; [f_equal |].
  - replace ((c + x / 1 * (x / 1) * (1 - c)) * a
             + (x / 1 * (y / 1) * (1 - c) - 0 / 1 * n) * b
             + (x / 1 * (0 / 1) * (1 - c) + y / 1 * n) * c)
      with (c * a + (1 - c) * x * (x * a + y * b) + (y * n) * c) by field.
    rewrite Hxy, Hy. ring.
  - replace ((y / 1 * (x / 1) * (1 - c) + 0 / 1 * n) * a
             + (c + y / 1 * (y / 1) * (1 - c)) * b
             + (y / 1 * (0 / 1) * (1 - c) - x / 1 * n) * c)
      with (c * b + (1 - c) * y * (x * a + y * b) - (x * n) * c) by field.
    rewrite Hxy, Hx. ring.
  - replace ((0 / 1 * (x / 1) * (1 - c) - y / 1 * n) * a
             + (0 / 1 * (y / 1) * (1 - c) + x / 1 * n) * b
             + (c + 0 / 1 * (0 / 1) * (1 - c)) * c)
      with (- (y * n) * a + (x * n) * b + c * c) by field.
    rewrite Hx, Hy. lra.
Qed.

Lemma norm_cross_axis_itself : norm3 (cross target_axis target_axis) = 0.
Proof.
  unfold target_axis. rewrite norm_cross_target.
  replace (0 * 0 + 0 * 0) with 0 by ring. apply sqrt_0.
Qed.

(** C2, as the code has it.  For a unit principal axis [p]:
    when the cross product with Z is longer than [1e-6], the rotation
    about the normalised cross product by the arccosine of the clamped
    dot product is applied to every vertex, and it carries [p] onto Z;
    otherwise, and this includes [p] pointing opposite to Z, nothing is
    rotated.  In both cases the principal direction ends up parallel to
    the Z axis within the tolerance, with either sign. *)
Theorem alignment_sends_axis_to_z_line (p : vec3) (vertices : list vec3) :
  is_unit p ->
  (align_tol < norm3 (cross p target_axis) ->
   let rot := rotation_matrix
                (acos (clip (dot3 p target_axis) (-1) 1))
                (div3 (cross p target_axis) (norm3 (cross p target_axis))) in
   apply_alignment p vertices = map (mat_vec rot) vertices /\
   aligned_axis p = target_axis) /\
  (norm3 (cross p target_axis) <= align_tol ->
   apply_alignment p vertices = vertices /\ aligned_axis p = p) /\
  norm3 (cross (aligned_axis p) target_axis) <= align_tol.
Proof.
  intro Hu. destruct p as [[a b] c].
  assert (Hrot : align_tol < norm3 (cross (a, b, c) target_axis) ->
                 aligned_axis (a, b, c) = target_axis).
  { intro Hn. destruct (rotation_maps_axis a b c Hu Hn) as (rot & Hsome & Hmap).
    unfold aligned_axis. now rewrite Hsome. }
  assert (Hskip : norm3 (cross (a, b, c) target_axis) <= align_tol ->
                  alignment_rotation (a, b, c) = None).
  { intro Hn. unfold alignment_rotation. cbv zeta.
    destruct (Rlt_dec align_tol (norm3 (cross (a, b, c) target_axis))); [lra | reflexivity]. }
  split; [| split].
  - intros Hn rot. split; [| now apply Hrot].
    unfold apply_alignment, alignment_rotation. cbv zeta.
    destruct (Rlt_dec align_tol (norm3 (cross (a, b, c) target_axis)));
      [reflexivity | contradiction].
  - intro Hn. unfold apply_alignment, aligned_axis. now rewrite (Hskip Hn).
  - destruct (Rlt_dec align_tol (norm3 (cross (a, b, c) target_axis))) as [Hn | Hn].
    + rewrite (Hrot Hn), norm_cross_axis_itself. unfold align_tol. lra.
    + assert (Hle : norm3 (cross (a, b, c) target_axis) <= align_tol) by lra.
      unfold aligned_axis. now rewrite (Hskip Hle).
Qed.

Lemma x_axis_is_rotated : align_tol < norm3 (cross (1, 0, 0) target_axis).
Proof.
  rewrite norm_cross_target. replace (1 * 1 + 0 * 0) with 1 by ring.
  rewrite sqrt_1. unfold align_tol. lra.
Qed.

(** The theorem at the X axis, a quarter turn away from Z. *)
Lemma alignment_of_x_axis_witness :
  let p : vec3 := (1, 0, 0) in
  let rot := rotation_matrix
               (acos (clip (dot3 p target_axis) (-1) 1))
               (div3 (cross p target_axis) (norm3 (cross p target_axis))) in
  apply_alignment p [p; (0, 0, 1)] = map (mat_vec rot) [p; (0, 0, 1)] /\
  aligned_axis p = target_axis.
Proof.
  apply (proj1 (alignment_sends_axis_to_z_line (1, 0, 0) [(1, 0, 0); (0, 0, 1)]
                  ltac:(unfold is_unit; simpl; ring))).
  exact x_axis_is_rotated.
Defined.

(** C2 as stated fails: a unit principal axis pointing opposite to Z is
    left where it is, at distance 2 from the reference direction. *)
Lemma opposite_axis_not_rotated :
  let p : vec3 := (0, 0, -1) in
  is_unit p /\
  alignment_rotation p = None /\
  apply_alignment p [p] = [p] /\
  aligned_axis p = (0, 0, -1) /\
  norm3 (sub3 (aligned_axis p) target_axis) = 2 /\
  ~ norm3 (sub3 (aligned_axis p) target_axis) <= align_tol.
Proof.
  assert (Hnone : alignment_rotation (0, 0, -1) = None).
  { unfold alignment_rotation. cbv zeta. rewrite norm_cross_target.
    replace (0 * 0 + 0 * 0) with 0 by ring. rewrite sqrt_0.
    destruct (Rlt_dec align_tol 0) as [H | _]; [unfold align_tol in H; lra | reflexivity]. }
  cbv zeta. split; [unfold is_unit; simpl; ring |].
  split; [exact Hnone |].
  unfold apply_alignment, aligned_axis. rewrite Hnone.
  assert (Hdist : norm3 (sub3 (0, 0, -1) target_axis) = 2).
  { unfold norm3, sub3, target_axis, dot3.
    replace ((0 - 0) * (0 - 0) + (0 - 0) * (0 - 0) + (-1 - 1) * (-1 - 1))
      with (2 * 2) by ring.
    apply sqrt_square. lra. }
  split; [reflexivity |]. split; [reflexivity |]. split; [exact Hdist |].
  rewrite Hdist. unfold align_tol. lra.
Qed.

End Alignment.

Section RadiusProfile.

Import Preprocess.
Local Open Scope Q_scope.

Variable planar_radius : vertex -> Q.

Lemma profile_loop_snoc (radii : list Q) (bin_indices : list nat) (range : list nat) (i : nat) :
  forall acc,
    profile_loop radii bin_indices (range ++ [i]) acc =
    profile_loop radii bin_indices range acc
      ++ [layer_radius radii bin_indices (profile_loop radii bin_indices range acc) i].
Proof.
  induction range as [| j range IH]; intro acc; simpl; [reflexivity | apply IH].
Qed.

Lemma last_as_nth (l : list Q) :
  last l 0 = match List.length l with
             | O => 0
             | S k => nth k l 0
             end.
Proof.
  induction l as [| x l IH]; [reflexivity |].
  destruct l as [| y l]; [reflexivity |].
  change (last (x :: y :: l) 0) with (last (y :: l) 0). rewrite IH. reflexivity.
Qed.

(** The profile over the first [n] bins: one entry per bin, each the
    percentile of its layer or the carry-over of the previous entry. *)
Lemma profile_loop_entries (radii : list Q) (bin_indices : list nat) (n : nat) :
  let profile := profile_loop radii bin_indices (seq 1 n) [] in
  List.length profile = n /\
  forall k, (k < n)%nat -> nth k profile 0 = profile_entry radii bin_indices profile k.
Proof.
  induction n as [| n [IHlen IHnth]]; cbv zeta.
  - split; [reflexivity | intros k Hk; lia].
  - rewrite seq_S, profile_loop_snoc.
    set (p := profile_loop radii bin_indices (seq 1 n) []) in *.
    split; [rewrite length_app, IHlen; simpl; lia |].
    intros k Hk. unfold profile_entry.
    destruct (Nat.eq_dec k n) as [-> | Hne].
    + rewrite app_nth2 by lia. rewrite IHlen, Nat.sub_diag. simpl nth at 1.
      unfold layer_radius. replace (n + 1)%nat with (S n) by lia.
      change (1 + n)%nat with (S n).
      destruct (layer radii bin_indices (S n)) as [| r rs]; [| reflexivity].
      rewrite last_as_nth, IHlen. destruct n as [| n']; [reflexivity |].
      rewrite app_nth1 by lia. reflexivity.
    + rewrite app_nth1 by lia. rewrite IHnth by lia. unfold profile_entry.
      destruct (layer radii bin_indices (k + 1)) as [| r rs]; [| reflexivity].
      destruct k as [| k']; [reflexivity |]. rewrite app_nth1 by lia. reflexivity.
Qed.

End RadiusProfile.

Section RadiusProfileExample.

Import Preprocess.
Local Open Scope Q_scope.

(** Four bins over the height range 0..1: bin 1 holds two vertices,
    bins 2 and 3 are empty and carry 3.8 forward, bin 4 holds one
    vertex; the vertex at the very top falls past the last bin. *)
Example four_vertices_profile :
  radius_profile axis_radius four_vertices 4 = Done [3.8; 3.8; 3.8; 6.0].
Proof. vm_compute. reflexivity. Qed.

End RadiusProfileExample.

Section SegmentSelection.

Import Preprocess.
Local Open Scope Q_scope.

Variable pow03 : Q -> Q.

Lemma group_stable_none (is_stable : list bool) :
  (forall b, In b is_stable -> b = false) ->
  forall i segments, group_stable i is_stable segments [] = segments.
Proof.
  induction is_stable as [| b rest IH]; intros Hall i segments; simpl; [reflexivity |].
  rewrite (Hall b (or_introl eq_refl)). apply IH.
  intros b' Hb'. apply Hall. now right.
Qed.

Lemma group_stable_some (is_stable : list bool) :
  forall i segments current,
    segments <> [] \/ current <> [] \/ In true is_stable ->
    group_stable i is_stable segments current <> [].
Proof.
  induction is_stable as [| b rest IH]; intros i segments current H; simpl.
  - destruct current as [| c cs].
    + destruct H as [H | [H | []]]; [exact H | contradiction].
    + intro E. apply app_eq_nil in E. destruct E as [_ E]. discriminate.
  - destruct b.
    + apply IH. right. left. intro E. apply app_eq_nil in E. destruct E as [_ E].
      discriminate.
    + destruct current as [| c cs].
      * apply IH. destruct H as [H | [H | [H | H]]];
          [now left | contradiction | discriminate | now right; right].
      * apply IH. left. intro E. apply app_eq_nil in E. destruct E as [_ E]. discriminate.
Qed.

(** Ranking only segments that are too short changes nothing. *)
Lemma rank_all_too_short (bins : nat) (profile_smooth bin_centers : list Q)
      (segments : list (list nat)) :
  (forall seg, In seg segments -> too_short (List.length seg) bins = true) ->
  forall st,
    fold_left (rank_step pow03 bins profile_smooth bin_centers) segments st = st.
Proof.
  induction segments as [| seg rest IH]; intros Hall st; simpl; [reflexivity |].
  rewrite IH by (intros s Hs; apply Hall; now right).
  unfold rank_step. destruct st as [[out best_score] best_segment].
  now rewrite (Hall seg (or_introl eq_refl)).
Qed.

Lemma middle_half_range (bins : nat) :
  (2 <= bins)%nat ->
  middle_half bins <> [] /\
  forall i, In i (middle_half bins) <-> (bins / 4 <= i < 3 * bins / 4)%nat.
Proof.
  intro Hb. unfold middle_half.
  assert (Hlt : (bins / 4 < 3 * bins / 4)%nat).
  { pose proof (Nat.div_mod_eq bins 4) as E1.
    pose proof (Nat.mod_upper_bound bins 4 ltac:(lia)) as B1.
    pose proof (Nat.div_mod_eq (3 * bins) 4) as E2.
    pose proof (Nat.mod_upper_bound (3 * bins) 4 ltac:(lia)) as B2.
    lia. }
  split.
  - destruct (3 * bins / 4 - bins / 4)%nat as [| k] eqn:E; [lia | discriminate].
  - intro i. rewrite in_seq. lia.
Qed.

(** C1, as the code has it.  With no stable bin at all (and at least
    the two bins the gradient needs) the selection prints the warning
    and takes the middle half of the bins, [bins/4 <= i < 3*bins/4].
    With stable bins whose runs are all shorter than 5% of the bin
    count nothing is ranked and the stage ends in the fatal exit
    "Error: No valid body segment found.". *)
Theorem selection_without_eligible_segment
        (bins : nat) (profile_smooth bin_centers : list Q) (is_stable : list bool) :
  ((2 <= bins)%nat ->
   (forall b, In b is_stable -> b = false) ->
   select_segment pow03 bins profile_smooth bin_centers (stable_segments is_stable)
     = ([WarnNoStable], Done (middle_half bins)) /\
   forall i, In i (middle_half bins) <-> (bins / 4 <= i < 3 * bins / 4)%nat) /\
  (In true is_stable ->
   none_eligible bins is_stable ->
   select_segment pow03 bins profile_smooth bin_centers (stable_segments is_stable)
     = ([Detected (List.length (stable_segments is_stable))], SysExit no_body_message)).
Proof.
  split.
  - intros Hb Hall. destruct (middle_half_range bins Hb) as [Hne Hin].
    split; [| exact Hin].
    unfold stable_segments. rewrite group_stable_none by exact Hall.
    unfold select_segment. destruct (middle_half bins) as [| i rest]; [contradiction |].
    reflexivity.
  - intros Hsome Hshort.
    assert (Hne : stable_segments is_stable <> []).
    { unfold stable_segments. apply group_stable_some. now right; right. }
    unfold select_segment.
    destruct (stable_segments is_stable) as [| seg rest] eqn:E; [contradiction |].
    rewrite rank_all_too_short; [reflexivity |].
    intros s Hs. apply Hshort. rewrite E. exact Hs.
Qed.

End SegmentSelection.

Section SegmentSelectionExamples.

Import Preprocess.
Local Open Scope Q_scope.

Example one_stable_bin_segments : stable_segments one_stable_bin = [[0%nat]].
Proof. vm_compute. reflexivity. Qed.

Lemma one_stable_bin_none_eligible : none_eligible 300 one_stable_bin.
Proof.
  intros seg Hin. rewrite one_stable_bin_segments in Hin.
  destruct Hin as [<- | []]. vm_compute. reflexivity.
Qed.

(** C1 as stated fails: with the default 300 bins and a single stable
    bin, no segment is eligible for ranking, and the stage exits instead
    of falling back to the middle half. *)
Lemma short_segments_exit_without_fallback :
  none_eligible 300 one_stable_bin /\
  select_segment (fun r => r) 300 (repeat 1 300) (repeat 0 300)
                 (stable_segments one_stable_bin)
    = ([Detected 1], SysExit no_body_message) /\
  snd (select_segment (fun r => r) 300 (repeat 1 300) (repeat 0 300)
                      (stable_segments one_stable_bin))
    <> Done (middle_half 300).
Proof.
  split; [exact one_stable_bin_none_eligible |].
  split; [vm_compute; reflexivity |].
  vm_compute. discriminate.
Qed.

(** The theorem on a profile without any stable bin, and on the profile
    with one stable bin. *)
Lemma selection_fallback_witness :
  (select_segment (fun r => r) 300 (repeat 1 300) (repeat 0 300)
                  (stable_segments (repeat false 300))
     = ([WarnNoStable], Done (middle_half 300)) /\
   forall i, In i (middle_half 300) <-> (300 / 4 <= i < 3 * 300 / 4)%nat) /\
  select_segment (fun r => r) 300 (repeat 1 300) (repeat 0 300)
                 (stable_segments one_stable_bin)
    = ([Detected (List.length (stable_segments one_stable_bin))],
       SysExit no_body_message).
Proof.
  split.
  - apply (proj1 (selection_without_eligible_segment
                    (fun r => r) 300 (repeat 1 300) (repeat 0 300) (repeat false 300))).
    + lia.
    + intros b Hb. apply repeat_spec in Hb. exact Hb.
  - apply (proj2 (selection_without_eligible_segment
                    (fun r => r) 300 (repeat 1 300) (repeat 0 300) one_stable_bin)).
    + left. reflexivity.
    + exact one_stable_bin_none_eligible.
Defined.

Example fallback_on_unstable_profile :
  select_segment (fun r => r) 300 (repeat 1 300) (repeat 0 300)
                 (stable_segments (repeat false 300))
    = ([WarnNoStable], Done (seq 75 150)).
Proof. vm_compute. reflexivity. Qed.

End SegmentSelectionExamples.

(* ================================================================== *)
(** * Properties of [scripts/seam_extract.py] *)
(* ================================================================== *)

Section BoundaryGroups.

Import SeamExtract.
Local Open Scope Q_scope.

Lemma qltb_lt (a b : Q) : qltb a b = true <-> a < b.
Proof.
  unfold qltb. rewrite negb_true_iff. split.
  - intro H. apply Qnot_le_lt. intro Hle. apply Qle_bool_iff in Hle. congruence.
  - intro H. destruct (Qle_bool b a) eqn:E; [| reflexivity].
    apply Qle_bool_iff in E. exfalso. exact (Qlt_not_le _ _ H E).
Qed.

Lemma in_top_indices (m : mesh) (v : nat) :
  In v (top_indices m) <-> In v (boundary_indices m) /\ z_mean m < vz (vertex_at m v).
Proof. unfold top_indices. now rewrite filter_In, qltb_lt. Qed.

Lemma in_bottom_indices (m : mesh) (v : nat) :
  In v (bottom_indices m) <-> In v (boundary_indices m) /\ vz (vertex_at m v) < z_mean m.
Proof. unfold bottom_indices. now rewrite filter_In, qltb_lt. Qed.

(** C4, as the code has it.  A boundary vertex is in the top group
    exactly when its height is above the mean and in the bottom group
    exactly when it is below; it is never in both, and it is in
    neither exactly when its height equals the mean. *)
Theorem boundary_vertex_grouping (m : mesh) (v : nat) :
  In v (boundary_indices m) ->
  (In v (top_indices m) <-> z_mean m < vz (vertex_at m v)) /\
  (In v (bottom_indices m) <-> vz (vertex_at m v) < z_mean m) /\
  ~ (In v (top_indices m) /\ In v (bottom_indices m)) /\
  (~ In v (top_indices m) /\ ~ In v (bottom_indices m)
   <-> vz (vertex_at m v) == z_mean m).
Proof.
  intro Hb. rewrite in_top_indices, in_bottom_indices.
  set (z := vz (vertex_at m v)). set (mu := z_mean m).
  split; [tauto |]. split; [tauto |]. split.
  - intros [[_ H1] [_ H2]]. lra.
  - split.
    + intros [Ht Hbot].
      destruct (Q_dec z mu) as [[Hlt | Hgt] | Heq]; [| | exact Heq].
      * exfalso. apply Hbot. now split.
      * exfalso. apply Ht. now split.
    + intro Heq. split; intros [_ H]; lra.
Qed.

Lemma boundary_vertex_grouping_witness :
  (In 2%nat (top_indices strip) <-> z_mean strip < vz (vertex_at strip 2)) /\
  (In 2%nat (bottom_indices strip) <-> vz (vertex_at strip 2) < z_mean strip) /\
  ~ (In 2%nat (top_indices strip) /\ In 2%nat (bottom_indices strip)) /\
  (~ In 2%nat (top_indices strip) /\ ~ In 2%nat (bottom_indices strip)
   <-> vz (vertex_at strip 2) == z_mean strip).
Proof.
  apply (boundary_vertex_grouping strip 2).
  vm_compute. tauto.
Defined.

(** C4 as stated fails: in the lone triangle, with boundary heights 0, 1
    and 2, vertex 1 sits exactly at the mean and lands in neither
    group. *)
Lemma vertex_at_mean_in_neither_group :
  boundary_indices lone_triangle = [0; 1; 2]%nat /\
  top_indices lone_triangle = [2%nat] /\
  bottom_indices lone_triangle = [0%nat] /\
  In 1%nat (boundary_indices lone_triangle) /\
  ~ In 1%nat (top_indices lone_triangle) /\
  ~ In 1%nat (bottom_indices lone_triangle).
Proof.
  repeat split; try (vm_compute; reflexivity).
  - vm_compute. tauto.
  - vm_compute. intros [H | []]. discriminate.
  - vm_compute. intros [H | []]. discriminate.
Qed.

End BoundaryGroups.

Section LevelSearch.

Import SeamExtract.

Variable nbrs : nat -> list nat.

Lemma mem_In (v : nat) (l : list nat) : mem v l = true <-> In v l.
Proof.
  unfold mem. rewrite existsb_exists. split.
  - intros (x & Hx & E). apply Nat.eqb_eq in E. now subst.
  - intro H. exists v. split; [exact H | apply Nat.eqb_refl].
Qed.

Lemma reach_S (s k v : nat) :
  In v (reach nbrs s (S k)) <->
  In v (reach nbrs s k) \/ exists u, In u (reach nbrs s k) /\ In v (nbrs u).
Proof.
  simpl. rewrite nodup_In, in_app_iff, in_flat_map. tauto.
Qed.

Lemma reach_mono (s v : nat) :
  forall i j, (i <= j)%nat -> In v (reach nbrs s i) -> In v (reach nbrs s j).
Proof.
  intros i j Hij Hv. induction Hij as [| j _ IH]; [exact Hv |].
  apply reach_S. now left.
Qed.

Lemma linked_snoc (l : list nat) (v d : nat) :
  l <> [] ->
  linked (adjacent_in nbrs) (l ++ [v]) = linked (adjacent_in nbrs) l && adjacent_in nbrs (last l d) v.
Proof.
  induction l as [| a l IH]; intro Hne; [contradiction |].
  destruct l as [| b l].
  - simpl. now rewrite andb_true_r.
  - change (linked (adjacent_in nbrs) ((a :: b :: l) ++ [v]))
      with (adjacent_in nbrs a b && linked (adjacent_in nbrs) ((b :: l) ++ [v])).
    rewrite IH by discriminate.
    change (linked (adjacent_in nbrs) (a :: b :: l)) with (adjacent_in nbrs a b && linked (adjacent_in nbrs) (b :: l)).
    change (last (a :: b :: l) d) with (last (b :: l) d).
    now rewrite andb_assoc.
Qed.

Lemma walk_snoc (s u v : nat) (l : list nat) :
  walk (adjacent_in nbrs) s u l -> adjacent_in nbrs u v = true -> walk (adjacent_in nbrs) s v (l ++ [v]).
Proof.
  intros (Hhd & Hlast & Hlink) Huv.
  destruct l as [| a l]; [discriminate |].
  repeat split.
  - exact Hhd.
  - apply last_last.
  - rewrite (linked_snoc _ v s) by discriminate. now rewrite Hlink, Hlast, Huv.
Qed.

Lemma walk_single (s : nat) : walk (adjacent_in nbrs) s s [s].
Proof. repeat split. Qed.

(** A vertex reached within [k] edges is joined to the source by the
    walk read back from the levels, which has at most [k] edges. *)
Lemma path_back_walk (s : nat) :
  forall k v,
    In v (reach nbrs s k) ->
    walk (adjacent_in nbrs) s v (rev (path_back nbrs s k v)) /\
    (List.length (path_back nbrs s k v) <= S k)%nat.
Proof.
  induction k as [| k IH]; intros v Hv.
  - simpl in Hv. destruct Hv as [<- | []]. split; [apply walk_single | simpl; lia].
  - simpl path_back. destruct (mem v (reach nbrs s k)) eqn:Hold.
    + apply mem_In in Hold. destruct (IH v Hold) as [Hw Hlen]. split; [exact Hw | lia].
    + destruct (find (fun u => mem v (nbrs u)) (reach nbrs s k)) as [u |] eqn:Hfind.
      * apply find_some in Hfind. destruct Hfind as [Hu Huv].
        destruct (IH u Hu) as [Hw Hlen]. split.
        -- simpl rev. now apply (walk_snoc s u v).
        -- simpl. lia.
      * exfalso. apply reach_S in Hv. destruct Hv as [Hv | (u & Hu & Huv)].
        -- apply mem_In in Hv. congruence.
        -- pose proof (find_none _ _ Hfind u Hu) as Hn. simpl in Hn.
           apply mem_In in Huv. congruence.
Qed.

(** The end of a walk of [n] edges from the source is reached within
    [n] levels. *)
Lemma walk_reach (s : nat) (l : list nat) :
  forall v, walk (adjacent_in nbrs) s v l -> In v (reach nbrs s (List.length l - 1)).
Proof.
  induction l as [| x l IH] using rev_ind; intros v (Hhd & Hlast & Hlink).
  - discriminate.
  - rewrite last_last in Hlast. subst x.
    destruct l as [| a l].
    + simpl in Hhd. inversion Hhd; subst. simpl. now left.
    + rewrite (linked_snoc _ v s) in Hlink by discriminate.
      apply andb_prop in Hlink. destruct Hlink as [Hlink Huv].
      assert (Hw : walk (adjacent_in nbrs) s (last (a :: l) s) (a :: l)) by (repeat split; assumption).
      apply IH in Hw. rewrite length_app. simpl List.length.
      replace (S (List.length l) + 1 - 1)%nat with (S (S (List.length l) - 1)) by lia.
      apply reach_S. right. exists (last (a :: l) s). split; [exact Hw |].
      now apply mem_In.
Qed.

Lemma first_level_spec (s t : nat) :
  forall fuel k j,
    first_level nbrs s t fuel k = Some j ->
    (k <= j)%nat /\ In t (reach nbrs s j) /\
    forall i, (k <= i < j)%nat -> ~ In t (reach nbrs s i).
Proof.
  induction fuel as [| fuel IH]; intros k j H; simpl in H; [discriminate |].
  destruct (mem t (reach nbrs s k)) eqn:Hk.
  - inversion H; subst. apply mem_In in Hk. repeat split; [lia | exact Hk | intros i Hi; lia].
  - apply IH in H. destruct H as (Hle & Hin & Hmin).
    repeat split; [lia | exact Hin |].
    intros i Hi Hti. destruct (Nat.eq_dec i k) as [-> | Hne].
    + apply mem_In in Hti. congruence.
    + apply (Hmin i); [lia | exact Hti].
Qed.

(** The search returns a walk from source to target, and no walk
    between them is shorter. *)
Lemma shortest_path_shortest (n_nodes s t : nat) (p : list nat) :
  shortest_path nbrs n_nodes s t = Some p ->
  walk (adjacent_in nbrs) s t p /\
  forall w, walk (adjacent_in nbrs) s t w -> (List.length p <= List.length w)%nat.
Proof.
  unfold shortest_path. intro H.
  destruct (first_level nbrs s t (S n_nodes) 0) as [k |] eqn:Hk; [| discriminate].
  inversion H; subst p. clear H.
  apply first_level_spec in Hk. destruct Hk as (_ & Hin & Hmin).
  destruct (path_back_walk s k t Hin) as [Hw Hlen].
  split; [exact Hw |].
  intros w Hwalk. rewrite length_rev.
  pose proof (walk_reach s w t Hwalk) as Hr.
  destruct w as [| a w]; [destruct Hwalk as [E _]; discriminate |].
  simpl in Hr. rewrite Nat.sub_0_r in Hr. simpl List.length.
  destruct (Nat.lt_ge_cases (List.length w) k) as [Hlt | Hge]; [| lia].
  exfalso. apply (Hmin (List.length w)); [lia | exact Hr].
Qed.

End LevelSearch.

Section LevelSearchComplete.

Import SeamExtract.

Variable nbrs : nat -> list nat.

(** A finite set of vertices that contains the source and is closed
    under taking neighbours. *)
Variable universe : list nat.
Variable s : nat.
Hypothesis source_in_universe : In s universe.
Hypothesis neighbours_in_universe :
  forall u v, In u universe -> In v (nbrs u) -> In v universe.

Lemma reach_NoDup (k : nat) : NoDup (reach nbrs s k).
Proof.
  destruct k as [| k]; simpl.
  - constructor; [intros [] | constructor].
  - apply NoDup_nodup.
Qed.

Lemma reach_in_universe (k : nat) : incl (reach nbrs s k) universe.
Proof.
  induction k as [| k IH]; intros v Hv.
  - simpl in Hv. destruct Hv as [<- | []]. exact source_in_universe.
  - apply reach_S in Hv. destruct Hv as [Hv | (u & Hu & Huv)].
    + now apply IH.
    + apply (neighbours_in_universe u v); [now apply IH | exact Huv].
Qed.

Lemma reach_length_bound (k : nat) :
  (List.length (reach nbrs s k) <= List.length universe)%nat.
Proof. apply NoDup_incl_length; [apply reach_NoDup | apply reach_in_universe]. Qed.

(** Once a level adds no vertex, no later level does. *)
Lemma reach_stable (k : nat) :
  incl (reach nbrs s (S k)) (reach nbrs s k) ->
  forall j, incl (reach nbrs s (k + j)) (reach nbrs s k).
Proof.
  intros Hst j. induction j as [| j IH]; intros v Hv.
  - now rewrite Nat.add_0_r in Hv.
  - replace (k + S j)%nat with (S (k + j)) in Hv by lia.
    apply reach_S in Hv. destruct Hv as [Hv | (u & Hu & Huv)].
    + now apply IH.
    + apply Hst. apply reach_S. right. exists u. split; [now apply IH | exact Huv].
Qed.

Lemma level_stable_or_grows (k : nat) :
  incl (reach nbrs s (S k)) (reach nbrs s k) \/
  (List.length (reach nbrs s k) < List.length (reach nbrs s (S k)))%nat.
Proof.
  destruct (forallb (fun v => mem v (reach nbrs s k)) (reach nbrs s (S k))) eqn:E.
  - left. intros v Hv. rewrite forallb_forall in E. apply mem_In. now apply E.
  - right.
    assert (Hx : exists x, In x (reach nbrs s (S k)) /\ ~ In x (reach nbrs s k)).
    { clear -E. induction (reach nbrs s (S k)) as [| a l IH]; [discriminate |].
      simpl in E. apply andb_false_iff in E. destruct E as [E | E].
      - exists a. split; [now left |]. intro H. apply mem_In in H. congruence.
      - destruct (IH E) as (x & Hx & Hnx). exists x. split; [now right | exact Hnx]. }
    destruct Hx as (x & Hx & Hnx).
    assert (Hle : (List.length (x :: reach nbrs s k) <= List.length (reach nbrs s (S k)))%nat).
    { apply NoDup_incl_length.
      - constructor; [exact Hnx | apply reach_NoDup].
      - intros v [<- | Hv]; [exact Hx | apply reach_S; now left]. }
    change (List.length (x :: reach nbrs s k))
      with (S (List.length (reach nbrs s k))) in Hle.
    lia.
Qed.

(** A reachable vertex that level [k] has not reached forces level [k]
    to hold more than [k] vertices. *)
Lemma unreached_levels_grow (t L : nat) :
  In t (reach nbrs s L) ->
  forall k, ~ In t (reach nbrs s k) -> (k < List.length (reach nbrs s k))%nat.
Proof.
  intros HL. induction k as [| k IH]; intro Hk.
  - simpl. lia.
  - assert (Hk' : ~ In t (reach nbrs s k)).
    { intro H. apply Hk. apply reach_S. now left. }
    specialize (IH Hk').
    destruct (level_stable_or_grows k) as [Hst | Hgrow]; [| lia].
    exfalso. apply Hk'.
    destruct (Nat.le_gt_cases L k) as [Hle | Hgt].
    + now apply (reach_mono nbrs s t L k).
    + apply (reach_stable k Hst (L - k)). now replace (k + (L - k))%nat with L by lia.
Qed.

Lemma reachable_within_universe (t L : nat) :
  In t (reach nbrs s L) -> In t (reach nbrs s (List.length universe)).
Proof.
  intro HL. destruct (mem t (reach nbrs s (List.length universe))) eqn:E.
  - now apply mem_In.
  - exfalso.
    assert (Hn : ~ In t (reach nbrs s (List.length universe))).
    { intro H. apply mem_In in H. congruence. }
    pose proof (unreached_levels_grow t L HL _ Hn).
    pose proof (reach_length_bound (List.length universe)). lia.
Qed.

Lemma first_level_finds (t : nat) :
  forall fuel k j,
    (k <= j < k + fuel)%nat -> In t (reach nbrs s j) ->
    first_level nbrs s t fuel k <> None.
Proof.
  induction fuel as [| fuel IH]; intros k j Hj Hin; [lia |].
  simpl. destruct (mem t (reach nbrs s k)) eqn:E; [discriminate |].
  apply (IH (S k) j); [| exact Hin].
  destruct (Nat.eq_dec j k) as [-> | Hne]; [| lia].
  apply mem_In in Hin. congruence.
Qed.

(** The search fails only when no walk joins source and target. *)
Lemma shortest_path_none (t : nat) :
  shortest_path nbrs (List.length universe) s t = None ->
  forall w, ~ walk (adjacent_in nbrs) s t w.
Proof.
  unfold shortest_path. intros H w Hw.
  apply walk_reach in Hw. apply reachable_within_universe in Hw.
  destruct (first_level nbrs s t (S (List.length universe)) 0) eqn:E; [discriminate |].
  revert E. apply (first_level_finds t _ 0 (List.length universe)); [lia | exact Hw].
Qed.

End LevelSearchComplete.

Section SeamPath.

Import SeamExtract.
Local Open Scope Q_scope.

Lemma argmin_from_bound (l : list Q) :
  forall best_i best i,
    (best_i < i)%nat ->
    (argmin_from best_i best i l < i + List.length l)%nat.
Proof.
  induction l as [| x r IH]; intros best_i best i Hlt; simpl.
  - lia.
  - destruct (qltb x best).
    + specialize (IH i x (S i) ltac:(lia)). lia.
    + specialize (IH best_i best (S i) ltac:(lia)). lia.
Qed.

Lemma argmin_bound (l : list Q) : l <> [] -> (argmin l < List.length l)%nat.
Proof.
  destruct l as [| x r]; [contradiction |]. intros _. unfold argmin.
  pose proof (argmin_from_bound r 0 x 1 ltac:(lia)). simpl. lia.
Qed.

Lemma start_in_top (m : mesh) : top_indices m <> [] -> In (start_idx m) (top_indices m).
Proof.
  intro Hne. unfold start_idx. apply nth_In.
  rewrite <- (length_map (fun i => vx (vertex_at m i))).
  apply argmin_bound. destruct (top_indices m); [contradiction | discriminate].
Qed.

Lemma end_in_bottom (m : mesh) :
  bottom_indices m <> [] -> In (end_idx m) (bottom_indices m).
Proof.
  intro Hne. unfold end_idx. apply nth_In.
  rewrite <- (length_map (fun i => dist2 (vertex_at m i) (vertex_at m (start_idx m)))).
  apply argmin_bound. destruct (bottom_indices m); [contradiction | discriminate].
Qed.

Lemma last_any_default (l : list nat) (d d' : nat) : l <> [] -> last l d = last l d'.
Proof.
  induction l as [| a l IH]; intro Hne; [contradiction |].
  destruct l as [| b l]; [reflexivity |].
  change (last (a :: b :: l) d) with (last (b :: l) d).
  change (last (a :: b :: l) d') with (last (b :: l) d').
  apply IH. discriminate.
Qed.

Lemma linked_steps (adj : nat -> nat -> bool) (l : list nat) :
  linked adj l = true ->
  forall i, (S i < List.length l)%nat -> adj (nth i l O) (nth (S i) l O) = true.
Proof.
  induction l as [| a l IH]; intros Hl i Hi; [simpl in Hi; lia |].
  destruct l as [| b l]; [simpl in Hi; lia |].
  change (linked adj (a :: b :: l)) with (adj a b && linked adj (b :: l)) in Hl.
  apply andb_prop in Hl. destruct Hl as [Hab Hl].
  destruct i as [| i]; [exact Hab |].
  change (nth (S i) (a :: b :: l) O) with (nth i (b :: l) O).
  change (nth (S (S i)) (a :: b :: l) O) with (nth (S i) (b :: l) O).
  apply IH; [exact Hl | simpl in *; lia].
Qed.

Lemma insert_unique_In (x v : nat) (l : list nat) :
  In v (insert_unique x l) <-> v = x \/ In v l.
Proof.
  induction l as [| y r IH]; simpl.
  - intuition.
  - destruct (Nat.ltb x y); [simpl; intuition |].
    destruct (Nat.eqb_spec x y) as [-> | Hne]; simpl; [intuition |].
    rewrite IH. intuition.
Qed.

Lemma np_unique_In (v : nat) (l : list nat) : In v (np_unique l) <-> In v l.
Proof.
  induction l as [| x l IH]; simpl; [tauto |].
  rewrite insert_unique_In, IH. intuition.
Qed.

Lemma neighbors_in_nodes (m : mesh) (u v : nat) :
  In v (neighbors m u) -> In v (nodes m).
Proof.
  unfold neighbors, nodes, endpoints. rewrite np_unique_In, !in_flat_map.
  intros (e & He & Hv). exists e. split; [exact He |].
  apply in_app_iff in Hv. simpl.
  destruct Hv as [Hv | Hv].
  - destruct (Nat.eqb (fst e) u); [| contradiction]. destruct Hv as [<- | []]. tauto.
  - destruct (Nat.eqb (snd e) u); [| contradiction]. destruct Hv as [<- | []]. tauto.
Qed.

Lemma boundary_in_nodes (m : mesh) (v : nat) :
  In v (boundary_indices m) -> In v (nodes m).
Proof.
  unfold boundary_indices, nodes, endpoints, unique_edges.
  rewrite !np_unique_In, !in_flat_map.
  intros (e & He & Hv). exists e. split; [| exact Hv].
  apply filter_In in He. tauto.
Qed.

(** [NoPath] is reported only when the graph has no walk at all from
    the start vertex to the end vertex. *)
Lemma no_path_is_genuine (m : mesh) :
  extract_seam m = NoPath ->
  forall w, ~ walk (adjacent m) (start_idx m) (end_idx m) w.
Proof.
  unfold extract_seam. intro H.
  destruct (boundary_indices m) as [| b0 bs] eqn:Hb; [discriminate |].
  destruct (top_indices m) as [| t0 ts] eqn:Ht; [discriminate |].
  destruct (bottom_indices m) as [| u0 us] eqn:Hu; [discriminate |].
  destruct (shortest_path (neighbors m) (List.length (nodes m)) (start_idx m) (end_idx m))
    as [p |] eqn:Hsp; [discriminate |].
  apply (shortest_path_none (neighbors m) (nodes m) (start_idx m)); [| | exact Hsp].
  - apply boundary_in_nodes.
    assert (Hstart : In (start_idx m) (top_indices m))
      by (apply start_in_top; rewrite Ht; discriminate).
    apply in_top_indices in Hstart. tauto.
  - intros u v _ Huv. now apply (neighbors_in_nodes m u).
Qed.

(** C5.  When [extract_seam] returns a path, the path starts at the
    chosen start vertex, which is in the top group, ends at the chosen
    end vertex, which is in the bottom group, every two consecutive
    vertices are adjacent in the vertex-adjacency graph, it has at least
    two vertices, and no walk of the graph from start to end has fewer
    vertices. *)
Theorem seam_path_is_shortest_top_to_bottom (m : mesh) (path : list nat) :
  extract_seam m = Seam path ->
  hd_error path = Some (start_idx m) /\
  In (start_idx m) (top_indices m) /\
  last path O = end_idx m /\
  In (end_idx m) (bottom_indices m) /\
  (forall i, (S i < List.length path)%nat ->
             adjacent m (nth i path O) (nth (S i) path O) = true) /\
  (2 <= List.length path)%nat /\
  (forall w, walk (adjacent m) (start_idx m) (end_idx m) w ->
             (List.length path <= List.length w)%nat).
Proof.
  unfold extract_seam. intro H.
  destruct (boundary_indices m) as [| b0 bs] eqn:Hb; [discriminate |].
  destruct (top_indices m) as [| t0 ts] eqn:Ht; [discriminate |].
  destruct (bottom_indices m) as [| u0 us] eqn:Hu; [discriminate |].
  destruct (shortest_path (neighbors m) (List.length (nodes m)) (start_idx m) (end_idx m))
    as [p |] eqn:Hsp; [| discriminate].
  inversion H; subst p. clear H.
  apply shortest_path_shortest in Hsp.
  destruct Hsp as [(Hhd & Hlast & Hlink) Hmin].
  assert (Hstart : In (start_idx m) (top_indices m))
    by (apply start_in_top; rewrite Ht; discriminate).
  assert (Hend : In (end_idx m) (bottom_indices m))
    by (apply end_in_bottom; rewrite Hu; discriminate).
  assert (Hneq : start_idx m <> end_idx m).
  { intro E. apply in_top_indices in Hstart. apply in_bottom_indices in Hend.
    rewrite <- E in Hend. destruct Hstart as [_ H1]. destruct Hend as [_ H2]. lra. }
  assert (Hlast0 : last path O = end_idx m).
  { destruct path as [| a r]; [discriminate |].
    rewrite <- Hlast. apply last_any_default. discriminate. }
  rewrite <- Ht, <- Hu.
  split; [exact Hhd |]. split; [exact Hstart |]. split; [exact Hlast0 |].
  split; [exact Hend |]. split; [| split].
  - intros i Hi. unfold adjacent. now apply (linked_steps _ path Hlink).
  - destruct path as [| a [| b r]]; [discriminate | | simpl; lia].
    simpl in Hhd, Hlast0. inversion Hhd. congruence.
  - exact Hmin.
Qed.

Example strip_seam : extract_seam strip = Seam [2; 0]%nat.
Proof. vm_compute. reflexivity. Qed.

Lemma seam_path_strip_witness :
  hd_error [2; 0]%nat = Some (start_idx strip) /\
  In (start_idx strip) (top_indices strip) /\
  last [2; 0]%nat O = end_idx strip /\
  In (end_idx strip) (bottom_indices strip) /\
  (forall i, (S i < List.length [2; 0]%nat)%nat ->
             adjacent strip (nth i [2; 0]%nat O) (nth (S i) [2; 0]%nat O) = true) /\
  (2 <= List.length [2; 0]%nat)%nat /\
  (forall w, walk (adjacent strip) (start_idx strip) (end_idx strip) w ->
             (List.length [2; 0]%nat <= List.length w)%nat).
Proof.
  apply (seam_path_is_shortest_top_to_bottom strip [2; 0]%nat).
  vm_compute. reflexivity.
Defined.

End SeamPath.

(* ================================================================== *)
(** * Properties of [scripts/uv_repack.py] *)
(* ================================================================== *)

Section IndexedMaps.

Context {A B : Type}.

Lemma imap_from_length (f : nat -> A -> B) (l : list A) :
  forall i, List.length (imap_from i f l) = List.length l.
Proof. induction l as [| a l IH]; intro i; simpl; [reflexivity | now rewrite IH]. Qed.

Lemma nth_imap_from (f : nat -> A -> B) (da : A) (db : B) (l : list A) :
  forall i n, (n < List.length l)%nat ->
              nth n (imap_from i f l) db = f (i + n)%nat (nth n l da).
Proof.
  induction l as [| a l IH]; intros i n Hn; simpl in *; [lia |].
  destruct n as [| n].
  - now rewrite Nat.add_0_r.
  - rewrite IH by lia. f_equal. lia.
Qed.

Lemma in_concat_imap_from {C : Type} (f : nat -> A -> list C) (da : A) (c : C) (l : list A) :
  forall i, In c (List.concat (imap_from i f l)) <->
            exists n, (n < List.length l)%nat /\ In c (f (i + n)%nat (nth n l da)).
Proof.
  induction l as [| a l IH]; intro i; simpl.
  - split; [tauto | intros (n & Hn & _); lia].
  - rewrite in_app_iff, IH. split.
    + intros [H | (n & Hn & H)].
      * exists 0%nat. rewrite Nat.add_0_r. split; [lia | exact H].
      * exists (S n). split; [lia |]. now replace (i + S n)%nat with (S i + n)%nat by lia.
    + intros ([| n] & Hn & H).
      * left. now rewrite Nat.add_0_r in H.
      * right. exists n. split; [lia |]. now replace (S i + n)%nat with (i + S n)%nat by lia.
Qed.

End IndexedMaps.

Section FaceCount.

Import UvRepack.

(** Lines 53-58 alone: when the two parsed face lists differ in
    length, [reconcile_faces] prints the mismatch warning and hands on
    both lists cut to the shorter length.  What [main] then does with
    them is [remap]. *)
Lemma reconcile_faces_truncates {F : Type} (old_faces new_faces : list F) :
  List.length old_faces <> List.length new_faces ->
  let m := Nat.min (List.length old_faces) (List.length new_faces) in
  reconcile_faces old_faces new_faces =
    ([mismatch_warning (List.length old_faces) (List.length new_faces)],
     (firstn m old_faces, firstn m new_faces)) /\
  List.length (firstn m old_faces) = m /\
  List.length (firstn m new_faces) = m.
Proof.
  intros Hne m. unfold reconcile_faces.
  destruct (Nat.eqb_spec (List.length old_faces) (List.length new_faces)) as [E | _];
    [contradiction |].
  split; [reflexivity |]. subst m. rewrite !length_firstn. lia.
Qed.

(** The scenario of the specification: 100 old faces against 98 new ones
    leaves 98 of each. *)
Lemma reconcile_faces_100_98 :
  let old_faces := repeat (0, 0, 0)%Z 100 in
  let new_faces := repeat (1, 1, 1)%Z 98 in
  reconcile_faces old_faces new_faces =
    (["Warning: Face count mismatch! Old: 100, New: 98"%string],
     (firstn 98 old_faces, firstn 98 new_faces)) /\
  List.length (firstn 98 old_faces) = 98%nat /\
  List.length (firstn 98 new_faces) = 98%nat.
Proof.
  intros old_faces new_faces.
  apply (reconcile_faces_truncates old_faces new_faces).
  vm_compute. discriminate.
Defined.

End FaceCount.

Section Denominator.

Import UvRepack.
Local Open Scope Q_scope.

Lemma clamp_denom_far_from_zero (d : Q) : eps_denom <= Qabs (clamp_denom d).
Proof.
  unfold clamp_denom. destruct (Qlt_le_dec (Qabs d) eps_denom) as [Hlt | Hge].
  - rewrite Qabs_pos; [apply Qle_refl | unfold eps_denom; lra].
  - exact Hge.
Qed.

Lemma clamp_denom_nonzero (d : Q) : ~ clamp_denom d == 0.
Proof.
  intro H. pose proof (clamp_denom_far_from_zero d) as Hb.
  rewrite H in Hb. unfold eps_denom in Hb. simpl in Hb. lra.
Qed.




(** C8.  Both divisions of the weight computation divide by
    [bary_denom t], the clamped determinant; its magnitude is at least
    [1e-8], so it is never zero, for degenerate triangles too. *)
Theorem barycentric_denominator_clamped (t : triangle) (P : point) :
  (exists nv nw : Q,
      barycentric t P =
        (1 - nv / bary_denom t - nw / bary_denom t,
         nv / bary_denom t,
         nw / bary_denom t)) /\
  eps_denom <= Qabs (bary_denom t) /\
  ~ bary_denom t == 0.
Proof.
  split; [| split].
  - destruct t as [[A B] C]. unfold barycentric, bary_denom, raw_denom. cbv zeta.
    eexists. eexists. reflexivity.
  - apply clamp_denom_far_from_zero.
  - apply clamp_denom_nonzero.
Qed.

(** A triangle whose three corners coincide has determinant 0 and is
    divided by exactly [1e-8]. *)
Example degenerate_triangle_denominator :
  bary_denom ((3, 4), (3, 4), (3, 4)) = eps_denom.
Proof. reflexivity. Qed.

End Denominator.

Section Weights.

Import UvRepack.
Local Open Scope Q_scope.


Lemma barycentric_sum (t : triangle) (P : point) :
  let '(u, v, w) := barycentric t P in u + v + w == 1.
Proof.
  destruct t as [[A B] C]. unfold barycentric. cbv zeta. ring.
Qed.





(** Pixel (x = 1, y = 1) in the triangle (0,0) (4,0) (0,4): the weights
    are 1/2, 1/4, 1/4. *)
Example barycentric_inside_pixel :
  let t : triangle := ((0, 0), (4, 0), (0, 4)) in
  inside_closed t (pixel_point (1, 1)%nat) /\
  let '(u, v, w) := barycentric t (pixel_point (1, 1)%nat) in
  u == 1 # 2 /\ v == 1 # 4 /\ w == 1 # 4.
Proof.
  split.
  - exists (1 # 2), (1 # 4), (1 # 4). vm_compute. intuition discriminate.
  - vm_compute. intuition.
Qed.

End Weights.

Section OwnershipMap.

Import UvRepack.

Variable footprint : triangle -> nat -> nat -> bool.

Lemma new_image_in_bounds (w h : nat) (fill : Z) (x y : nat) :
  (x < w)%nat -> (y < h)%nat -> in_bounds (new_image w h fill) x y.
Proof.
  intros Hx Hy. unfold in_bounds, new_image. rewrite repeat_length. split; [exact Hy |].
  rewrite nth_repeat_lt by exact Hy. now rewrite repeat_length.
Qed.

Lemma new_image_cell (w h : nat) (fill : Z) (x y : nat) :
  (x < w)%nat -> (y < h)%nat -> cell (new_image w h fill) x y = fill.
Proof.
  intros Hx Hy. unfold cell, new_image.
  rewrite nth_repeat_lt by exact Hy. now rewrite nth_repeat_lt.
Qed.

Lemma draw_polygon_row (poly : triangle) (fill : Z) (img : image) (y : nat) :
  (y < List.length img)%nat ->
  nth y (draw_polygon footprint poly fill img) [] =
  imap (fun x old => if footprint poly x y then fill else old) (nth y img []).
Proof.
  intro Hy. unfold draw_polygon, imap at 1.
  now rewrite (nth_imap_from _ (@nil Z) (@nil Z)) by exact Hy.
Qed.

Lemma draw_polygon_in_bounds (poly : triangle) (fill : Z) (img : image) (x y : nat) :
  in_bounds img x y -> in_bounds (draw_polygon footprint poly fill img) x y.
Proof.
  intros [Hy Hx]. split.
  - unfold draw_polygon, imap. now rewrite imap_from_length.
  - rewrite draw_polygon_row by exact Hy. unfold imap. now rewrite imap_from_length.
Qed.

Lemma draw_polygon_cell (poly : triangle) (fill : Z) (img : image) (x y : nat) :
  in_bounds img x y ->
  cell (draw_polygon footprint poly fill img) x y =
  if footprint poly x y then fill else cell img x y.
Proof.
  intros [Hy Hx]. unfold cell. rewrite draw_polygon_row by exact Hy.
  unfold imap. now rewrite (nth_imap_from _ 0%Z 0%Z) by exact Hx.
Qed.

Lemma draw_faces_in_bounds (tris : list triangle) :
  forall i img x y, in_bounds img x y -> in_bounds (draw_faces footprint i tris img) x y.
Proof.
  induction tris as [| tri rest IH]; intros i img x y Hb; simpl; [exact Hb |].
  apply IH. now apply draw_polygon_in_bounds.
Qed.

(** After drawing [tris] as faces [i], [i+1], ... a cell keeps its old
    value when no footprint covers it, and holds the number of the last
    face drawn over it otherwise. *)
Lemma draw_faces_cell (tris : list triangle) :
  forall i img x y,
    in_bounds img x y ->
    (cell (draw_faces footprint i tris img) x y = cell img x y /\
     forall j, (j < List.length tris)%nat -> footprint (nth j tris no_triangle) x y = false)
    \/
    (exists j, (j < List.length tris)%nat /\
               footprint (nth j tris no_triangle) x y = true /\
               (forall k, (j < k < List.length tris)%nat ->
                          footprint (nth k tris no_triangle) x y = false) /\
               cell (draw_faces footprint i tris img) x y = (Z.of_nat (i + j) + 1)%Z).
Proof.
  induction tris as [| tri rest IH]; intros i img x y Hb; simpl.
  - left. split; [reflexivity | intros j Hj; lia].
  - destruct (IH (S i) (draw_polygon footprint tri (Z.of_nat i + 1) img) x y
                (draw_polygon_in_bounds tri _ _ _ _ Hb))
      as [[Hc Hnone] | (j & Hj & Hcov & Hlast & Hc)].
    + rewrite draw_polygon_cell in Hc by exact Hb.
      destruct (footprint tri x y) eqn:Hfp.
      * right. exists 0%nat. repeat split; [lia | exact Hfp | | now rewrite Nat.add_0_r].
        intros [| k] Hk; [lia |]. apply Hnone. lia.
      * left. split; [exact Hc |]. intros [| j] Hj; [exact Hfp | apply Hnone; lia].
    + right. exists (S j). repeat split; [lia | exact Hcov | |].
      * intros [| k] Hk; [lia |]. apply Hlast. lia.
      * rewrite Hc. f_equal. lia.
Qed.

Lemma covered_pixels_spec (fm : image) (x y : nat) :
  In (y, x) (covered_pixels fm) <-> in_bounds fm x y /\ (0 < cell fm x y)%Z.
Proof.
  unfold covered_pixels, imap, in_bounds, cell.
  rewrite (in_concat_imap_from _ (@nil Z)). split.
  - intros (n & Hn & Hin). simpl in Hin.
    apply (in_concat_imap_from _ 0%Z) in Hin. destruct Hin as (m & Hm & Hin). simpl in Hin.
    destruct (0 <? nth m (nth n fm []) 0)%Z eqn:Hpos; [| contradiction].
    destruct Hin as [Heq | []]. inversion Heq; subst.
    repeat split; [exact Hn | exact Hm | now apply Z.ltb_lt].
  - intros [[Hy Hx] Hpos]. exists y. split; [exact Hy |]. simpl.
    apply (in_concat_imap_from _ 0%Z). exists x. split; [exact Hx |]. simpl.
    apply Z.ltb_lt in Hpos. rewrite Hpos. now left.
Qed.

Lemma np_index_nat {A : Type} (a : list A) (d : A) (j : nat) :
  (j < List.length a)%nat -> np_index a (Z.of_nat j) = Ok (nth j a d).
Proof.
  intro Hj. unfold np_index.
  destruct (Z.ltb_spec (Z.of_nat j) 0) as [Hneg | _]; [lia |].
  destruct (Z.leb_spec 0 (Z.of_nat j)) as [_ | Hneg]; [| lia].
  destruct (Z.ltb_spec (Z.of_nat j) (Z.of_nat (List.length a))) as [_ | Hbig]; [| lia].
  simpl. rewrite Nat2Z.id.
  destruct (nth_error a j) as [x |] eqn:E.
  - now rewrite (nth_error_nth _ _ d E).
  - apply nth_error_None in E. lia.
Qed.







End OwnershipMap.

Section OwnershipMapExample.

Import UvRepack Resample.
Local Open Scope Q_scope.

Example two_overlapping_map :
  face_map box_footprint two_overlapping 4 4 =
  [ [1; 1; 1; 0]; [1; 2; 2; 2]; [1; 2; 2; 2]; [0; 2; 2; 2] ]%Z.
Proof. vm_compute. reflexivity. Qed.


(** The pixel (1, 1) of the overlap resampled, with faces that both
    use the old triangle (0,0) (1/2,0) (0,1/2) in a 4x4 source.  The
    pixel is the first corner of the new triangle of face 1, so it is
    sampled at the first corner of the old triangle. *)
Example overlap_pixel_sample :
  let uvs : list point := [ (0, 0); (1 # 2, 0); (0, 1 # 2);
                            (1 # 4, 1 # 4); (3 # 4, 1 # 4); (1 # 4, 3 # 4) ] in
  let new_faces : list uv_face := [ (0, 1, 2); (3, 4, 5) ]%Z in
  let old_faces : list uv_face := [ (0, 1, 2); (0, 1, 2) ]%Z in
  exists s,
    remap_pixel uvs uvs old_faces new_faces 4 4 4 4
                (face_map box_footprint two_overlapping 4 4) (1, 1)%nat = Ok s /\
    s_face s = 1%Z /\
    s_old_triangle s = ((0, 0), (1 # 2, 0), (0, 1 # 2)) /\
    fst (s_source_xy s) == 0 /\ snd (s_source_xy s) == 0.
Proof.
  cbv zeta. eexists. split; [vm_compute; reflexivity |].
  repeat split; vm_compute; reflexivity.
Qed.

Example offset_triangle_corners :
  let '(a, b, c) := offset_triangle in
  (fst a == 1 # 2 /\ snd a == 1 # 2) /\
  (fst b == 5 # 2 /\ snd b == 1 # 2) /\
  (fst c == 1 # 2 /\ snd c == 5 # 2).
Proof. vm_compute. intuition. Qed.

Example offset_triangle_map :
  face_map closed_footprint [offset_triangle] 4 4 =
  [ [1; 1; 1; 0]; [1; 1; 0; 0]; [1; 0; 0; 0]; [0; 0; 0; 0] ]%Z.
Proof. vm_compute. reflexivity. Qed.



End OwnershipMapExample.

Section RemapPipeline.

Import UvRepack Resample.
Local Open Scope Q_scope.

Variable footprint : triangle -> nat -> nat -> bool.

Lemma mapM_Ok_In {A B : Type} (f : A -> result B) (l : list A) :
  forall ys, mapM f l = Ok ys ->
             forall y, In y ys -> exists a, In a l /\ f a = Ok y.
Proof.
  induction l as [| a l IH]; intros ys H y Hy; simpl in H.
  - inversion H; subst. contradiction.
  - destruct (f a) as [b |] eqn:Hfa; [| discriminate]. simpl in H.
    destruct (mapM f l) as [bs |] eqn:Hl; [| discriminate]. simpl in H.
    inversion H; subst. destruct Hy as [<- | Hy].
    + exists a. split; [now left | exact Hfa].
    + destruct (IH bs eq_refl y Hy) as (a' & Ha' & Hf). exists a'. split; [now right | exact Hf].
Qed.

Lemma remap_pixel_fields (old_uvs new_uvs : list point) (old_faces new_faces : list uv_face)
      (dst_w dst_h src_w src_h : nat) (fm : image) (px : nat * nat) (s : sample) :
  remap_pixel old_uvs new_uvs old_faces new_faces dst_w dst_h src_w src_h fm px = Ok s ->
  s_pixel s = px /\
  s_face s = face_index fm px /\
  exists tri_new, s_weights s = barycentric tri_new (pixel_point px).
Proof.
  unfold remap_pixel. intro H.
  destruct (np_index new_faces (face_index fm px)) as [new_f |]; [| discriminate].
  simpl in H. destruct (gather new_uvs new_f) as [tn |]; [| discriminate].
  simpl in H. destruct (np_index old_faces (face_index fm px)) as [old_f |]; [| discriminate].
  simpl in H. destruct (gather old_uvs old_f) as [tri_old |]; [| discriminate].
  simpl in H. inversion H; subst. simpl. repeat split. eexists. reflexivity.
Qed.

(** [remap] returns samples only when none of the four parsed lists
    is empty; they are then the samples of the covered pixels of the
    map drawn from the reconciled faces. *)
Lemma remap_Ok_inv (old_uvs new_uvs : list point) (old_faces new_faces : list uv_face)
      (dst_w dst_h src_w src_h : nat) (out : list string) (samples : list sample) :
  remap footprint old_uvs new_uvs old_faces new_faces dst_w dst_h src_w src_h
    = (out, Ok samples) ->
  old_faces <> [] /\ new_faces <> [] /\ old_uvs <> [] /\ new_uvs <> [] /\
  exists tris,
    tri_uvs new_uvs (snd (snd (reconcile_faces old_faces new_faces))) dst_w dst_h = Ok tris /\
    mapM (remap_pixel old_uvs new_uvs
                      (fst (snd (reconcile_faces old_faces new_faces)))
                      (snd (snd (reconcile_faces old_faces new_faces)))
                      dst_w dst_h src_w src_h (face_map footprint tris dst_w dst_h))
         (covered_pixels (face_map footprint tris dst_w dst_h)) = Ok samples.
Proof.
  unfold remap. destruct (reconcile_faces old_faces new_faces) as [o [old' new']].
  simpl fst. simpl snd. intro H. injection H as Hout Hres.
  destruct new_faces as [| nf nfs]; [discriminate |]. simpl in Hres.
  destruct (tri_uvs new_uvs new' dst_w dst_h) as [tris |]; [| discriminate].
  simpl in Hres.
  destruct new_uvs as [| nu nus]; [discriminate |]. simpl in Hres.
  destruct old_faces as [| f fs]; [discriminate |]. simpl in Hres.
  destruct (mapM _ (covered_pixels (face_map footprint tris dst_w dst_h)))
    as [smp |] eqn:Hs; [| discriminate].
  simpl in Hres.
  destruct old_uvs as [| ou ous]; [discriminate |]. simpl in Hres.
  injection Hres as ->.
  repeat (split; [discriminate |]).
  exists tris. split; [reflexivity | exact Hs].
Qed.

(** And it does return them when the four lists are non-empty and the
    two steps that index succeed. *)
Lemma remap_Ok_intro (old_uvs new_uvs : list point) (old_faces new_faces : list uv_face)
      (dst_w dst_h src_w src_h : nat) (tris : list triangle) (samples : list sample) :
  old_faces <> [] -> new_faces <> [] -> old_uvs <> [] -> new_uvs <> [] ->
  tri_uvs new_uvs (snd (snd (reconcile_faces old_faces new_faces))) dst_w dst_h = Ok tris ->
  mapM (remap_pixel old_uvs new_uvs
                    (fst (snd (reconcile_faces old_faces new_faces)))
                    (snd (snd (reconcile_faces old_faces new_faces)))
                    dst_w dst_h src_w src_h (face_map footprint tris dst_w dst_h))
       (covered_pixels (face_map footprint tris dst_w dst_h)) = Ok samples ->
  snd (remap footprint old_uvs new_uvs old_faces new_faces dst_w dst_h src_w src_h)
    = Ok samples.
Proof.
  unfold remap. destruct (reconcile_faces old_faces new_faces) as [o [old' new']].
  simpl fst. simpl snd. intros Hof Hnf Hou Hnu Htris Hs.
  destruct new_faces; [contradiction |]. destruct old_faces; [contradiction |].
  destruct new_uvs; [contradiction |]. destruct old_uvs; [contradiction |].
  simpl. rewrite Htris. simpl. rewrite Hs. reflexivity.
Qed.

(** Every sample that [remap] produces belongs to a covered pixel of
    the ownership map, carries the face index stored there, and has
    weights that sum to 1. *)
Lemma remap_samples_sound (old_uvs new_uvs : list point) (old_faces new_faces : list uv_face)
      (dst_w dst_h src_w src_h : nat) (out : list string) (samples : list sample) :
  remap footprint old_uvs new_uvs old_faces new_faces dst_w dst_h src_w src_h
    = (out, Ok samples) ->
  exists tris,
    tri_uvs new_uvs (snd (snd (reconcile_faces old_faces new_faces))) dst_w dst_h = Ok tris /\
    forall s, In s samples ->
      let fm := face_map footprint tris dst_w dst_h in
      In (s_pixel s) (covered_pixels fm) /\
      s_face s = face_index fm (s_pixel s) /\
      let '(u, v, w) := s_weights s in u + v + w == 1.
Proof.
  intro H. apply remap_Ok_inv in H.
  destruct H as (_ & _ & _ & _ & tris & Htris & Hres).
  exists tris. split; [exact Htris |].
  intros s Hs. cbv zeta.
  destruct (mapM_Ok_In _ _ _ Hres s Hs) as (px & Hpx & Hrp).
  apply remap_pixel_fields in Hrp. destruct Hrp as (Hp & Hf & tri_new & Hw).
  rewrite Hp, Hf, Hw. split; [exact Hpx |]. split; [reflexivity |].
  apply barycentric_sum.
Qed.

(** A parsed face list without any face stops [main]: the new one at
    line 78, the old one at line 143, both with the [IndexError] that
    numpy raises for an index array of floats.  The face lists of the
    two files then differ in length unless both are empty, so the
    warning of line 54 has been printed and the lists cut to no face
    at all. *)
Lemma remap_raises_without_faces (old_uvs new_uvs : list point)
      (old_faces new_faces : list uv_face) (dst_w dst_h src_w src_h : nat) :
  (new_faces = [] ->
   snd (remap footprint old_uvs new_uvs old_faces new_faces dst_w dst_h src_w src_h)
     = Raise IndexError) /\
  (old_faces = [] -> new_faces <> [] -> new_uvs <> [] ->
   snd (remap footprint old_uvs new_uvs old_faces new_faces dst_w dst_h src_w src_h)
     = Raise IndexError).
Proof.
  split.
  - intros ->. unfold remap.
    destruct (reconcile_faces old_faces []) as [o [old' new']]. reflexivity.
  - intros -> Hnf Hnu. unfold remap, reconcile_faces.
    destruct new_faces as [| f fs]; [contradiction |].
    destruct new_uvs as [| p ps]; [contradiction |].
    simpl. reflexivity.
Qed.

(** C3.  The claim fails on the code where the shorter list is empty.
    An old file with one UV face against a new file with none: the
    warning is printed, both lists are cut to no face, and line 78
    raises [IndexError].  The files exchanged: the same warning with
    the counts exchanged, and line 143 raises [IndexError].  Neither
    depends on what the rasteriser does. *)
Theorem mismatch_with_empty_list_raises :
  remap footprint unit_uvs unit_uvs unit_faces [] 4 4 4 4
    = (["Warning: Face count mismatch! Old: 1, New: 0"%string], Raise IndexError) /\
  remap footprint unit_uvs unit_uvs [] unit_faces 4 4 4 4
    = (["Warning: Face count mismatch! Old: 0, New: 1"%string], Raise IndexError).
Proof. split; reflexivity. Qed.

End RemapPipeline.

Section ObjParser.

Import UvRepack.
Local Open Scope string_scope.

Variable py_float : string -> option Q.
Variable py_int : string -> option Z.

Lemma append_empty_r (s : string) : s ++ "" = s.
Proof. induction s as [| c s IH]; simpl; [reflexivity | now rewrite IH]. Qed.

Lemma append_associative (s t u : string) : (s ++ t) ++ u = s ++ t ++ u.
Proof. induction s as [| c s IH]; simpl; [reflexivity | now rewrite IH]. Qed.

Lemma snoc_append (cur : string) (c : ascii) (w : string) :
  snoc cur c ++ w = cur ++ String c w.
Proof. unfold snoc. now rewrite append_associative. Qed.

Lemma nonempty_append_r (s t : string) : nonempty t = true -> nonempty (s ++ t) = true.
Proof. destruct s; simpl; auto. Qed.

(** A field without separator is read into the current field whole. *)
Lemma split_on_from_field (sep : ascii) (w : string) :
  forall cur rest,
    all_chars (fun c => negb (Ascii.eqb c sep)) w = true ->
    split_on_from sep cur (w ++ rest) = split_on_from sep (cur ++ w) rest.
Proof.
  induction w as [| c w IH]; intros cur rest Hw; simpl in *.
  - now rewrite append_empty_r.
  - apply andb_prop in Hw. destruct Hw as [Hc Hw].
    apply negb_true_iff in Hc. rewrite Hc, IH by exact Hw.
    now rewrite snoc_append.
Qed.

Lemma split_ws_from_word (w : string) :
  forall cur rest,
    no_space w = true ->
    split_ws_from cur (w ++ rest) = split_ws_from (cur ++ w) rest.
Proof.
  unfold no_space.
  induction w as [| c w IH]; intros cur rest Hw; simpl in *.
  - now rewrite append_empty_r.
  - apply andb_prop in Hw. destruct Hw as [Hc Hw].
    apply negb_true_iff in Hc. rewrite Hc, IH by exact Hw.
    now rewrite snoc_append.
Qed.

Lemma split_ws_from_entries (entries : list string) :
  forall cur,
    nonempty cur = true ->
    Forall (fun e => no_space e = true /\ nonempty e = true) entries ->
    split_ws_from cur (join_entries entries ++ String "010" "") = cur :: entries.
Proof.
  induction entries as [| e es IH]; intros cur Hcur Hes; simpl.
  - now rewrite Hcur.
  - inversion Hes as [| ? ? [Hsp Hne] Hes']; subst.
    rewrite Hcur. f_equal.
    rewrite append_associative, split_ws_from_word by exact Hsp.
    simpl. now apply IH.
Qed.

Lemma split_ws_face_line (entries : list string) :
  Forall (fun e => no_space e = true /\ nonempty e = true) entries ->
  split_ws (face_line entries) = "f" :: entries.
Proof.
  intro Hes. unfold split_ws, face_line. simpl.
  now apply split_ws_from_entries.
Qed.

Lemma split_on_uv_entry (v t tail : string) :
  no_slash v = true -> no_slash t = true ->
  (tail = "" \/ exists n, tail = "/" ++ n) ->
  exists more, split_on "/" (v ++ "/" ++ t ++ tail) = v :: t :: more.
Proof.
  intros Hv Ht Htail. unfold split_on.
  rewrite split_on_from_field by exact Hv. simpl.
  rewrite split_on_from_field by exact Ht. simpl.
  destruct Htail as [-> | [n ->]]; simpl; eauto.
Qed.

Lemma split_on_plain_entry (e : string) :
  no_slash e = true -> split_on "/" e = [e].
Proof.
  intro He. unfold split_on.
  rewrite <- (append_empty_r e) at 1.
  now rewrite split_on_from_field by exact He.
Qed.

Lemma face_uv_indices_all (entries : list string) (ks : list Z) :
  Forall2 (carries_uv py_int) entries ks ->
  face_uv_indices py_int entries = Ok (map (fun k => k - 1)%Z ks).
Proof.
  induction 1 as [| e k es ks' He _ IH]; simpl; [reflexivity |].
  destruct He as (v & t & tail & -> & Hv & Ht & Hne & Htail & Hint).
  destruct (split_on_uv_entry v t tail Hv Ht Htail) as [more ->].
  now rewrite Hne, Hint, IH.
Qed.

Lemma face_uv_indices_plain (entries : list string) :
  Forall (fun e => no_slash e = true) entries ->
  face_uv_indices py_int entries = Ok [].
Proof.
  induction 1 as [| e es He _ IH]; simpl; [reflexivity |].
  now rewrite split_on_plain_entry.
Qed.

Lemma carries_uv_nonempty (e : string) (k : Z) :
  carries_uv py_int e k -> nonempty e = true.
Proof.
  intros (v & t & tail & -> & _). apply nonempty_append_r. reflexivity.
Qed.

Lemma fan_triangulate_length (uv : list Z) :
  List.length (fan_triangulate uv) = (List.length uv - 2)%nat.
Proof. unfold fan_triangulate. now rewrite length_map, length_seq. Qed.

Lemma fan_triangulate_nth (uv : list Z) (i : nat) (d : uv_face) :
  (i < List.length uv - 2)%nat ->
  nth i (fan_triangulate uv) d =
  (nth 0 uv 0%Z, nth (i + 1) uv 0%Z, nth (i + 2) uv 0%Z).
Proof.
  intro Hi. unfold fan_triangulate.
  rewrite (nth_indep _ d (nth 0 uv 0%Z, nth (0 + 1) uv 0%Z, nth (0 + 2) uv 0%Z))
    by now rewrite length_map, length_seq.
  rewrite (map_nth (fun i => (nth 0 uv 0%Z, nth (i + 1) uv 0%Z, nth (i + 2) uv 0%Z))).
  now rewrite seq_nth by exact Hi.
Qed.

(** A file that consists of one face line. *)
Lemma load_single_face_line (entries : list string) (fs : list uv_face) :
  entries <> [] ->
  parse_face_line py_int (face_line entries) = Ok fs ->
  load_obj_uv py_float py_int [face_line entries] = Ok ([], fs).
Proof.
  intros Hne Hfs. destruct entries as [| e es]; [contradiction |].
  assert (Hvt : startswith "vt " (face_line (e :: es)) = false) by reflexivity.
  assert (Hf : startswith "f " (face_line (e :: es)) = true).
  { unfold startswith, face_line. simpl.
    match goal with |- prefix "" ?x = true => destruct x; reflexivity end. }
  unfold load_obj_uv, load_lines. now rewrite Hvt, Hf, Hfs.
Qed.

(** C9.  Whatever [float()] and [int()] do: (1) a face line whose [n]
    vertex entries all carry a UV index yields the [n - 2] fan triples
    [(0, i+1, i+2)] over the 0-based UV indices, alone in a file too;
    (2) a face line of plain entries, without any slash, yields no UV
    face; (3) so a file with one face line can parse to zero UV faces,
    without any error. *)
Theorem uv_faces_only_from_uv_entries :
  (forall entries ks,
      Forall (fun e => no_space e = true) entries ->
      Forall2 (carries_uv py_int) entries ks ->
      let uv := map (fun k => k - 1)%Z ks in
      parse_face_line py_int (face_line entries) = Ok (fan_triangulate uv) /\
      (entries <> [] ->
       load_obj_uv py_float py_int [face_line entries] = Ok ([], fan_triangulate uv)) /\
      List.length (fan_triangulate uv) = (List.length entries - 2)%nat /\
      forall i, (i < List.length entries - 2)%nat ->
                nth i (fan_triangulate uv) (0, 0, 0)%Z =
                (nth 0 uv 0%Z, nth (i + 1) uv 0%Z, nth (i + 2) uv 0%Z)) /\
  (forall entries,
      Forall (fun e => no_space e = true /\ nonempty e = true /\ no_slash e = true) entries ->
      parse_face_line py_int (face_line entries) = Ok []) /\
  (let file := [face_line ["1"; "2"; "3"]] in
   face_line_count file = 1%nat /\
   load_obj_uv py_float py_int file = Ok ([], [])).
Proof.
  split; [| split].
  - intros entries ks Hsp Hall uv.
    assert (Hlen : List.length uv = List.length entries).
    { unfold uv. rewrite length_map. symmetry. eapply Forall2_length; eassumption. }
    assert (Hparse : parse_face_line py_int (face_line entries) = Ok (fan_triangulate uv)).
    { unfold parse_face_line. rewrite split_ws_face_line.
      * simpl. now rewrite (face_uv_indices_all _ _ Hall).
      * clear uv Hlen. induction Hall as [| e k es ks' He Hall IH]; constructor.
        -- inversion Hsp; subst. split; [assumption | eapply carries_uv_nonempty; eassumption].
        -- apply IH. now inversion Hsp. }
    split; [exact Hparse | split; [| split]].
    + intro Hne. now apply load_single_face_line.
    + now rewrite fan_triangulate_length, Hlen.
    + intros i Hi. apply fan_triangulate_nth. now rewrite Hlen.
  - intros entries Hes. unfold parse_face_line. rewrite split_ws_face_line.
    + simpl. rewrite face_uv_indices_plain; [reflexivity |].
      eapply Forall_impl; [| exact Hes]. simpl. tauto.
    + eapply Forall_impl; [| exact Hes]. simpl. tauto.
  - split; reflexivity.
Qed.

End ObjParser.

Section ObjParserExamples.

Import UvRepack.
Local Open Scope string_scope.

(** A quad with UV indices fans into two triangles. *)
Example quad_face_line_fans :
  face_line ["1/1/1"; "2/2/2"; "3/3/3"; "4/4/4"]
    = "f 1/1/1 2/2/2 3/3/3 4/4/4" ++ String "010" "" /\
  parse_face_line decimal_int (face_line ["1/1/1"; "2/2/2"; "3/3/3"; "4/4/4"])
    = Ok [(0, 1, 2); (0, 2, 3)]%Z.
Proof. split; reflexivity. Qed.

(** Entries of the form [v//n] have an empty UV field and give nothing. *)
Example normals_only_face_line :
  parse_face_line decimal_int (face_line ["1//1"; "2//1"; "3//1"]) = Ok [].
Proof. reflexivity. Qed.

End ObjParserExamples.

(* ================================================================== *)
(** * Further properties of [scripts/uv_repack.py] *)
(* ================================================================== *)

Section WeightsReproducePoint.

Import UvRepack.
Local Open Scope Q_scope.


End WeightsReproducePoint.

Section IdentityLayout.

Import UvRepack Resample.
Local Open Scope Q_scope.



End IdentityLayout.

Section RepeatedCorner.

Import UvRepack.
Local Open Scope Q_scope.

Lemma clamp_denom_of_zero (d : Q) : d == 0 -> clamp_denom d = eps_denom.
Proof.
  intro Hd. unfold clamp_denom.
  destruct (Qlt_le_dec (Qabs d) eps_denom) as [_ | Hge]; [reflexivity |].
  exfalso. rewrite (Qabs_wd _ _ Hd) in Hge. vm_compute in Hge. now apply Hge.
Qed.

(** X2.  A new-UV triangle with a repeated corner (a face that cites
    one UV point twice, or two UV points at the same place) gives every
    pixel it owns the weights (1, 0, 0): the determinant and both
    numerators are differences of equal products, the clamped
    denominator is [1e-8], and the pixel is sampled at the first corner
    of the old triangle. *)
Theorem repeated_corner_samples_first_corner (t t_old : triangle) (P : point) :
  (let '(A, B, C) := t in
   (fst B == fst A /\ snd B == snd A) \/
   (fst C == fst A /\ snd C == snd A) \/
   (fst B == fst C /\ snd B == snd C)) ->
  (let '(u, v, w) := barycentric t P in u == 1 /\ v == 0 /\ w == 0) /\
  fst (interpolate (barycentric t P) t_old) == fst (fst (fst t_old)) /\
  snd (interpolate (barycentric t P) t_old) == snd (fst (fst t_old)).
Proof.
  intro Hrep.
  assert (Hw : let '(u, v, w) := barycentric t P in u == 1 /\ v == 0 /\ w == 0).
  { destruct t as [[[ax ay] [bx by_]] [cx cy]]. destruct P as [px py].
    simpl in Hrep.
    assert (Hd : ((bx - ax) * (bx - ax) + (by_ - ay) * (by_ - ay)) *
                 ((cx - ax) * (cx - ax) + (cy - ay) * (cy - ay)) -
                 ((bx - ax) * (cx - ax) + (by_ - ay) * (cy - ay)) *
                 ((bx - ax) * (cx - ax) + (by_ - ay) * (cy - ay)) == 0).
    { destruct Hrep as [[Ex Ey] | [[Ex Ey] | [Ex Ey]]]; rewrite Ex, Ey; ring. }
    assert (Hv : ((cx - ax) * (cx - ax) + (cy - ay) * (cy - ay)) *
                 ((px - ax) * (bx - ax) + (py - ay) * (by_ - ay)) -
                 ((bx - ax) * (cx - ax) + (by_ - ay) * (cy - ay)) *
                 ((px - ax) * (cx - ax) + (py - ay) * (cy - ay)) == 0).
    { destruct Hrep as [[Ex Ey] | [[Ex Ey] | [Ex Ey]]]; rewrite Ex, Ey; ring. }
    assert (Hk : ((bx - ax) * (bx - ax) + (by_ - ay) * (by_ - ay)) *
                 ((px - ax) * (cx - ax) + (py - ay) * (cy - ay)) -
                 ((bx - ax) * (cx - ax) + (by_ - ay) * (cy - ay)) *
                 ((px - ax) * (bx - ax) + (py - ay) * (by_ - ay)) == 0).
    { destruct Hrep as [[Ex Ey] | [[Ex Ey] | [Ex Ey]]]; rewrite Ex, Ey; ring. }
    unfold barycentric. cbv zeta. unfold vdot, vsub. simpl.
    rewrite (clamp_denom_of_zero _ Hd).
    rewrite Hv, Hk. vm_compute. intuition. }
  split; [exact Hw |].
  destruct (barycentric t P) as [[u v] w]. destruct Hw as (Hu & Hv & Hk).
  destruct t_old as [[[ax ay] [bx by_]] [cx cy]]. simpl.
  rewrite Hu, Hv, Hk. split; ring.
Qed.

Lemma repeated_corner_witness :
  (let '(u, v, w) := barycentric ((1, 1), (3, 2), (1, 1)) (2, 0) in
   u == 1 /\ v == 0 /\ w == 0) /\
  fst (interpolate (barycentric ((1, 1), (3, 2), (1, 1)) (2, 0))
                   ((1 # 4, 1 # 2), (1, 0), (0, 1))) == 1 # 4 /\
  snd (interpolate (barycentric ((1, 1), (3, 2), (1, 1)) (2, 0))
                   ((1 # 4, 1 # 2), (1, 0), (0, 1))) == 1 # 2.
Proof.
  apply (repeated_corner_samples_first_corner
           ((1, 1), (3, 2), (1, 1)) ((1 # 4, 1 # 2), (1, 0), (0, 1)) (2, 0)).
  simpl. right. left. split; reflexivity.
Defined.

End RepeatedCorner.

Section FaceListInvariant.

Import UvRepack.

(** Whatever the two parsed face lists are, the lists that
    [reconcile_faces] hands on have the same length, the smaller of the
    two input lengths, each is the prefix of that length of its input,
    and a warning is printed exactly when the input lengths differ. *)
Lemma reconcile_faces_equal_prefixes {F : Type} (old_faces new_faces : list F) :
  let '(out, (old', new')) := reconcile_faces old_faces new_faces in
  List.length old' = List.length new' /\
  List.length old' = Nat.min (List.length old_faces) (List.length new_faces) /\
  old' = firstn (List.length old') old_faces /\
  new' = firstn (List.length new') new_faces /\
  (out = [] <-> List.length old_faces = List.length new_faces).
Proof.
  unfold reconcile_faces.
  destruct (Nat.eqb_spec (List.length old_faces) (List.length new_faces)) as [E | Hne].
  - rewrite !firstn_all.
    split; [exact E |]. split; [lia |]. split; [reflexivity |]. split; [reflexivity |].
    split; [intros _; exact E | reflexivity].
  - rewrite !length_firstn.
    split; [lia |]. split; [lia |].
    split; [f_equal; lia |]. split; [f_equal; lia |].
    split; [discriminate | intro E; contradiction].
Qed.

End FaceListInvariant.

Section RemapTotal.

Import UvRepack Resample.

Variable footprint : triangle -> nat -> nat -> bool.

Lemma np_index_ok {A : Type} (a : list A) (k : Z) :
  index_ok (List.length a) k -> exists x, np_index a k = Ok x.
Proof.
  unfold index_ok, np_index. intros [Hlo Hhi].
  set (n := Z.of_nat (List.length a)) in *.
  set (k' := if (k <? 0)%Z then (k + n)%Z else k).
  assert (Hk' : (0 <= k' < n)%Z).
  { unfold k'. destruct (Z.ltb_spec k 0); lia. }
  destruct (Z.leb_spec 0 k') as [_ | Hneg]; [| lia].
  destruct (Z.ltb_spec k' n) as [_ | Hbig]; [| lia].
  simpl. destruct (nth_error a (Z.to_nat k')) as [x |] eqn:E; [eauto |].
  apply nth_error_None in E. unfold n in Hk'. lia.
Qed.

Lemma gather_ok (uvs : list point) (f : uv_face) :
  face_ok uvs f -> exists t, gather uvs f = Ok t.
Proof.
  destruct f as [[i j] k]. intros (Hi & Hj & Hk). unfold gather.
  destruct (np_index_ok uvs i Hi) as [a ->].
  destruct (np_index_ok uvs j Hj) as [b ->].
  destruct (np_index_ok uvs k Hk) as [c ->].
  simpl. eauto.
Qed.

Lemma in_firstn {A : Type} (x : A) (l : list A) :
  forall n, In x (firstn n l) -> In x l.
Proof.
  induction l as [| a l IH]; intros [| n] H; simpl in H; try contradiction.
  destruct H as [-> | H]; [now left | right; now apply (IH n)].
Qed.

Lemma mapM_total {A B : Type} (f : A -> result B) (l : list A) :
  (forall a, In a l -> exists b, f a = Ok b) ->
  exists bs, mapM f l = Ok bs.
Proof.
  induction l as [| a l IH]; intro H; simpl; [eauto |].
  destruct (H a (or_introl eq_refl)) as [b ->].
  destruct IH as [bs ->]; [intros a' Ha'; apply H; now right |].
  simpl. eauto.
Qed.

Lemma mapM_length {A B : Type} (f : A -> result B) (l : list A) :
  forall bs, mapM f l = Ok bs -> List.length bs = List.length l.
Proof.
  induction l as [| a l IH]; intros bs H; simpl in H.
  - now inversion H.
  - destruct (f a) as [b |]; [| discriminate]. simpl in H.
    destruct (mapM f l) as [bs' |]; [| discriminate]. simpl in H.
    inversion H; subst. simpl. f_equal. now apply IH.
Qed.

Lemma draw_polygon_bounds_back (poly : triangle) (fill : Z) (img : image) (x y : nat) :
  in_bounds (draw_polygon footprint poly fill img) x y -> in_bounds img x y.
Proof.
  unfold in_bounds. intros [Hy Hx].
  assert (Hy' : (y < List.length img)%nat)
    by (unfold draw_polygon, imap in Hy; now rewrite imap_from_length in Hy).
  split; [exact Hy' |].
  rewrite (draw_polygon_row footprint poly fill img y Hy') in Hx.
  unfold imap in Hx. now rewrite imap_from_length in Hx.
Qed.

Lemma draw_faces_bounds_back (tris : list triangle) :
  forall i img x y, in_bounds (draw_faces footprint i tris img) x y -> in_bounds img x y.
Proof.
  induction tris as [| tri rest IH]; intros i img x y H; simpl in H; [exact H |].
  apply IH in H. now apply draw_polygon_bounds_back in H.
Qed.

Lemma new_image_bounds_back (w h : nat) (fill : Z) (x y : nat) :
  in_bounds (new_image w h fill) x y -> (x < w)%nat /\ (y < h)%nat.
Proof.
  unfold in_bounds, new_image. rewrite repeat_length. intros [Hy Hx].
  rewrite nth_repeat_lt in Hx by exact Hy. rewrite repeat_length in Hx. tauto.
Qed.

(** A face that cites valid indices needs a UV list with an entry. *)
Lemma faces_need_uvs (uvs : list point) (faces : list uv_face) :
  faces <> [] -> Forall (face_ok uvs) faces -> uvs <> [].
Proof.
  intros Hne Hall. destruct faces as [| f fs]; [contradiction |].
  inversion Hall as [| f' fs' Hf _]; subst.
  destruct f as [[i j] k]. destruct Hf as (Hi & _ & _).
  intros ->. unfold index_ok in Hi. simpl in Hi. lia.
Qed.

(** A covered pixel lies inside the image, and its cell names a face. *)
Lemma covered_pixel_face (tris : list triangle) (dst_w dst_h : nat) (px : nat * nat) :
  In px (covered_pixels (face_map footprint tris dst_w dst_h)) ->
  (snd px < dst_w)%nat /\ (fst px < dst_h)%nat /\
  exists j, (j < List.length tris)%nat /\
            face_index (face_map footprint tris dst_w dst_h) px = Z.of_nat j.
Proof.
  destruct px as [y x]. intro Hin. apply covered_pixels_spec in Hin.
  destruct Hin as [Hb Hpos]. unfold face_map in Hb.
  apply draw_faces_bounds_back in Hb. pose proof Hb as Hb0.
  apply new_image_bounds_back in Hb. destruct Hb as [Hx Hy].
  split; [exact Hx |]. split; [exact Hy |].
  destruct (draw_faces_cell footprint tris 0 _ x y Hb0)
    as [[Hc _] | (j & Hj & _ & _ & Hc)].
  - rewrite new_image_cell in Hc by assumption. unfold face_map in Hpos. lia.
  - exists j. split; [exact Hj |]. unfold face_index, face_map. simpl fst. simpl snd.
    rewrite Hc. simpl. lia.
Qed.

(** X3.  When both parsed face lists are non-empty and every face cites
    only UV indices that numpy accepts for its own UV list, [remap] does
    not raise: every covered pixel gets a sample.  The index read from
    the map is valid for the old list as well because both lists were
    cut to the same length. *)
Theorem remap_succeeds_on_valid_indices
        (old_uvs new_uvs : list point) (old_faces new_faces : list uv_face)
        (dst_w dst_h src_w src_h : nat) :
  old_faces <> [] -> new_faces <> [] ->
  Forall (face_ok old_uvs) old_faces ->
  Forall (face_ok new_uvs) new_faces ->
  exists tris samples,
    tri_uvs new_uvs (snd (snd (reconcile_faces old_faces new_faces))) dst_w dst_h = Ok tris /\
    snd (remap footprint old_uvs new_uvs old_faces new_faces dst_w dst_h src_w src_h)
      = Ok samples /\
    List.length samples
      = List.length (covered_pixels (face_map footprint tris dst_w dst_h)).
Proof.
  intros Hof Hnf Hold Hnew.
  assert (Hou : old_uvs <> []) by (apply (faces_need_uvs old_uvs old_faces); assumption).
  assert (Hnu : new_uvs <> []) by (apply (faces_need_uvs new_uvs new_faces); assumption).
  pose proof (reconcile_faces_equal_prefixes old_faces new_faces) as Hrec.
  destruct (reconcile_faces old_faces new_faces) as [out [old' new']] eqn:Erec.
  destruct Hrec as (Hlen & _ & Eold & Enew & _). simpl snd.
  assert (Hold' : forall f, In f old' -> face_ok old_uvs f).
  { intros f Hf. rewrite Eold in Hf. apply in_firstn in Hf.
    now apply (proj1 (Forall_forall _ _) Hold). }
  assert (Hnew' : forall f, In f new' -> face_ok new_uvs f).
  { intros f Hf. rewrite Enew in Hf. apply in_firstn in Hf.
    now apply (proj1 (Forall_forall _ _) Hnew). }
  assert (Htris : exists tris, tri_uvs new_uvs new' dst_w dst_h = Ok tris).
  { unfold tri_uvs. apply mapM_total. intros f Hf.
    destruct (gather_ok new_uvs f (Hnew' f Hf)) as [t ->]. simpl. eauto. }
  destruct Htris as [tris Htris].
  assert (Hn : List.length tris = List.length new')
    by (unfold tri_uvs in Htris; now apply mapM_length in Htris).
  set (fm := face_map footprint tris dst_w dst_h).
  assert (Hall : exists samples,
             mapM (remap_pixel old_uvs new_uvs old' new' dst_w dst_h src_w src_h fm)
                  (covered_pixels fm) = Ok samples).
  { apply mapM_total. intros px Hpx.
    destruct (covered_pixel_face tris dst_w dst_h px Hpx) as (_ & _ & j & Hj & Hfi).
    unfold remap_pixel. fold fm in Hfi. rewrite Hfi.
    rewrite (np_index_nat new' (0, 0, 0)%Z j) by lia. simpl.
    destruct (gather_ok new_uvs (nth j new' (0, 0, 0)%Z)) as [tn ->];
      [apply Hnew'; apply nth_In; lia |].
    simpl. rewrite (np_index_nat old' (0, 0, 0)%Z j) by lia. simpl.
    destruct (gather_ok old_uvs (nth j old' (0, 0, 0)%Z)) as [to ->];
      [apply Hold'; apply nth_In; lia |].
    simpl. eauto. }
  destruct Hall as [samples Hs]. exists tris, samples.
  split; [exact Htris |]. split.
  - apply (remap_Ok_intro footprint old_uvs new_uvs old_faces new_faces
                          dst_w dst_h src_w src_h tris samples);
      try assumption; rewrite Erec; simpl; assumption.
  - now apply mapM_length in Hs.
Qed.

End RemapTotal.

Section RemapTotalExample.

Import UvRepack Resample.

Lemma remap_succeeds_witness :
  exists tris samples,
    tri_uvs unit_uvs
            (snd (snd (reconcile_faces (unit_faces ++ unit_faces) unit_faces))) 4 4
      = Ok tris /\
    snd (remap box_footprint unit_uvs unit_uvs (unit_faces ++ unit_faces) unit_faces 4 4 4 4)
      = Ok samples /\
    List.length samples
      = List.length (covered_pixels (face_map box_footprint tris 4 4)).
Proof.
  apply (remap_succeeds_on_valid_indices
           box_footprint unit_uvs unit_uvs (unit_faces ++ unit_faces) unit_faces 4 4 4 4).
  - discriminate.
  - discriminate.
  - repeat constructor; simpl; lia.
  - repeat constructor; simpl; lia.
Defined.

End RemapTotalExample.

Section OutputImage.

Import UvRepack Resample.

Variable footprint : triangle -> nat -> nat -> bool.
Variable sample_source : point -> rgba.

Lemma set_pixel_length (y x : nat) (c : rgba) (img : canvas) :
  List.length (set_pixel y x c img) = List.length img.
Proof. unfold set_pixel, imap. apply imap_from_length. Qed.

Lemma set_pixel_row (y x : nat) (c : rgba) (img : canvas) (j : nat) :
  (j < List.length img)%nat ->
  nth j (set_pixel y x c img) [] =
  if Nat.eqb j y
  then imap (fun i old => if Nat.eqb i x then c else old) (nth j img [])
  else nth j img [].
Proof.
  intro Hj. unfold set_pixel, imap at 1.
  now rewrite (nth_imap_from _ (@nil rgba) (@nil rgba)) by exact Hj.
Qed.

Lemma set_pixel_row_length (y x : nat) (c : rgba) (img : canvas) (j : nat) :
  (j < List.length img)%nat ->
  List.length (nth j (set_pixel y x c img) []) = List.length (nth j img []).
Proof.
  intro Hj. rewrite set_pixel_row by exact Hj.
  destruct (Nat.eqb j y); [| reflexivity]. unfold imap. apply imap_from_length.
Qed.

Lemma set_pixel_get (y x : nat) (c : rgba) (img : canvas) (i j : nat) :
  (j < List.length img)%nat -> (i < List.length (nth j img []))%nat ->
  pixel (set_pixel y x c img) i j =
  if Nat.eqb j y && Nat.eqb i x then c else pixel img i j.
Proof.
  intros Hj Hi. unfold pixel. rewrite set_pixel_row by exact Hj.
  destruct (Nat.eqb j y); simpl; [| reflexivity].
  unfold imap. now rewrite (nth_imap_from _ transparent transparent) by exact Hi.
Qed.

(** After the scatter of line 173 a pixel holds the colour of a sample
    that addresses it, if there is one, and its old value otherwise. *)
Lemma paint_fold (samples : list sample) :
  forall (img : canvas) (x y : nat),
    (y < List.length img)%nat -> (x < List.length (nth y img []))%nat ->
    let r := fold_left (fun im s =>
                          set_pixel (fst (s_pixel s)) (snd (s_pixel s))
                                    (sample_source (s_source_xy s)) im)
                       samples img in
    ((y < List.length r)%nat /\ (x < List.length (nth y r []))%nat) /\
    ((forall s, In s samples -> s_pixel s <> (y, x)) -> pixel r x y = pixel img x y) /\
    ((exists s, In s samples /\ s_pixel s = (y, x)) ->
     exists s, In s samples /\ s_pixel s = (y, x) /\
               pixel r x y = sample_source (s_source_xy s)).
Proof.
  induction samples as [| s samples IH] using rev_ind; intros img x y Hy Hx; cbv zeta.
  - simpl. split; [tauto |]. split; [reflexivity |]. intros (s & [] & _).
  - rewrite fold_left_app. simpl fold_left.
    destruct (IH img x y Hy Hx) as ((Hy' & Hx') & Hnone & Hsome).
    set (r := fold_left _ samples img) in *.
    split; [| split].
    + split; [now rewrite set_pixel_length |].
      now rewrite set_pixel_row_length.
    + intro Hno. rewrite set_pixel_get by assumption.
      assert (Hs : s_pixel s <> (y, x)) by (apply Hno, in_or_app; right; now left).
      destruct (Nat.eqb_spec y (fst (s_pixel s))) as [Ey | Ny];
        [destruct (Nat.eqb_spec x (snd (s_pixel s))) as [Ex | Nx] |]; simpl.
      * exfalso. apply Hs. destruct (s_pixel s); simpl in *. congruence.
      * apply Hnone. intros s' Hs'. apply Hno, in_or_app. now left.
      * apply Hnone. intros s' Hs'. apply Hno, in_or_app. now left.
    + intros (s' & Hin & Hpx). rewrite set_pixel_get by assumption.
      destruct (Nat.eqb_spec y (fst (s_pixel s))) as [Ey | Ny];
        [destruct (Nat.eqb_spec x (snd (s_pixel s))) as [Ex | Nx] |]; simpl.
      * exists s. split; [apply in_or_app; right; now left |].
        split; [destruct (s_pixel s); simpl in *; congruence | reflexivity].
      * assert (Hin' : In s' samples).
        { apply in_app_or in Hin. destruct Hin as [H | [<- | []]]; [exact H |].
          rewrite Hpx in Nx. simpl in Nx. contradiction. }
        destruct (Hsome (ex_intro _ s' (conj Hin' Hpx))) as (s2 & H2 & P2 & C2).
        exists s2. split; [apply in_or_app; now left | tauto].
      * assert (Hin' : In s' samples).
        { apply in_app_or in Hin. destruct Hin as [H | [<- | []]]; [exact H |].
          rewrite Hpx in Ny. simpl in Ny. contradiction. }
        destruct (Hsome (ex_intro _ s' (conj Hin' Hpx))) as (s2 & H2 & P2 & C2).
        exists s2. split; [apply in_or_app; now left | tauto].
Qed.

Lemma blank_pixel (w h x y : nat) : pixel (blank w h) x y = transparent.
Proof.
  unfold pixel, blank.
  destruct (Nat.lt_ge_cases y h) as [Hy | Hy].
  - rewrite nth_repeat_lt by exact Hy.
    destruct (Nat.lt_ge_cases x w) as [Hx | Hx].
    + now rewrite nth_repeat_lt.
    + apply nth_overflow. rewrite repeat_length. exact Hx.
  - rewrite (nth_overflow (repeat (repeat transparent w) h) [])
      by (rewrite repeat_length; exact Hy).
    now destruct x.
Qed.

Lemma mapM_In_Ok {A B : Type} (f : A -> result B) (l : list A) :
  forall ys, mapM f l = Ok ys ->
             forall a, In a l -> exists y, In y ys /\ f a = Ok y.
Proof.
  induction l as [| a0 l IH]; intros ys H a Ha; simpl in H; [contradiction |].
  destruct (f a0) as [b |] eqn:Hfa; [| discriminate]. simpl in H.
  destruct (mapM f l) as [bs |] eqn:Hl; [| discriminate]. simpl in H.
  inversion H; subst. destruct Ha as [<- | Ha].
  - exists b. split; [now left | exact Hfa].
  - destruct (IH bs eq_refl a Ha) as (y & Hy & Hf). exists y. split; [now right | exact Hf].
Qed.

(** X4.  In the image that [main] saves, which has [dst_h] rows of
    [dst_w] pixels, a pixel that no triangle covers is fully
    transparent, and a covered pixel holds the colour sampled from the
    source at the position computed for that very pixel. *)
Theorem render_fills_exactly_covered_pixels
        (old_uvs new_uvs : list point) (old_faces new_faces : list uv_face)
        (dst_w dst_h src_w src_h : nat) (out : list string) (img : canvas) :
  render footprint sample_source old_uvs new_uvs old_faces new_faces
         dst_w dst_h src_w src_h = (out, Ok img) ->
  exists tris,
    tri_uvs new_uvs (snd (snd (reconcile_faces old_faces new_faces))) dst_w dst_h = Ok tris /\
    List.length img = dst_h /\
    forall x y, (x < dst_w)%nat -> (y < dst_h)%nat ->
      let fm := face_map footprint tris dst_w dst_h in
      List.length (nth y img []) = dst_w /\
      (cell fm x y = 0%Z -> pixel img x y = transparent) /\
      (cell fm x y <> 0%Z ->
       exists s,
         remap_pixel old_uvs new_uvs
                     (fst (snd (reconcile_faces old_faces new_faces)))
                     (snd (snd (reconcile_faces old_faces new_faces)))
                     dst_w dst_h src_w src_h fm (y, x) = Ok s /\
         pixel img x y = sample_source (s_source_xy s)).
Proof.
  unfold render.
  destruct (remap footprint old_uvs new_uvs old_faces new_faces dst_w dst_h src_w src_h)
    as [o [samples |]] eqn:Hr; simpl; [| discriminate].
  intro H. inversion H as [[Ho Himg]]. clear H.
  apply remap_Ok_inv in Hr. destruct Hr as (_ & _ & _ & _ & tris & Htris & Hs).
  set (old' := fst (snd (reconcile_faces old_faces new_faces))) in *.
  set (new' := snd (snd (reconcile_faces old_faces new_faces))) in *.
  set (fm := face_map footprint tris dst_w dst_h) in *.
  exists tris. split; [exact Htris |].
  assert (Hlen0 : List.length (blank dst_w dst_h) = dst_h)
    by (unfold blank; apply repeat_length).
  assert (Hpaint : forall x y, (x < dst_w)%nat -> (y < dst_h)%nat ->
                               (y < List.length (blank dst_w dst_h))%nat /\
                               (x < List.length (nth y (blank dst_w dst_h) []))%nat).
  { intros x y Hx Hy. split; [lia |]. unfold blank.
    rewrite nth_repeat_lt by exact Hy. now rewrite repeat_length. }
  assert (Hdims : forall smp (im : canvas),
             List.length (fold_left (fun im s =>
                                       set_pixel (fst (s_pixel s)) (snd (s_pixel s))
                                                 (sample_source (s_source_xy s)) im)
                                    smp im) = List.length im /\
             forall y, (y < List.length im)%nat ->
                       List.length (nth y (fold_left (fun im s =>
                                       set_pixel (fst (s_pixel s)) (snd (s_pixel s))
                                                 (sample_source (s_source_xy s)) im)
                                    smp im) []) = List.length (nth y im [])).
  { induction smp as [| s smp IH]; intro im; simpl; [tauto |].
    destruct (IH (set_pixel (fst (s_pixel s)) (snd (s_pixel s))
                            (sample_source (s_source_xy s)) im)) as [L R].
    rewrite set_pixel_length in L, R. split; [exact L |].
    intros y Hy. rewrite R by exact Hy. now apply set_pixel_row_length. }
  destruct (Hdims samples (blank dst_w dst_h)) as [HL HR].
  split; [unfold paint; now rewrite HL |].
  intros x y Hx Hy. cbv zeta.
  destruct (Hpaint x y Hx Hy) as [Hy0 Hx0].
  destruct (paint_fold samples (blank dst_w dst_h) x y Hy0 Hx0) as (_ & Hnone & Hsome).
  split; [| split].
  - unfold paint. rewrite HR by exact Hy0. unfold blank.
    rewrite nth_repeat_lt by exact Hy. apply repeat_length.
  - intro Hc. unfold paint. rewrite Hnone; [apply blank_pixel |].
    intros s Hin Hpx.
    destruct (mapM_Ok_In _ _ _ Hs s Hin) as (px & Hcov & Hrp).
    apply remap_pixel_fields in Hrp. destruct Hrp as (Hp & _).
    rewrite Hp in Hpx. subst px. apply covered_pixels_spec in Hcov.
    destruct Hcov as [_ Hpos]. unfold fm in Hpos. lia.
  - intro Hc.
    assert (Hcov : In (y, x) (covered_pixels fm)).
    { apply covered_pixels_spec. split.
      - unfold fm, face_map. apply draw_faces_in_bounds.
        now apply new_image_in_bounds.
      - pose proof (new_image_in_bounds dst_w dst_h 0%Z x y Hx Hy) as Hb0.
        destruct (draw_faces_cell footprint tris 0 _ x y Hb0)
          as [[Hc0 _] | (j & _ & _ & _ & Hcj)].
        + rewrite new_image_cell in Hc0 by assumption. contradiction.
        + unfold fm, face_map. rewrite Hcj. lia. }
    destruct (mapM_In_Ok _ _ _ Hs (y, x) Hcov) as (s & Hin & Hrp).
    exists s. split; [exact Hrp |].
    pose proof (remap_pixel_fields _ _ _ _ _ _ _ _ _ _ _ Hrp) as (Hp & _).
    destruct (Hsome (ex_intro _ s (conj Hin Hp))) as (s2 & Hin2 & Hp2 & Hcol).
    destruct (mapM_Ok_In _ _ _ Hs s2 Hin2) as (px2 & _ & Hrp2).
    pose proof (remap_pixel_fields _ _ _ _ _ _ _ _ _ _ _ Hrp2) as (Hq & _).
    rewrite Hp2 in Hq. subst px2. rewrite Hrp in Hrp2. inversion Hrp2; subst s2.
    exact Hcol.
Qed.

End OutputImage.

Section OutputImageExample.

Import UvRepack Resample.

Lemma render_half_layout_witness :
  exists tris,
    tri_uvs half_uvs (snd (snd (reconcile_faces unit_faces unit_faces))) 4 4 = Ok tris /\
    List.length half_render = 4%nat /\
    forall x y, (x < 4)%nat -> (y < 4)%nat ->
      let fm := face_map box_footprint tris 4 4 in
      List.length (nth y half_render []) = 4%nat /\
      (cell fm x y = 0%Z -> pixel half_render x y = transparent) /\
      (cell fm x y <> 0%Z ->
       exists s,
         remap_pixel unit_uvs half_uvs
                     (fst (snd (reconcile_faces unit_faces unit_faces)))
                     (snd (snd (reconcile_faces unit_faces unit_faces)))
                     4 4 4 4 fm (y, x) = Ok s /\
         pixel half_render x y = floor_sampler (s_source_xy s)).
Proof.
  apply (render_fills_exactly_covered_pixels
           box_footprint floor_sampler unit_uvs half_uvs unit_faces unit_faces
           4 4 4 4 [] half_render).
  vm_compute. reflexivity.
Defined.

End OutputImageExample.

Section ObjParserLines.

Import UvRepack Resample.
Local Open Scope string_scope.

Variable py_float : string -> option Q.
Variable py_int : string -> option Z.

Lemma prefix_nil (s : string) : String.prefix "" s = true.
Proof. now destruct s. Qed.

(** No line starts both with "vt " and with "f ". *)
Lemma vt_line_is_no_face_line (line : string) :
  startswith "vt " line = true -> startswith "f " line = false.
Proof.
  unfold startswith. destruct line as [| c line]; [discriminate |].
  change (String.prefix "vt " (String c line))
    with (if ascii_dec "v" c then String.prefix "t " line else false).
  change (String.prefix "f " (String c line))
    with (if ascii_dec "f" c then String.prefix " " line else false).
  destruct (ascii_dec "v" c) as [<- | _]; [| intro H; discriminate H].
  intros _. reflexivity.
Qed.

Lemma load_lines_filter (lines : list string) :
  forall uvs fs,
    load_lines py_float py_int (filter relevant lines) uvs fs =
    load_lines py_float py_int lines uvs fs.
Proof.
  induction lines as [| line rest IH]; intros uvs fs; [reflexivity |].
  simpl. unfold relevant at 1.
  destruct (startswith "vt " line) eqn:Hvt; simpl.
  - rewrite Hvt. destruct (parse_vt py_float line); simpl; [apply IH | reflexivity].
  - destruct (startswith "f " line) eqn:Hf; simpl.
    + rewrite Hvt, Hf. destruct (parse_face_line py_int line); simpl; [apply IH | reflexivity].
    + apply IH.
Qed.

Lemma load_lines_structure (lines : list string) :
  forall uvs fs uvs' fs',
    load_lines py_float py_int lines uvs fs = Ok (uvs', fs') ->
    exists us fss,
      mapM (parse_vt py_float) (filter (startswith "vt ") lines) = Ok us /\
      mapM (parse_face_line py_int) (filter (startswith "f ") lines) = Ok fss /\
      uvs' = (uvs ++ us)%list /\ fs' = (fs ++ List.concat fss)%list.
Proof.
  induction lines as [| line rest IH]; intros uvs fs uvs' fs' H; simpl in H.
  - inversion H; subst. exists [], []. simpl. now rewrite !app_nil_r.
  - simpl filter. destruct (startswith "vt " line) eqn:Hvt.
    + rewrite (vt_line_is_no_face_line line Hvt).
      destruct (parse_vt py_float line) as [uv |] eqn:Huv; [| discriminate].
      simpl in H. apply IH in H. destruct H as (us & fss & Hu & Hf & -> & ->).
      exists (uv :: us), fss. simpl. rewrite Huv, Hu. simpl.
      split; [reflexivity |]. split; [exact Hf |]. now rewrite <- app_assoc.
    + destruct (startswith "f " line) eqn:Hf.
      * destruct (parse_face_line py_int line) as [f1 |] eqn:Hf1; [| discriminate].
        simpl in H. apply IH in H. destruct H as (us & fss & Hu & Hfs & -> & ->).
        exists us, (f1 :: fss). simpl. rewrite Hf1, Hfs. simpl.
        split; [exact Hu |]. split; [reflexivity |]. now rewrite <- app_assoc.
      * apply IH in H. exact H.
Qed.

(** X5.  [load_obj_uv] reads nothing but the [vt] and the [f] lines:
    dropping every other line of a file changes neither the result nor
    the exception.  When it succeeds, the UV list holds the parsed [vt]
    lines in file order, one entry per line, and the face list is the
    concatenation, in file order, of the fans of the [f] lines. *)
Theorem load_obj_uv_is_line_by_line (lines : list string) :
  load_obj_uv py_float py_int (filter relevant lines) = load_obj_uv py_float py_int lines /\
  forall uvs uv_faces,
    load_obj_uv py_float py_int lines = Ok (uvs, uv_faces) ->
    mapM (parse_vt py_float) (filter (startswith "vt ") lines) = Ok uvs /\
    List.length uvs = List.length (filter (startswith "vt ") lines) /\
    exists fss,
      mapM (parse_face_line py_int) (filter (startswith "f ") lines) = Ok fss /\
      uv_faces = List.concat fss.
Proof.
  split; [apply load_lines_filter |].
  intros uvs uv_faces H. unfold load_obj_uv in H.
  apply load_lines_structure in H. destruct H as (us & fss & Hu & Hf & -> & ->).
  simpl. split; [exact Hu |]. split; [now apply mapM_length in Hu |].
  exists fss. split; [exact Hf | reflexivity].
Qed.

Lemma split_ws_vt_line (tokens : list string) :
  Forall (fun e => no_space e = true /\ nonempty e = true) tokens ->
  split_ws (vt_line tokens) = "vt" :: tokens.
Proof.
  intro H. unfold split_ws, vt_line. simpl.
  now apply split_ws_from_entries.
Qed.

(** X6.  A [vt] line with at least two coordinate tokens that
    [float()] reads gives the first value and one minus the second;
    further tokens are ignored.  With a single token the line raises
    [IndexError], and a first token that [float()] rejects raises
    [ValueError]. *)
Theorem vt_line_flips_v (su sv : string) (more : list string) (u v : Q) :
  Forall (fun e => no_space e = true /\ nonempty e = true) (su :: sv :: more) ->
  py_float su = Some u ->
  (py_float sv = Some v ->
   parse_vt py_float (vt_line (su :: sv :: more)) = Ok (u, (1 - v)%Q) /\
   load_obj_uv py_float py_int [vt_line (su :: sv :: more)] = Ok ([(u, (1 - v)%Q)], [])) /\
  parse_vt py_float (vt_line [su]) = Raise IndexError /\
  (forall bad, no_space bad = true -> nonempty bad = true -> py_float bad = None ->
               parse_vt py_float (vt_line (bad :: sv :: more)) = Raise ValueError).
Proof.
  intros Htok Hu. inversion Htok as [| ? ? Hsu Hrest]; subst.
  split; [| split].
  - intro Hv.
    assert (Hp : parse_vt py_float (vt_line (su :: sv :: more)) = Ok (u, (1 - v)%Q)).
    { unfold parse_vt. rewrite (split_ws_vt_line _ Htok). simpl.
      unfold to_float. rewrite Hu. simpl. now rewrite Hv. }
    split; [exact Hp |].
    unfold load_obj_uv, load_lines.
    assert (Hst : startswith "vt " (vt_line (su :: sv :: more)) = true).
    { unfold startswith, vt_line. simpl. apply prefix_nil. }
    now rewrite Hst, Hp.
  - unfold parse_vt. rewrite (split_ws_vt_line [su]) by (constructor; [exact Hsu | constructor]).
    simpl. unfold to_float. now rewrite Hu.
  - intros bad Hb1 Hb2 Hbad. unfold parse_vt.
    rewrite (split_ws_vt_line (bad :: sv :: more)) by (constructor; [tauto | exact Hrest]).
    simpl. unfold to_float. now rewrite Hbad.
Qed.

End ObjParserLines.

Section ObjParserLinesExamples.

Import UvRepack Resample.
Local Open Scope string_scope.

Lemma vt_line_witness :
  (parse_vt integer_float (vt_line ["0"; "1"; "0"]) = Ok (0%Q, (1 - 1)%Q) /\
   load_obj_uv integer_float decimal_int [vt_line ["0"; "1"; "0"]]
     = Ok ([(0%Q, (1 - 1)%Q)], [])) /\
  parse_vt integer_float (vt_line ["0"]) = Raise IndexError /\
  parse_vt integer_float (vt_line ["x"; "1"; "0"]) = Raise ValueError.
Proof.
  destruct (vt_line_flips_v integer_float decimal_int "0" "1" ["0"] 0%Q 1%Q)
    as (Hok & Hshort & Hbad).
  - repeat constructor.
  - reflexivity.
  - split; [apply Hok; reflexivity |]. split; [exact Hshort |].
    apply Hbad; reflexivity.
Defined.

(** A small file: two comment and geometry lines around the lines the
    parser reads. *)
Example small_file_parses :
  load_obj_uv integer_float decimal_int
              [ "# exported"; "v 0 0 0"; vt_line ["0"; "0"]; vt_line ["1"; "0"];
                vt_line ["0"; "1"]; "vn 0 0 1"; face_line ["1/1"; "2/2"; "3/3"] ]
  = Ok ([(0, 1 - 0); (1, 1 - 0); (0, 1 - 1)]%Q, [(0, 1, 2)%Z]).
Proof. vm_compute. reflexivity. Qed.

End ObjParserLinesExamples.

Section UvReferences.

Import UvRepack Resample.

Variable py_int : string -> option Z.

Lemma np_index_wraps {A : Type} (a : list A) (d : A) (k : Z) :
  (- Z.of_nat (List.length a) <= k < 0)%Z ->
  np_index a k = Ok (nth (Z.to_nat (k + Z.of_nat (List.length a))) a d).
Proof.
  intro Hk. unfold np_index.
  destruct (Z.ltb_spec k 0) as [_ | Hpos]; [| lia].
  destruct (Z.leb_spec 0 (k + Z.of_nat (List.length a))) as [_ | Hneg]; [| lia].
  destruct (Z.ltb_spec (k + Z.of_nat (List.length a)) (Z.of_nat (List.length a)))
    as [_ | Hbig]; [| lia].
  simpl.
  destruct (nth_error a (Z.to_nat (k + Z.of_nat (List.length a)))) as [x |] eqn:E.
  - now rewrite (nth_error_nth _ _ d E).
  - apply nth_error_None in E. lia.
Qed.

Lemma np_index_out_of_range {A : Type} (a : list A) (k : Z) :
  (Z.of_nat (List.length a) <= k \/ k < - Z.of_nat (List.length a))%Z ->
  np_index a k = Raise IndexError.
Proof.
  intro Hk. unfold np_index.
  destruct (Z.ltb_spec k 0) as [Hneg | Hpos].
  - destruct (Z.leb_spec 0 (k + Z.of_nat (List.length a))) as [H0 | _]; [lia | reflexivity].
  - destruct (Z.leb_spec 0 k) as [_ | H0]; [| lia].
    destruct (Z.ltb_spec k (Z.of_nat (List.length a))) as [Hlt | _]; [lia | reflexivity].
Qed.

Lemma last_is_nth {A : Type} (a : list A) (d : A) :
  last a d = nth (List.length a - 1) a d.
Proof.
  induction a as [| x a IH]; [reflexivity |].
  destruct a as [| y a]; [reflexivity |].
  change (last (x :: y :: a) d) with (last (y :: a) d). rewrite IH.
  simpl. now rewrite Nat.sub_0_r.
Qed.

(** X7.  A triangle face line whose entries cite the UV indices [k1],
    [k2], [k3] parses to the single face [(k1-1, k2-1, k3-1)].  With
    all three indices between 1 and the number of UV coordinates the
    face refers to the cited coordinates, counted from 1.  An index 0
    is not rejected: it refers to the last coordinate.  A negative
    index [k] above minus the number [n] of coordinates refers to the
    coordinate [n + k - 1] (0-based).  An index beyond the list, either
    way, raises [IndexError]. *)
Theorem face_line_uv_references
        (uvs : list point) (d : point) (e1 e2 e3 : string) (k1 k2 k3 : Z) :
  no_space e1 = true -> no_space e2 = true -> no_space e3 = true ->
  carries_uv py_int e1 k1 -> carries_uv py_int e2 k2 -> carries_uv py_int e3 k3 ->
  let n := Z.of_nat (List.length uvs) in
  parse_face_line py_int (face_line [e1; e2; e3])
    = Ok [((k1 - 1)%Z, (k2 - 1)%Z, (k3 - 1)%Z)] /\
  ((1 <= k1 <= n)%Z -> (1 <= k2 <= n)%Z -> (1 <= k3 <= n)%Z ->
   gather uvs ((k1 - 1)%Z, (k2 - 1)%Z, (k3 - 1)%Z)
     = Ok (nth (Z.to_nat (k1 - 1)) uvs d,
           nth (Z.to_nat (k2 - 1)) uvs d,
           nth (Z.to_nat (k3 - 1)) uvs d)) /\
  (k1 = 0%Z -> uvs <> [] -> np_index uvs (k1 - 1) = Ok (last uvs d)) /\
  ((- n < k1 < 0)%Z ->
   np_index uvs (k1 - 1) = Ok (nth (Z.to_nat (n + k1 - 1)) uvs d)) /\
  ((n < k1 \/ k1 <= - n)%Z ->
   gather uvs ((k1 - 1)%Z, (k2 - 1)%Z, (k3 - 1)%Z) = Raise IndexError).
Proof.
  intros S1 S2 S3 C1 C2 C3 n.
  split; [| split; [| split; [| split]]].
  - unfold parse_face_line. rewrite split_ws_face_line.
    + simpl tl.
      rewrite (face_uv_indices_all py_int [e1; e2; e3] [k1; k2; k3])
        by (repeat constructor; assumption).
      reflexivity.
    + repeat constructor; try assumption;
        eapply carries_uv_nonempty; eassumption.
  - intros H1 H2 H3. unfold gather.
    assert (Hi : forall k, (1 <= k <= n)%Z ->
                           np_index uvs (k - 1) = Ok (nth (Z.to_nat (k - 1)) uvs d)).
    { intros k Hk. rewrite <- (Z2Nat.id (k - 1)) at 1 by lia.
      apply np_index_nat. unfold n in Hk. lia. }
    now rewrite (Hi k1 H1), (Hi k2 H2), (Hi k3 H3).
  - intros -> Hne. rewrite (np_index_wraps uvs d) by (destruct uvs; [contradiction | simpl; lia]).
    rewrite last_is_nth. f_equal. f_equal. lia.
  - intro Hk. rewrite (np_index_wraps uvs d) by (unfold n in Hk; lia).
    f_equal. f_equal. unfold n. lia.
  - intro Hk. unfold gather.
    rewrite np_index_out_of_range by (unfold n in Hk; lia). reflexivity.
Qed.

End UvReferences.

Section UvReferencesExample.

Import UvRepack Resample.
Local Open Scope string_scope.

Lemma carries_uv_simple (v t : string) (k : Z) :
  no_slash v = true -> no_slash t = true -> nonempty t = true ->
  decimal_int t = Some k -> carries_uv decimal_int (v ++ "/" ++ t) k.
Proof.
  intros Hv Ht Hne Hk. exists v, t, "". rewrite append_empty_r.
  repeat split; try assumption. now left.
Qed.

Lemma face_line_uv_references_witness :
  parse_face_line decimal_int (face_line ["1/0"; "2/2"; "3/3"])
    = Ok [((0 - 1)%Z, (2 - 1)%Z, (3 - 1)%Z)] /\
  np_index unit_uvs (0 - 1) = Ok (last unit_uvs (0, 0)%Q).
Proof.
  destruct (face_line_uv_references decimal_int unit_uvs (0, 0)%Q
              "1/0" "2/2" "3/3" 0 2 3)
    as (Hparse & _ & Hzero & _); try reflexivity.
  - apply (carries_uv_simple "1" "0"); reflexivity.
  - apply (carries_uv_simple "2" "2"); reflexivity.
  - apply (carries_uv_simple "3" "3"); reflexivity.
  - split; [exact Hparse |]. apply Hzero; [reflexivity | discriminate].
Defined.

End UvReferencesExample.

(* ================================================================== *)
(** * Further properties of [scripts/preprocess.py] *)
(* ================================================================== *)

Section StableRuns.

Import Preprocess PreprocessProps.

Lemma seq_snoc (a n : nat) : seq a (S n) = (seq a n ++ [(a + n)%nat])%list.
Proof. now rewrite seq_S. Qed.

(** The stable bins, in order, are what the loop distributes over the
    finished segments, the segment being read and the bins to come. *)
Lemma group_stable_concat (is_stable : list bool) :
  forall i segments current,
    List.concat (group_stable i is_stable segments current) =
    (List.concat segments ++ current
       ++ filter (fun j => nth (j - i) is_stable false) (seq i (List.length is_stable)))%list.
Proof.
  induction is_stable as [| b rest IH]; intros i segments current.
  - simpl. destruct current as [| c cs].
    + now rewrite app_nil_r.
    + rewrite concat_app. simpl. now rewrite !app_nil_r.
  - assert (Hshift : filter (fun j => nth (j - i) (b :: rest) false)
                            (seq (S i) (List.length rest))
                     = filter (fun j => nth (j - S i) rest false)
                              (seq (S i) (List.length rest))).
    { apply filter_ext_in. intros j Hj. apply in_seq in Hj.
      replace (j - i)%nat with (S (j - S i)) by lia. reflexivity. }
    change (seq i (List.length (b :: rest))) with (i :: seq (S i) (List.length rest)).
    cbn [filter]. rewrite Nat.sub_diag.
    change (nth 0 (b :: rest) false) with b. rewrite Hshift.
    simpl group_stable. destruct b.
    + rewrite IH. now rewrite <- !app_assoc.
    + destruct current as [| c cs].
      * now rewrite IH.
      * rewrite IH. rewrite concat_app. simpl. now rewrite app_nil_r, <- !app_assoc.
Qed.

Lemma nth_after_prefix (prefix : list bool) (b : bool) (rest : list bool) :
  nth (List.length prefix) (prefix ++ b :: rest) false = b.
Proof. rewrite app_nth2 by lia. now rewrite Nat.sub_diag. Qed.

(** Every finished segment is a maximal run: consecutive indices, with
    an unstable bin, or no bin, on either side. *)
Lemma group_stable_runs (is_stable : list bool) :
  forall (prefix : list bool) (i : nat) (segments : list (list nat)) (current : list nat),
    List.length prefix = i ->
    let full := (prefix ++ is_stable)%list in
    Forall (maximal_run full) segments ->
    current = seq (i - List.length current) (List.length current) ->
    (List.length current <= i)%nat ->
    (i - List.length current = 0 \/
     nth (i - List.length current - 1) full false = false)%nat ->
    Forall (maximal_run full) (group_stable i is_stable segments current).
Proof.
  induction is_stable as [| b rest IH];
    intros prefix i segments current Hlen full Hsegs Hcur Hle Hbefore.
  - simpl. destruct current as [| c cs]; [exact Hsegs |].
    apply Forall_app. split; [exact Hsegs |]. constructor; [| constructor].
    unfold maximal_run. rewrite Hcur. simpl List.length in *. rewrite length_seq.
    simpl hd. split; [discriminate |]. split; [reflexivity |].
    split; [exact Hbefore |].
    apply nth_overflow. unfold full. rewrite app_nil_r. lia.
  - assert (Hfull : full = ((prefix ++ [b]) ++ rest)%list)
      by (unfold full; now rewrite <- app_assoc).
    assert (Hb : nth i full false = b)
      by (unfold full; rewrite <- Hlen; apply nth_after_prefix).
    assert (Hlen' : List.length (prefix ++ [b]) = S i)
      by (rewrite length_app; simpl; lia).
    simpl group_stable. destruct b.
    + specialize (IH (prefix ++ [true])%list (S i) segments (current ++ [i])%list Hlen').
      cbv zeta in IH. rewrite <- Hfull in IH. apply IH.
      * exact Hsegs.
      * rewrite length_app. simpl List.length.
        replace (S i - (List.length current + 1))%nat with (i - List.length current)%nat
          by lia.
        replace (List.length current + 1)%nat with (S (List.length current)) by lia.
        rewrite seq_snoc, <- Hcur. f_equal. f_equal. lia.
      * rewrite length_app. simpl. lia.
      * rewrite length_app. simpl List.length.
        replace (S i - (List.length current + 1))%nat with (i - List.length current)%nat
          by lia.
        exact Hbefore.
    + destruct current as [| c cs].
      * specialize (IH (prefix ++ [false])%list (S i) segments [] Hlen').
        cbv zeta in IH. rewrite <- Hfull in IH. apply IH.
        -- exact Hsegs.
        -- reflexivity.
        -- simpl. lia.
        -- right. simpl. rewrite Nat.sub_0_r. exact Hb.
      * specialize (IH (prefix ++ [false])%list (S i) (segments ++ [c :: cs])%list [] Hlen').
        cbv zeta in IH. rewrite <- Hfull in IH. apply IH.
        -- apply Forall_app. split; [exact Hsegs |]. constructor; [| constructor].
           unfold maximal_run. rewrite Hcur. simpl List.length in *. rewrite length_seq.
           simpl hd. split; [discriminate |]. split; [reflexivity |].
           split; [exact Hbefore |].
           replace (i - S (List.length cs) + S (List.length cs))%nat with i by lia.
           exact Hb.
        -- reflexivity.
        -- simpl. lia.
        -- right. simpl. rewrite Nat.sub_0_r. exact Hb.
Qed.

Lemma stable_segments_runs (is_stable : list bool) :
  List.concat (stable_segments is_stable)
    = filter (fun i => nth i is_stable false) (seq 0 (List.length is_stable)) /\
  Forall (maximal_run is_stable) (stable_segments is_stable).
Proof.
  split.
  - unfold stable_segments. rewrite group_stable_concat. simpl.
    apply filter_ext. intro j. now rewrite Nat.sub_0_r.
  - apply (group_stable_runs is_stable [] 0 [] []); simpl; auto.
Qed.

(** X8.  The segments found by the grouping loop are exactly the
    maximal runs of stable bins: listed one after the other they give
    the indices of the stable bins in increasing order, and each
    segment is a non-empty run of consecutive indices with an unstable
    bin, or the end of the profile, immediately before and after it. *)
Theorem stable_segments_are_maximal_runs (is_stable : list bool) :
  List.concat (stable_segments is_stable)
    = filter (fun i => nth i is_stable false) (seq 0 (List.length is_stable)) /\
  Forall (fun seg =>
            seg <> [] /\
            seg = seq (hd O seg) (List.length seg) /\
            (hd O seg = O \/ nth (hd O seg - 1) is_stable false = false) /\
            nth (hd O seg + List.length seg) is_stable false = false)
         (stable_segments is_stable).
Proof.
  split.
  - unfold stable_segments. rewrite group_stable_concat. simpl.
    apply filter_ext. intro j. now rewrite Nat.sub_0_r.
  - apply (group_stable_runs is_stable [] 0 [] []); simpl; auto.
Qed.

End StableRuns.

Section Ranking.

Import Preprocess PreprocessProps.

Variable pow03 : Q -> Q.
Variable bins : nat.
Variables profile_smooth bin_centers : list Q.

(** The segment held after the loop is the one held before it or one
    of the segments the loop has read. *)
Lemma rank_step_member (out : list event) (best_score : Q) (best seg : list nat) :
  forall out' best_score' best',
    rank_step pow03 bins profile_smooth bin_centers (out, best_score, best) seg
      = (out', best_score', best') ->
    best' = best \/ best' = seg.
Proof.
  intros out' bs' best' H. unfold rank_step in H.
  destruct (too_short (List.length seg) bins).
  - injection H as _ _ <-. now left.
  - destruct (Qlt_le_dec best_score _); injection H as _ _ <-; [now right | now left].
Qed.

Lemma rank_fold_member (segments : list (list nat)) :
  forall out best_score best out' best_score' best',
    fold_left (rank_step pow03 bins profile_smooth bin_centers) segments
              (out, best_score, best) = (out', best_score', best') ->
    best' = best \/ In best' segments.
Proof.
  induction segments as [| seg rest IH]; intros out bs best out' bs' best' H.
  - simpl in H. injection H as _ _ <-. now left.
  - cbn [fold_left] in H.
    destruct (rank_step pow03 bins profile_smooth bin_centers (out, bs, best) seg)
      as [[o1 b1] s1] eqn:Hstep.
    apply rank_step_member in Hstep.
    destruct (IH _ _ _ _ _ _ H) as [-> | Hin]; [| right; now right].
    destruct Hstep as [-> | ->]; [now left | right; now left].
Qed.

Hypothesis pow03_nonneg : forall r, 0 <= pow03 r.

Lemma segment_score_nonneg (seg : list nat) : 0 <= segment_score pow03 profile_smooth seg.
Proof.
  unfold segment_score. apply Qmult_le_0_compat; [| apply pow03_nonneg].
  change 0 with (inject_Z 0). rewrite <- Zle_Qle. lia.
Qed.

Lemma rank_step_state (seen : list (list nat)) (out : list event) (best_score : Q)
      (best seg : list nat) :
  ranking_state pow03 bins profile_smooth seen best_score best ->
  exists out' best_score' best',
    rank_step pow03 bins profile_smooth bin_centers (out, best_score, best) seg
      = (out', best_score', best') /\
    ranking_state pow03 bins profile_smooth (seen ++ [seg]) best_score' best'.
Proof.
  intro Hst. unfold rank_step.
  destruct (too_short (List.length seg) bins) eqn:Hshort.
  - exists out, best_score, best. split; [reflexivity |].
    destruct Hst as [(Hb & Hs & Hall) | (Hs & Hel & before & after & Hseen & Hbefore & Hafter)].
    + left. repeat split; trivial. intros s Hin.
      apply in_app_or in Hin as [Hin | [<- | []]]; auto.
    + right. repeat split; trivial.
      exists before, (after ++ [seg])%list. split; [| split].
      * rewrite Hseen, <- app_assoc. reflexivity.
      * exact Hbefore.
      * intros s Hin Hs'. apply in_app_or in Hin as [Hin | [<- | []]]; [auto |].
        rewrite Hshort in Hs'. discriminate.
  - fold (segment_score pow03 profile_smooth seg).
    destruct (Qlt_le_dec best_score (segment_score pow03 profile_smooth seg)) as [Hlt | Hge].
    + eexists _, _, _. split; [reflexivity |].
      right. split; [reflexivity |]. split; [exact Hshort |].
      exists seen, []. split; [reflexivity |]. split; [| intros s []].
      intros s Hin Hs'.
      destruct Hst as [(Hb & Hs & Hall) | (Hs & Hel & before & after & Hseen & Hbefore & Hafter)].
      * rewrite (Hall s Hin) in Hs'. discriminate.
      * rewrite Hs in Hlt. eapply Qle_lt_trans; [| exact Hlt].
        rewrite Hseen in Hin. apply in_app_or in Hin as [Hin | [<- | Hin]].
        -- apply Qlt_le_weak. auto.
        -- apply Qle_refl.
        -- auto.
    + eexists _, _, _. split; [reflexivity |].
      destruct Hst as [(Hb & Hs & Hall) | (Hs & Hel & before & after & Hseen & Hbefore & Hafter)].
      * exfalso. rewrite Hs in Hge.
        pose proof (segment_score_nonneg seg) as H0.
        assert (H1 : 0 <= - (1)) by (eapply Qle_trans; eassumption).
        revert H1. apply Qlt_not_le. reflexivity.
      * right. repeat split; trivial.
        exists before, (after ++ [seg])%list. split; [| split].
        -- rewrite Hseen, <- app_assoc. reflexivity.
        -- exact Hbefore.
        -- intros s Hin Hs'. apply in_app_or in Hin as [Hin | [<- | []]]; [auto |].
           rewrite <- Hs. exact Hge.
Qed.

Lemma rank_fold_state (segments : list (list nat)) :
  forall seen out best_score best,
    ranking_state pow03 bins profile_smooth seen best_score best ->
    exists out' best_score' best',
      fold_left (rank_step pow03 bins profile_smooth bin_centers) segments
                (out, best_score, best) = (out', best_score', best') /\
      ranking_state pow03 bins profile_smooth (seen ++ segments) best_score' best'.
Proof.
  induction segments as [| seg rest IH]; intros seen out bs best Hst.
  - exists out, bs, best. rewrite app_nil_r. split; [reflexivity | exact Hst].
  - destruct (rank_step_state seen out bs best seg Hst) as (o1 & bs1 & b1 & Hstep & Hst1).
    destruct (IH _ o1 bs1 b1 Hst1) as (o2 & bs2 & b2 & Hfold & Hst2).
    exists o2, bs2, b2. split.
    + cbn [fold_left]. rewrite Hstep. exact Hfold.
    + rewrite <- app_assoc in Hst2. exact Hst2.
Qed.

(** X9.  Ranking.  When some run of stable bins is long enough to be
    ranked, and the power routine returns no negative values, the
    function selects a ranked run of the highest score
    [length * radius ** 0.3]; among runs of equal score it selects the
    first.  Runs shorter than 5 % of the bins never win, whatever
    their score. *)
Theorem ranking_selects_first_best_segment (is_stable : list bool) :
  (exists seg, In seg (stable_segments is_stable) /\
               too_short (List.length seg) bins = false) ->
  exists out before best after,
    select_segment pow03 bins profile_smooth bin_centers (stable_segments is_stable)
      = (out, Done best) /\
    stable_segments is_stable = (before ++ best :: after)%list /\
    too_short (List.length best) bins = false /\
    (forall seg, In seg before -> too_short (List.length seg) bins = false ->
       segment_score pow03 profile_smooth seg < segment_score pow03 profile_smooth best) /\
    (forall seg, In seg after -> too_short (List.length seg) bins = false ->
       segment_score pow03 profile_smooth seg <= segment_score pow03 profile_smooth best).
Proof.
  intros (seg0 & Hin0 & Hel0).
  pose proof (proj2 (stable_segments_runs is_stable)) as Hruns.
  unfold select_segment.
  destruct (stable_segments is_stable) as [| s0 rest] eqn:Hsegs; [destruct Hin0 |].
  destruct (rank_fold_state (s0 :: rest) [] [Detected (List.length (s0 :: rest))]
                            (- (1)) [])
    as (out & bs & best & Hfold & Hst).
  { left. repeat split. intros s []. }
  rewrite Hfold. simpl app in Hst.
  destruct Hst as [(_ & _ & Hall) | (Hs & Hel & before & after & Hseen & Hbefore & Hafter)].
  - rewrite (Hall seg0 Hin0) in Hel0. discriminate.
  - exists out, before, best, after.
    assert (Hin : In best (s0 :: rest))
      by (rewrite Hseen; apply in_or_app; right; now left).
    rewrite Forall_forall in Hruns. destruct (Hruns best Hin) as (Hne & _).
    destruct best as [| b bs']; [congruence |].
    repeat split; trivial.
Qed.

End Ranking.

Section RankingExample.

Import Preprocess PreprocessProps.

Example two_runs_segments : stable_segments two_runs = [seq 0 10; seq 11 20].
Proof. reflexivity. Qed.

Lemma ranking_witness :
  exists out before best after,
    select_segment Qabs 40 (repeat 1 40) (repeat 0 40) (stable_segments two_runs)
      = (out, Done best) /\
    stable_segments two_runs = (before ++ best :: after)%list /\
    too_short (List.length best) 40 = false /\
    (forall seg, In seg before -> too_short (List.length seg) 40 = false ->
       segment_score Qabs (repeat 1 40) seg < segment_score Qabs (repeat 1 40) best) /\
    (forall seg, In seg after -> too_short (List.length seg) 40 = false ->
       segment_score Qabs (repeat 1 40) seg <= segment_score Qabs (repeat 1 40) best).
Proof.
  apply (ranking_selects_first_best_segment Qabs 40 (repeat 1 40) (repeat 0 40)
           Qabs_nonneg two_runs).
  exists (seq 0 10). split; [left; reflexivity | reflexivity].
Defined.

(** On that profile the longer of the two runs wins. *)
Example two_runs_selection :
  snd (select_segment Qabs 40 (repeat 1 40) (repeat 0 40) (stable_segments two_runs))
    = Done (seq 11 20).
Proof. vm_compute. reflexivity. Qed.

End RankingExample.

Section BinEdges.

Import Preprocess PreprocessProps.

Lemma qmin_le_l (a b : Q) : qmin a b <= a.
Proof. unfold qmin. destruct (Qlt_le_dec b a); [now apply Qlt_le_weak | apply Qle_refl]. Qed.

Lemma qmin_le_r (a b : Q) : qmin a b <= b.
Proof. unfold qmin. destruct (Qlt_le_dec b a); [apply Qle_refl | assumption]. Qed.

Lemma qmax_ge_l (a b : Q) : a <= qmax a b.
Proof. unfold qmax. destruct (Qlt_le_dec a b); [now apply Qlt_le_weak | apply Qle_refl]. Qed.

Lemma qmax_ge_r (a b : Q) : b <= qmax a b.
Proof. unfold qmax. destruct (Qlt_le_dec a b); [apply Qle_refl | assumption]. Qed.

Lemma fold_qmin_le (r : list Q) :
  forall x, fold_left qmin r x <= x /\ forall y, In y r -> fold_left qmin r x <= y.
Proof.
  induction r as [| a r IH]; intro x; simpl.
  - split; [apply Qle_refl | intros y []].
  - destruct (IH (qmin x a)) as [H1 H2]. split.
    + eapply Qle_trans; [exact H1 | apply qmin_le_l].
    + intros y [<- | Hy]; [| now apply H2].
      eapply Qle_trans; [exact H1 | apply qmin_le_r].
Qed.

Lemma fold_qmax_ge (r : list Q) :
  forall x, x <= fold_left qmax r x /\ forall y, In y r -> y <= fold_left qmax r x.
Proof.
  induction r as [| a r IH]; intro x; simpl.
  - split; [apply Qle_refl | intros y []].
  - destruct (IH (qmax x a)) as [H1 H2]. split.
    + eapply Qle_trans; [apply qmax_ge_l | exact H1].
    + intros y [<- | Hy]; [| now apply H2].
      eapply Qle_trans; [apply qmax_ge_r | exact H1].
Qed.

Lemma list_min_le (l : list Q) (x : Q) : In x l -> list_min l <= x.
Proof.
  destruct l as [| a r]; [intros [] |]. simpl.
  destruct (fold_qmin_le r a) as [H1 H2]. intros [<- | Hx]; auto.
Qed.

Lemma list_max_ge (l : list Q) (x : Q) : In x l -> x <= list_max l.
Proof.
  destruct l as [| a r]; [intros [] |]. simpl.
  destruct (fold_qmax_ge r a) as [H1 H2]. intros [<- | Hx]; auto.
Qed.

Lemma linspace_nth (a b : Q) (bins i : nat) :
  (i <= bins)%nat -> nth i (linspace a b (bins + 1)) 0 = edge a b bins i.
Proof.
  intro Hi. unfold linspace, edge. rewrite Nat.add_sub.
  set (g := fun j : nat => a + inject_Z (Z.of_nat j) * ((b - a) / inject_Z (Z.of_nat bins))).
  rewrite (nth_indep _ 0 (g O)) by (rewrite length_map, length_seq; lia).
  rewrite map_nth. rewrite seq_nth by lia. reflexivity.
Qed.

Lemma linspace_edges (a b : Q) (bins : nat) :
  linspace a b (bins + 1) = map (edge a b bins) (seq 0 (bins + 1)).
Proof. unfold linspace, edge. now rewrite Nat.add_sub. Qed.

Lemma inject_nat_pos (n : nat) : (1 <= n)%nat -> 0 < inject_Z (Z.of_nat n).
Proof. intro H. change 0 with (inject_Z 0). rewrite <- Zlt_Qlt. lia. Qed.

Lemma inject_nat_le (i j : nat) : (i <= j)%nat -> inject_Z (Z.of_nat i) <= inject_Z (Z.of_nat j).
Proof. intro H. rewrite <- Zle_Qle. lia. Qed.

Lemma inject_nat_lt (i j : nat) : (i < j)%nat -> inject_Z (Z.of_nat i) < inject_Z (Z.of_nat j).
Proof. intro H. rewrite <- Zlt_Qlt. lia. Qed.

Lemma step_nonneg (a b : Q) (bins : nat) :
  a <= b -> 0 <= (b - a) / inject_Z (Z.of_nat bins).
Proof.
  intro Hab. destruct bins as [| n].
  - unfold Qdiv. simpl. rewrite Qmult_0_r. apply Qle_refl.
  - apply Qle_shift_div_l; [apply inject_nat_pos; lia |].
    rewrite Qmult_0_l. lra.
Qed.

Lemma step_pos (a b : Q) (bins : nat) :
  a < b -> (1 <= bins)%nat -> 0 < (b - a) / inject_Z (Z.of_nat bins).
Proof.
  intros Hab Hb. apply Qlt_shift_div_l; [now apply inject_nat_pos |].
  rewrite Qmult_0_l. lra.
Qed.

Lemma edge_first (a b : Q) (bins : nat) : edge a b bins 0 == a.
Proof. unfold edge. simpl. ring. Qed.

Lemma edge_last (a b : Q) (bins : nat) : (1 <= bins)%nat -> edge a b bins bins == b.
Proof.
  intro Hb. unfold edge. pose proof (inject_nat_pos bins Hb) as Hpos.
  field. intro E. rewrite E in Hpos. now apply Qlt_irrefl in Hpos.
Qed.

Lemma edge_mono (a b : Q) (bins i j : nat) :
  a <= b -> (i <= j)%nat -> edge a b bins i <= edge a b bins j.
Proof.
  intros Hab Hij. unfold edge.
  pose proof (step_nonneg a b bins Hab) as Hs.
  pose proof (inject_nat_le i j Hij) as Hq.
  set (s := (b - a) / inject_Z (Z.of_nat bins)) in *.
  nra.
Qed.

Lemma edge_strict (a b : Q) (bins i j : nat) :
  a < b -> (1 <= bins)%nat -> (i < j)%nat -> edge a b bins i < edge a b bins j.
Proof.
  intros Hab Hb Hij. unfold edge.
  pose proof (step_pos a b bins Hab Hb) as Hs.
  pose proof (inject_nat_lt i j Hij) as Hq.
  set (s := (b - a) / inject_Z (Z.of_nat bins)) in *.
  nra.
Qed.

(** Counting the members of a list that pass a test which, once
    failed, fails for all later members. *)
Lemma count_prefix (b : nat -> bool) :
  (forall i j, (i <= j)%nat -> b j = true -> b i = true) ->
  forall m,
    let c := List.length (filter b (seq 0 m)) in
    (c <= m)%nat /\
    (forall i, (i < c)%nat -> b i = true) /\
    (forall i, (c <= i < m)%nat -> b i = false).
Proof.
  intros Hmono m. induction m as [| m (IHle & IHt & IHf)]; cbv zeta.
  - simpl. repeat split; intros; lia.
  - rewrite seq_S, filter_app, length_app. simpl filter.
    destruct (b m) eqn:Hbm; simpl List.length.
    + assert (Hall : List.length (filter b (seq 0 m)) = m).
      { destruct (Nat.eq_dec (List.length (filter b (seq 0 m))) m) as [E | NE]; [exact E |].
        exfalso.
        assert (Hlt : (List.length (filter b (seq 0 m)) <= List.length (filter b (seq 0 m)) < m)%nat)
          by lia.
        pose proof (IHf _ Hlt) as Hfalse.
        assert (Hcm : (List.length (filter b (seq 0 m)) <= m)%nat) by lia.
        rewrite (Hmono _ m Hcm Hbm) in Hfalse. discriminate. }
      rewrite Hall. repeat split; [lia | | intros; lia].
      intros i Hi. apply (Hmono i m); [lia | exact Hbm].
    + rewrite Nat.add_0_r. repeat split; [lia | exact IHt |].
      intros i Hi. destruct (Nat.eq_dec i m) as [-> | NE]; [exact Hbm |].
      apply IHf. lia.
Qed.

Lemma digitize_linspace (a b x : Q) (bins : nat) :
  digitize x (linspace a b (bins + 1))
    = List.length (filter (fun i => Qle_bool (edge a b bins i) x) (seq 0 (bins + 1))).
Proof.
  unfold digitize. rewrite linspace_edges.
  induction (seq 0 (bins + 1)) as [| i l IH]; simpl; [reflexivity |].
  destruct (Qle_bool (edge a b bins i) x); simpl; now rewrite IH.
Qed.

(** X10.  Binning.  With at least one bin, every vertex gets a bin
    index from 1 to [bins + 1].  It gets the index [k] of one of the
    bins exactly when its height lies in the half-open interval from
    edge [k - 1] to edge [k], and the index [bins + 1], which the
    profile loop never visits, exactly when it lies at the maximal
    height: the topmost vertices enter no layer of the profile. *)
Theorem vertex_bin_index (vertices : list vertex) (bins : nat) (v : vertex) :
  (1 <= bins)%nat ->
  In v vertices ->
  let z := map vz vertices in
  let bin_edges := linspace (list_min z) (list_max z) (bins + 1) in
  (1 <= digitize (vz v) bin_edges <= bins + 1)%nat /\
  (forall k, (1 <= k <= bins)%nat ->
     (digitize (vz v) bin_edges = k <->
      nth (k - 1) bin_edges 0 <= vz v /\ vz v < nth k bin_edges 0)) /\
  (digitize (vz v) bin_edges = (bins + 1)%nat <-> vz v == list_max z).
Proof.
  intros Hb Hv z bin_edges.
  assert (Hz : In (vz v) z) by (unfold z; now apply in_map).
  pose proof (list_min_le z _ Hz) as Hlo.
  pose proof (list_max_ge z _ Hz) as Hhi.
  assert (Hab : list_min z <= list_max z) by (eapply Qle_trans; eassumption).
  set (a := list_min z) in *. set (b := list_max z) in *.
  set (t := fun i => Qle_bool (edge a b bins i) (vz v)).
  assert (Hmono : forall i j, (i <= j)%nat -> t j = true -> t i = true).
  { intros i j Hij Hj. unfold t in *. rewrite Qle_bool_iff in *.
    eapply Qle_trans; [apply (edge_mono a b bins i j Hab Hij) | exact Hj]. }
  destruct (count_prefix t Hmono (bins + 1)) as (Hle & Htrue & Hfalse).
  unfold bin_edges. rewrite digitize_linspace. fold t.
  set (c := List.length (filter t (seq 0 (bins + 1)))) in *.
  assert (H0 : t O = true).
  { unfold t. rewrite Qle_bool_iff. rewrite edge_first. exact Hlo. }
  assert (Hc1 : (1 <= c)%nat).
  { destruct (Nat.eq_dec c 0) as [E | NE]; [| lia].
    rewrite (Hfalse O ltac:(lia)) in H0. discriminate. }
  split; [lia |]. split.
  - intros k Hk. rewrite !linspace_nth by lia. split.
    + intros <-. split.
      * apply Qle_bool_iff. apply (Htrue (c - 1)%nat). lia.
      * apply Qnot_le_lt. intro Hle'. apply Qle_bool_iff in Hle'.
        fold (t c) in Hle'. rewrite (Hfalse c ltac:(lia)) in Hle'. discriminate.
    + intros [H1 H2].
      destruct (Nat.lt_trichotomy c k) as [Hlt | [E | Hgt]]; [| exact E |]; exfalso.
      * apply Qle_bool_iff in H1. fold (t (k - 1)%nat) in H1.
        rewrite (Hfalse (k - 1)%nat ltac:(lia)) in H1. discriminate.
      * pose proof (Htrue k Hgt) as Hk'. unfold t in Hk'. rewrite Qle_bool_iff in Hk'.
        apply (Qlt_not_le _ _ H2 Hk').
  - split.
    + intro E. apply Qle_antisym; [exact Hhi |].
      pose proof (Htrue bins ltac:(lia)) as Hk'. unfold t in Hk'.
      rewrite Qle_bool_iff in Hk'. rewrite (edge_last a b bins Hb) in Hk'. exact Hk'.
    + intro E.
      destruct (Nat.eq_dec c (bins + 1)) as [Ec | NE]; [exact Ec |]. exfalso.
      pose proof (Hfalse bins ltac:(lia)) as Hk'. unfold t in Hk'.
      assert (Ht : Qle_bool (edge a b bins bins) (vz v) = true).
      { rewrite Qle_bool_iff, (edge_last a b bins Hb), E. apply Qle_refl. }
      rewrite Ht in Hk'. discriminate.
Qed.

End BinEdges.

Section BinEdgesExample.

Import Preprocess PreprocessProps.

Lemma vertex_bin_index_witness :
  let z := map vz four_vertices in
  let bin_edges := linspace (list_min z) (list_max z) (4 + 1) in
  (1 <= digitize 1 bin_edges <= 4 + 1)%nat /\
  (forall k, (1 <= k <= 4)%nat ->
     (digitize 1 bin_edges = k <->
      nth (k - 1) bin_edges 0 <= 1 /\ 1 < nth k bin_edges 0)) /\
  (digitize 1 bin_edges = (4 + 1)%nat <-> 1 == list_max z).
Proof.
  apply (vertex_bin_index four_vertices 4 (0, 8, 1)).
  - lia.
  - simpl. tauto.
Defined.

(** The bin indices of the four example vertices, for four bins: the
    vertex on top has index 5. *)
Example four_vertices_bin_indices :
  let z := map vz four_vertices in
  map (fun x => digitize x (linspace (list_min z) (list_max z) (4 + 1))) z
    = [1; 1; 4; 5]%nat.
Proof. vm_compute. reflexivity. Qed.

End BinEdgesExample.

Section KeptInterval.

Import Preprocess PreprocessProps.

Variable planar_radius : vertex -> Q.
Variable pow03 : Q -> Q.
Variable gaussian_filter1d : list Q -> list Q.

(** The filter returns an array of the shape of its input. *)
Hypothesis gaussian_length : forall p, List.length (gaussian_filter1d p) = List.length p.

Lemma last_in (l : list nat) : l <> [] -> In (last l O) l.
Proof.
  intro Hne. destruct (exists_last Hne) as (l' & x & ->).
  rewrite last_last. apply in_or_app. right. now left.
Qed.

Lemma run_ends (seg : list nat) (n : nat) :
  seg <> [] ->
  seg = seq (hd O seg) (List.length seg) ->
  (forall i, In i seg -> (i < n)%nat) ->
  (hd O seg <= last seg O < n)%nat.
Proof.
  intros Hne Hrun Hbound. pose proof (last_in seg Hne) as Hin.
  split; [| now apply Hbound].
  assert (Hin' : In (last seg O) (seq (hd O seg) (List.length seg)))
    by (rewrite <- Hrun; exact Hin).
  apply in_seq in Hin'. lia.
Qed.

Lemma stable_segment_ends (is_stable : list bool) (seg : list nat) :
  In seg (stable_segments is_stable) ->
  (hd O seg <= last seg O < List.length is_stable)%nat.
Proof.
  intro Hin. destruct (stable_segments_runs is_stable) as [Hcat Hruns].
  rewrite Forall_forall in Hruns. destruct (Hruns seg Hin) as (Hne & Hrun & _).
  apply run_ends; trivial.
  intros i Hi.
  assert (Hc : In i (List.concat (stable_segments is_stable)))
    by (apply in_concat; exists seg; now split).
  rewrite Hcat in Hc. apply filter_In in Hc as [Hc _]. apply in_seq in Hc. lia.
Qed.

Lemma middle_half_ends (bins : nat) :
  middle_half bins <> [] ->
  (hd O (middle_half bins) <= last (middle_half bins) O < bins)%nat.
Proof.
  intro Hne. apply run_ends; trivial.
  - unfold middle_half in *.
    destruct (3 * bins / 4 - bins / 4)%nat as [| n]; [now elim Hne |].
    simpl. now rewrite length_seq.
  - intros i Hi. unfold middle_half in Hi. apply in_seq in Hi.
    pose proof (Nat.div_mod_eq (3 * bins) 4) as E2.
    pose proof (Nat.mod_upper_bound (3 * bins) 4 ltac:(lia)) as B2.
    lia.
Qed.

Lemma stability_length (profile_smooth : list Q) (stability_tol : Q) :
  List.length (stability profile_smooth stability_tol) = List.length profile_smooth.
Proof. unfold stability, gradient. now rewrite !length_map, length_seq. Qed.

Lemma selected_segment_ends (bins : nat) (profile_smooth bin_centers : list Q)
      (is_stable : list bool) (out : list event) (best : list nat) :
  List.length is_stable = bins ->
  select_segment pow03 bins profile_smooth bin_centers (stable_segments is_stable)
    = (out, Done best) ->
  (hd O best <= last best O < bins)%nat.
Proof.
  intros Hlen H. unfold select_segment in H.
  destruct (stable_segments is_stable) as [| s0 rest] eqn:Hsegs.
  - destruct (middle_half bins) as [| m ms] eqn:Hm; [discriminate |].
    injection H as _ <-. rewrite <- Hm. apply middle_half_ends. rewrite Hm. discriminate.
  - destruct (fold_left _ _ _) as [[o bs] b] eqn:Hfold.
    destruct b as [| b0 b']; [discriminate |]. injection H as _ <-.
    apply rank_fold_member in Hfold as [E | Hin]; [discriminate |].
    rewrite <- Hlen. apply stable_segment_ends. rewrite Hsegs. exact Hin.
Qed.

(** X11.  The height interval that is kept.  Whenever the function
    reaches the cut, with a smoothing filter that keeps the length of
    the profile, the interval [z_cut_min, z_cut_max] is not empty and
    lies within the height range of the mesh; this holds for the
    selected run of stable bins and for the fallback alike. *)
Theorem kept_interval_within_height_range
        (vertices : list vertex) (bins : nat) (stability_tol : Q)
        (out : list event) (z_cut_min z_cut_max : Q) :
  extract_stable_cylinder planar_radius pow03 gaussian_filter1d vertices bins stability_tol
    = (out, Done (z_cut_min, z_cut_max)) ->
  list_min (map vz vertices) <= z_cut_min /\
  z_cut_min < z_cut_max /\
  z_cut_max <= list_max (map vz vertices).
Proof.
  intro H. unfold extract_stable_cylinder in H.
  destruct (radius_profile planar_radius vertices bins) as [profile | msg | e] eqn:Hp;
    try discriminate.
  assert (Hprofile : List.length profile = bins /\
                     flat_tol <= list_max (map vz vertices) - list_min (map vz vertices)).
  { unfold radius_profile in Hp. destruct vertices as [| v0 vs]; [discriminate |].
    destruct (Qlt_le_dec _ flat_tol) as [| Hh]; [discriminate |].
    injection Hp as <-. split; [| exact Hh].
    apply (proj1 (profile_loop_entries _ _ bins)). }
  destruct Hprofile as [Hlen Hheight].
  set (a := list_min (map vz vertices)) in *.
  set (b := list_max (map vz vertices)) in *.
  destruct (List.length (gaussian_filter1d profile) <? 2)%nat eqn:Hsmall; [discriminate |].
  apply Nat.ltb_ge in Hsmall. rewrite gaussian_length, Hlen in Hsmall.
  destruct (select_segment _ _ _ _ _) as [o r] eqn:Hsel.
  destruct r as [best | msg | e]; try discriminate.
  injection H as _ Hmin Hmax.
  apply selected_segment_ends in Hsel;
    [| now rewrite stability_length, gaussian_length].
  rewrite linspace_nth in Hmin by lia. rewrite linspace_nth in Hmax by lia.
  assert (Hab : a < b).
  { assert (0 < flat_tol) by reflexivity. lra. }
  subst z_cut_min z_cut_max. split; [| split].
  - rewrite <- (edge_first a b bins) at 1. apply edge_mono; [lra | lia].
  - apply edge_strict; [exact Hab | lia | lia].
  - rewrite <- (edge_last a b bins) at 2 by lia. apply edge_mono; [lra | lia].
Qed.

End KeptInterval.

Section KeptIntervalExample.

Import Preprocess PreprocessProps.

(** Four bins over the four example vertices, no smoothing and a wide
    tolerance: the only ranked run is the whole profile, and the
    interval is the whole height range (as unreduced fractions). *)
Example four_vertices_interval :
  snd (extract_stable_cylinder axis_radius Qabs (fun p => p) four_vertices 4 10)
    = Done (0 # 4, 4 # 4).
Proof. vm_compute. reflexivity. Qed.

Lemma kept_interval_witness :
  list_min (map vz four_vertices) <= 0 # 4 /\
  0 # 4 < 4 # 4 /\
  4 # 4 <= list_max (map vz four_vertices).
Proof.
  apply (kept_interval_within_height_range axis_radius Qabs (fun p => p)
           (fun p => eq_refl) four_vertices 4 10
           (fst (extract_stable_cylinder axis_radius Qabs (fun p => p) four_vertices 4 10))).
  vm_compute. reflexivity.
Defined.

End KeptIntervalExample.

Section ConstantProfile.

Import Preprocess PreprocessProps.

Variable planar_radius : vertex -> Q.
Variable pow03 : Q -> Q.
Variable gaussian_filter1d : list Q -> list Q.

Hypothesis pow03_nonneg : forall r, 0 <= pow03 r.

Lemma map_all_true {A : Type} (h : A -> bool) (l : list A) :
  (forall x, In x l -> h x = true) -> map h l = repeat true (List.length l).
Proof.
  induction l as [| a l IH]; intro H; simpl; [reflexivity |].
  rewrite (H a (or_introl eq_refl)), IH; [reflexivity |].
  intros x Hx. apply H. now right.
Qed.

Lemma gradient_of_constant (c : Q) (f : list Q) :
  (2 <= List.length f)%nat ->
  (forall x, In x f -> x == c) ->
  forall g, In g (gradient f) -> g == 0.
Proof.
  intros Hlen Hconst g Hg. unfold gradient in Hg.
  apply in_map_iff in Hg as (i & <- & Hi). apply in_seq in Hi.
  assert (Hnth : forall k, (k < List.length f)%nat -> nth k f 0 == c)
    by (intros k Hk; apply Hconst, nth_In, Hk).
  destruct (Nat.eqb_spec i 0) as [-> | Hi0]; [rewrite !Hnth by lia; ring |].
  destruct (Nat.eqb_spec i (List.length f - 1)) as [-> | Hil];
    [rewrite !Hnth by lia; ring |].
  rewrite !Hnth by lia. field.
Qed.

Lemma stability_of_constant (c stability_tol : Q) (f : list Q) :
  (2 <= List.length f)%nat ->
  (forall x, In x f -> x == c) ->
  0 < stability_tol ->
  stability f stability_tol = repeat true (List.length f).
Proof.
  intros Hlen Hconst Htol. unfold stability.
  rewrite map_all_true.
  - unfold gradient. now rewrite length_map, length_seq.
  - intros g Hg. pose proof (gradient_of_constant c f Hlen Hconst g Hg) as Hg0.
    destruct (Qlt_le_dec _ stability_tol) as [| Hge]; [reflexivity |]. exfalso.
    assert (E : Qabs g / (if Qlt_le_dec (qmean f) flat_tol then 1 else qmean f) == 0).
    { rewrite Hg0. unfold Qdiv. change (Qabs 0) with 0. ring. }
    rewrite E in Hge. exact (Qlt_not_le _ _ Htol Hge).
Qed.

Lemma group_stable_all_true (k : nat) :
  forall i segments current,
    (current ++ seq i k)%list <> [] ->
    group_stable i (repeat true k) segments current
      = (segments ++ [(current ++ seq i k)%list])%list.
Proof.
  induction k as [| k IH]; intros i segments current Hne; simpl.
  - rewrite app_nil_r in *. destruct current; [contradiction | reflexivity].
  - rewrite IH.
    + now rewrite <- app_assoc.
    + rewrite <- app_assoc. exact Hne.
Qed.

Lemma too_short_whole (bins : nat) : (1 <= bins)%nat -> too_short bins bins = false.
Proof.
  intro Hb. unfold too_short.
  destruct (Qlt_le_dec _ _) as [Hlt | ]; [| reflexivity]. exfalso.
  pose proof (inject_nat_pos bins Hb) as Hpos.
  set (b := inject_Z (Z.of_nat bins)) in *.
  assert (b * (5 # 100) < b * 1) by (apply Qmult_lt_l; [exact Hpos | reflexivity]).
  lra.
Qed.

(** X22.  A profile without variation keeps the whole mesh.  When the
    smoothed radius profile is constant, the tolerance is positive and
    there are at least two bins, every bin is stable, the only run is
    the whole profile, and the interval that is kept is the whole
    height range of the mesh, from its lowest to its highest vertex. *)
Theorem constant_profile_keeps_whole_height
        (vertices : list vertex) (bins : nat) (stability_tol c : Q) (profile : list Q) :
  (2 <= bins)%nat ->
  0 < stability_tol ->
  radius_profile planar_radius vertices bins = Done profile ->
  List.length (gaussian_filter1d profile) = bins ->
  (forall x, In x (gaussian_filter1d profile) -> x == c) ->
  exists out z_cut_min z_cut_max,
    extract_stable_cylinder planar_radius pow03 gaussian_filter1d vertices bins stability_tol
      = (out, Done (z_cut_min, z_cut_max)) /\
    z_cut_min == list_min (map vz vertices) /\
    z_cut_max == list_max (map vz vertices).
Proof.
  intros Hbins Htol Hp Hlen Hconst.
  unfold extract_stable_cylinder. rewrite Hp.
  set (smooth := gaussian_filter1d profile) in *.
  assert (Hsmall : (List.length smooth <? 2)%nat = false) by (apply Nat.ltb_ge; lia).
  rewrite Hsmall.
  rewrite (stability_of_constant c) by (trivial; lia).
  rewrite Hlen. unfold stable_segments.
  rewrite group_stable_all_true
    by (simpl; destruct bins; [lia | discriminate]).
  simpl app. unfold select_segment. cbn [fold_left]. unfold rank_step.
  rewrite length_seq, too_short_whole by lia.
  set (score := inject_Z (Z.of_nat bins) * pow03 (segment_radius smooth (seq 0 bins))).
  assert (Hscore : 0 <= score).
  { unfold score. apply Qmult_le_0_compat; [| apply pow03_nonneg].
    apply Qlt_le_weak, inject_nat_pos. lia. }
  destruct (Qlt_le_dec (- (1)) score) as [_ | Hbad].
  2:{ exfalso. assert (H : 0 <= - (1)) by (eapply Qle_trans; eassumption).
      revert H. apply Qlt_not_le. reflexivity. }
  destruct (seq 0 bins) as [| s0 rest] eqn:Hseq.
  { destruct bins; [lia | discriminate Hseq]. }
  rewrite <- Hseq.
  assert (Hhd : hd O (seq 0 bins) = O) by (rewrite Hseq; destruct bins; [lia |];
                                           simpl in Hseq; now injection Hseq as <- _).
  assert (Hlast : (last (seq 0 bins) O + 1 = bins)%nat).
  { destruct bins as [| b]; [lia |]. rewrite seq_S, last_last. simpl. lia. }
  eexists _, _, _. split; [reflexivity |].
  rewrite Hhd, Hlast, !linspace_nth by lia.
  split; [apply edge_first | apply edge_last; lia].
Qed.

End ConstantProfile.

Section ConstantProfileExample.

Import Preprocess PreprocessProps.

(** Four bins over the four example vertices, every vertex at planar
    radius 1, no smoothing: the whole height range is kept. *)
Lemma constant_profile_witness :
  exists out z_cut_min z_cut_max,
    extract_stable_cylinder (fun _ => 1) Qabs (fun p => p) four_vertices 4 (2 # 100)
      = (out, Done (z_cut_min, z_cut_max)) /\
    z_cut_min == list_min (map vz four_vertices) /\
    z_cut_max == list_max (map vz four_vertices).
Proof.
  apply (constant_profile_keeps_whole_height
           (fun _ => 1) Qabs (fun p => p) Qabs_nonneg four_vertices 4 (2 # 100) 1
           (profile_loop (map (fun _ => 1) four_vertices)
                         (map (fun x => digitize x (linspace (list_min (map vz four_vertices))
                                                             (list_max (map vz four_vertices))
                                                             (4 + 1)))
                              (map vz four_vertices))
                         (seq 1 4) [])).
  - lia.
  - reflexivity.
  - reflexivity.
  - reflexivity.
  - intros x Hx. vm_compute in Hx.
    repeat (destruct Hx as [<- | Hx]; [reflexivity |]). destruct Hx.
Defined.

End ConstantProfileExample.
Section ProfileBins.

Import Preprocess PreprocessProps.
Local Open Scope Q_scope.

Variable planar_radius : vertex -> Q.





End ProfileBins.

Section ProfileBinsExample.

Import Preprocess PreprocessProps.
Local Open Scope Q_scope.


Example four_vertices_slices :
  let z := map vz four_vertices in
  let bin_edges := linspace (list_min z) (list_max z) (4 + 1) in
  bin_vertices bin_edges 1 four_vertices = [ (2, 0, 0); (0, 4, 0) ] /\
  bin_vertices bin_edges 2 four_vertices = [] /\
  bin_vertices bin_edges 3 four_vertices = [].
Proof. vm_compute. repeat split. Qed.


End ProfileBinsExample.


(* ================================================================== *)
(** * Further properties of [scripts/seam_extract.py] *)
(* ================================================================== *)

Section BoundaryVertices.

Import SeamExtract SeamProps.

Lemma sorted_edges_equal (e1 e2 : edge) :
  edge_eqb (sort_edge e1) (sort_edge e2) = same_ends e1 e2.
Proof.
  destruct e1 as [a b], e2 as [c d]. unfold edge_eqb, sort_edge, same_ends. simpl.
  apply Bool.eq_iff_eq_true.
  rewrite orb_true_iff, !andb_true_iff, !Nat.eqb_eq. lia.
Qed.

Lemma occurrences_sides (m : mesh) (e : edge) :
  occurrences (sort_edge e) (edges_sorted m) = sides m e.
Proof.
  unfold occurrences, edges_sorted, sides.
  induction (mesh_edges m) as [| e' es IH]; simpl; [reflexivity |].
  rewrite sorted_edges_equal. destruct (same_ends e e'); simpl; now rewrite IH.
Qed.

Lemma in_unique_edges (m : mesh) (e : edge) :
  In e (unique_edges m) <-> In e (mesh_edges m) /\ sides m e = 1%nat.
Proof.
  unfold unique_edges. now rewrite filter_In, occurrences_sides, Nat.eqb_eq.
Qed.

Lemma insert_unique_increasing (x : nat) (l : list nat) :
  increasing l -> increasing (insert_unique x l).
Proof.
  induction l as [| y r IH]; simpl; intro Hinc.
  - split; [intros y [] | exact I].
  - destruct Hinc as [Hy Hr].
    destruct (Nat.ltb_spec x y) as [Hlt | Hge].
    + simpl. split; [| split; assumption].
      intros z [<- | Hz]; [exact Hlt |]. specialize (Hy z Hz). lia.
    + destruct (Nat.eqb_spec x y) as [-> | Hne]; simpl.
      * split; assumption.
      * split; [| now apply IH].
        intros z Hz. apply insert_unique_In in Hz as [-> | Hz]; [lia | now apply Hy].
Qed.

Lemma np_unique_increasing (l : list nat) : increasing (np_unique l).
Proof.
  induction l as [| x l IH]; simpl; [exact I |]. now apply insert_unique_increasing.
Qed.

Lemma filter_increasing (f : nat -> bool) (l : list nat) :
  increasing l -> increasing (filter f l).
Proof.
  induction l as [| x r IH]; simpl; [trivial |]. intros [Hx Hr].
  destruct (f x); simpl; [| now apply IH].
  split; [| now apply IH]. intros y Hy. apply filter_In in Hy. now apply Hx.
Qed.

Lemma increasing_nth (l : list nat) :
  increasing l ->
  forall i j, (i <= j)%nat -> (j < List.length l)%nat -> (nth i l O <= nth j l O)%nat.
Proof.
  induction l as [| x r IH]; simpl; intros Hinc i j Hij Hj; [lia |].
  destruct Hinc as [Hx Hr]. destruct i as [| i], j as [| j]; try lia.
  - apply Nat.lt_le_incl, Hx, nth_In. lia.
  - apply IH; [exact Hr | lia | lia].
Qed.

(** X12.  Boundary vertices.  A vertex is a boundary vertex exactly
    when it is an end of an edge that joins its two ends on one face
    side only, in whichever direction the faces list it; the boundary
    vertices come in increasing order without repetition; and the
    function reports a watertight mesh exactly when every edge is
    shared, or there is no face at all. *)
Theorem boundary_vertices_are_ends_of_unshared_edges (m : mesh) :
  (forall v, In v (boundary_indices m) <->
             exists e, In e (mesh_edges m) /\ sides m e = 1%nat /\
                       (v = fst e \/ v = snd e)) /\
  increasing (boundary_indices m) /\
  (extract_seam m = Watertight <->
   forall e, In e (mesh_edges m) -> sides m e <> 1%nat).
Proof.
  assert (Hin : forall v, In v (boundary_indices m) <->
                          exists e, In e (mesh_edges m) /\ sides m e = 1%nat /\
                                    (v = fst e \/ v = snd e)).
  { intro v. unfold boundary_indices, endpoints. rewrite np_unique_In, in_flat_map.
    split.
    - intros (e & He & Hv). apply in_unique_edges in He as [He Hs].
      exists e. simpl in Hv. intuition.
    - intros (e & He & Hs & Hv). exists e. split; [now apply in_unique_edges |].
      simpl. intuition. }
  split; [exact Hin |]. split; [apply np_unique_increasing |].
  unfold extract_seam. split.
  - intros Hw e He Hs.
    assert (Hb : In (fst e) (boundary_indices m)) by (apply Hin; exists e; auto).
    destruct (boundary_indices m) as [| b0 bs]; [destruct Hb |].
    destruct (top_indices m), (bottom_indices m); try discriminate.
    destruct (shortest_path _ _ _ _); discriminate.
  - intro Hall. destruct (boundary_indices m) as [| b0 bs] eqn:Hb; [reflexivity |].
    exfalso. destruct (proj1 (Hin b0) (or_introl eq_refl)) as (e & He & Hs & _).
    exact (Hall e He Hs).
Qed.

End BoundaryVertices.

Section BoundaryVerticesExamples.

Import SeamExtract SeamProps.

(** A closed surface has no boundary; on the strip of two triangles,
    the diagonal is shared and all four vertices are on the boundary. *)
Example tetrahedron_is_watertight : extract_seam tetrahedron = Watertight.
Proof. reflexivity. Qed.

Example strip_boundary : boundary_indices strip = [0; 1; 2; 3]%nat.
Proof. reflexivity. Qed.

Example strip_diagonal_is_shared : sides strip (1, 2)%nat = 2%nat.
Proof. reflexivity. Qed.

End BoundaryVerticesExamples.

Section LevelBoundary.

Import SeamExtract SeamProps.
Local Open Scope Q_scope.

Lemma fold_qplus_acc (l : list Q) :
  forall a, fold_left Qplus l a == a + fold_left Qplus l 0.
Proof.
  induction l as [| x l IH]; intro a; simpl.
  - ring.
  - rewrite IH. rewrite (IH (0 + x)). ring.
Qed.

Lemma empty_filter {A : Type} (f : A -> bool) (l : list A) :
  filter f l = [] <-> forall x, In x l -> f x = false.
Proof.
  induction l as [| a l IH]; simpl.
  - split; [intros _ x [] | reflexivity].
  - destruct (f a) eqn:Ha.
    + split; [discriminate |]. intro H. rewrite (H a (or_introl eq_refl)) in Ha. discriminate.
    + rewrite IH. split.
      * intros H x [<- | Hx]; auto.
      * intros H x Hx. apply H. now right.
Qed.

Lemma qltb_false (a b : Q) : qltb a b = false <-> b <= a.
Proof.
  rewrite <- Bool.not_true_iff_false, qltb_lt. split.
  - apply Qnot_lt_le.
  - intros H1 H2. exact (Qlt_not_le _ _ H2 H1).
Qed.

(** X13.  When the mesh has boundary vertices and all of them lie at
    one height, the message "Could not separate top and bottom loops"
    is given.  Whatever value the threshold takes, no boundary vertex
    lies above it or none lies below it, so this does not depend on how
    the mean is rounded. *)
Theorem level_boundary_is_not_separable (m : mesh) :
  boundary_indices m <> [] ->
  (forall u v, In u (boundary_indices m) -> In v (boundary_indices m) ->
               vz (vertex_at m u) == vz (vertex_at m v)) ->
  (forall mu : Q,
      filter (fun i => qltb mu (vz (vertex_at m i))) (boundary_indices m) = [] \/
      filter (fun i => qltb (vz (vertex_at m i)) mu) (boundary_indices m) = []) /\
  extract_seam m = NotSeparable.
Proof.
  intros Hne Hall.
  assert (Hany : forall mu : Q,
             filter (fun i => qltb mu (vz (vertex_at m i))) (boundary_indices m) = [] \/
             filter (fun i => qltb (vz (vertex_at m i)) mu) (boundary_indices m) = []).
  { intro mu. destruct (boundary_indices m) as [| b0 bs] eqn:Hb; [now left |].
    destruct (Qlt_le_dec mu (vz (vertex_at m b0))) as [Hlt | Hge].
    - right. apply empty_filter. intros v Hv. apply qltb_false.
      rewrite (Hall v b0 Hv (or_introl eq_refl)). now apply Qlt_le_weak.
    - left. apply empty_filter. intros v Hv. apply qltb_false.
      rewrite (Hall v b0 Hv (or_introl eq_refl)). exact Hge. }
  split; [exact Hany |].
  unfold extract_seam.
  destruct (boundary_indices m) as [| b0 bs] eqn:Hb; [contradiction |].
  destruct (Hany (z_mean m)) as [Ht | Hbot].
  - assert (Et : top_indices m = []) by (unfold top_indices; rewrite Hb; exact Ht).
    now rewrite Et.
  - assert (Eb : bottom_indices m = []) by (unfold bottom_indices; rewrite Hb; exact Hbot).
    rewrite Eb. now destruct (top_indices m).
Qed.

End LevelBoundary.

Section LevelBoundaryExample.

Import SeamExtract SeamProps.

(** A triangle lying flat has a boundary at one height. *)
Example flat_triangle_not_separable : extract_seam flat_triangle = NotSeparable.
Proof. reflexivity. Qed.

Lemma level_boundary_witness :
  (forall mu : Q,
      filter (fun i => qltb mu (vz (vertex_at flat_triangle i)))
             (boundary_indices flat_triangle) = [] \/
      filter (fun i => qltb (vz (vertex_at flat_triangle i)) mu)
             (boundary_indices flat_triangle) = []) /\
  extract_seam flat_triangle = NotSeparable.
Proof.
  apply (level_boundary_is_not_separable flat_triangle).
  - vm_compute. discriminate.
  - intros u v Hu Hv.
    assert (Hz : forall i, In i (boundary_indices flat_triangle) ->
                           vz (vertex_at flat_triangle i) = 0%Q).
    { intros i Hi. vm_compute in Hi.
      repeat (destruct Hi as [<- | Hi]; [reflexivity |]). destruct Hi. }
    rewrite (Hz u Hu), (Hz v Hv). reflexivity.
Defined.

End LevelBoundaryExample.

Section SeamSearch.

Import SeamExtract SeamProps.

(** X14.  When both groups are non-empty, the search decides whether
    the mesh connects the two chosen vertices: a seam is returned
    exactly when some walk along mesh edges leads from the start vertex
    to the end vertex, and "No path found" is reported exactly when
    there is none. *)
Theorem seam_found_iff_connected (m : mesh) :
  top_indices m <> [] ->
  bottom_indices m <> [] ->
  ((exists path, extract_seam m = Seam path) <->
   (exists w, walk (adjacent m) (start_idx m) (end_idx m) w)) /\
  (extract_seam m = NoPath <->
   (forall w, ~ walk (adjacent m) (start_idx m) (end_idx m) w)).
Proof.
  intros Htop Hbottom.
  assert (Hstart : In (start_idx m) (nodes m)).
  { apply boundary_in_nodes. apply start_in_top in Htop.
    apply in_top_indices in Htop. tauto. }
  unfold extract_seam.
  destruct (boundary_indices m) as [| b0 bs] eqn:Hb.
  { exfalso. apply Htop. unfold top_indices. now rewrite Hb. }
  destruct (top_indices m) as [| t0 ts]; [contradiction |].
  destruct (bottom_indices m) as [| u0 us]; [contradiction |].
  destruct (shortest_path (neighbors m) (List.length (nodes m)) (start_idx m) (end_idx m))
    as [p |] eqn:Hsp.
  - apply shortest_path_shortest in Hsp. destruct Hsp as [Hwalk _].
    split; split.
    + intros _. now exists p.
    + intros _. now exists p.
    + discriminate.
    + intro Hnone. elim (Hnone p). exact Hwalk.
  - assert (Hnone : forall w, ~ walk (adjacent m) (start_idx m) (end_idx m) w).
    { apply (shortest_path_none (neighbors m) (nodes m) (start_idx m)); [exact Hstart | | exact Hsp].
      intros u v _ Huv. now apply (neighbors_in_nodes m u). }
    split; split.
    + intros (path & H). discriminate.
    + intros (w & Hw). elim (Hnone w). exact Hw.
    + intros _. exact Hnone.
    + reflexivity.
Qed.

Lemma seam_found_witness :
  ((exists path, extract_seam strip = Seam path) <->
   (exists w, walk (adjacent strip) (start_idx strip) (end_idx strip) w)) /\
  (extract_seam strip = NoPath <->
   (forall w, ~ walk (adjacent strip) (start_idx strip) (end_idx strip) w)).
Proof.
  apply (seam_found_iff_connected strip).
  - vm_compute. discriminate.
  - vm_compute. discriminate.
Defined.

End SeamSearch.

Section SeamEndpoints.

Import SeamExtract SeamProps.
Local Open Scope Q_scope.

(** The scan of [np.argmin], entered at position [i] with the values
    read so far and the best of them: the result is a position of a
    smallest value, and every value before it is larger. *)
Lemma argmin_from_first_smallest (l : list Q) :
  forall (seen : list Q) (best_i : nat) (best : Q),
    (best_i < List.length seen)%nat ->
    nth best_i seen 0 = best ->
    (forall k, (k < List.length seen)%nat -> best <= nth k seen 0) ->
    (forall k, (k < best_i)%nat -> best < nth k seen 0) ->
    let r := argmin_from best_i best (List.length seen) l in
    let full := (seen ++ l)%list in
    (r < List.length full)%nat /\
    (forall k, (k < List.length full)%nat -> nth r full 0 <= nth k full 0) /\
    (forall k, (k < r)%nat -> nth r full 0 < nth k full 0).
Proof.
  induction l as [| x rest IH]; intros seen bi b Hbi Hb Hle Hlt; cbv zeta.
  - simpl. rewrite app_nil_r. rewrite Hb. repeat split; auto.
  - assert (Hfull : (seen ++ x :: rest)%list = ((seen ++ [x]) ++ rest)%list)
      by now rewrite <- app_assoc.
    assert (Hlen : List.length (seen ++ [x]) = S (List.length seen))
      by (rewrite length_app; simpl; lia).
    assert (Hold : forall k, (k < List.length seen)%nat ->
                             nth k (seen ++ [x]) 0 = nth k seen 0)
      by (intros k Hk; now rewrite app_nth1).
    assert (Hnew : nth (List.length seen) (seen ++ [x]) 0 = x)
      by (rewrite app_nth2 by lia; now rewrite Nat.sub_diag).
    simpl argmin_from. rewrite Hfull. destruct (qltb x b) eqn:Hx.
    + apply qltb_lt in Hx.
      specialize (IH (seen ++ [x])%list (List.length seen) x).
      rewrite Hlen in IH. apply IH.
      * lia.
      * exact Hnew.
      * intros k Hk. destruct (Nat.eq_dec k (List.length seen)) as [-> | Hne].
        -- rewrite Hnew. apply Qle_refl.
        -- rewrite Hold by lia. apply Qlt_le_weak.
           eapply Qlt_le_trans; [exact Hx | apply Hle; lia].
      * intros k Hk. rewrite Hold by lia.
        eapply Qlt_le_trans; [exact Hx | apply Hle; lia].
    + apply qltb_false in Hx.
      specialize (IH (seen ++ [x])%list bi b).
      rewrite Hlen in IH. apply IH.
      * lia.
      * rewrite Hold by lia. exact Hb.
      * intros k Hk. destruct (Nat.eq_dec k (List.length seen)) as [-> | Hne].
        -- rewrite Hnew. exact Hx.
        -- rewrite Hold by lia. apply Hle. lia.
      * intros k Hk. rewrite Hold by lia. now apply Hlt.
Qed.

Lemma argmin_first_smallest (l : list Q) :
  (forall k, (k < List.length l)%nat -> nth (argmin l) l 0 <= nth k l 0) /\
  (forall k, (k < argmin l)%nat -> nth (argmin l) l 0 < nth k l 0).
Proof.
  destruct l as [| x r]; [split; intros k Hk; simpl in Hk; lia |].
  unfold argmin.
  destruct (argmin_from_first_smallest r [x] 0 x) as (_ & H1 & H2); simpl; auto.
  - intros k Hk. replace k with O by lia. apply Qle_refl.
  - intros k Hk. lia.
Qed.

(** Choosing from an increasing list of vertices by [np.argmin] of a
    value: the value is smallest, and among the vertices of smallest
    value the one of lowest index is chosen. *)
Lemma argmin_choice (f : nat -> Q) (l : list nat) (v : nat) :
  increasing l ->
  In v l ->
  let chosen := nth (argmin (map f l)) l O in
  f chosen <= f v /\ (f v == f chosen -> (chosen <= v)%nat).
Proof.
  intros Hinc Hv. cbv zeta.
  destruct (In_nth l v O Hv) as (j & Hj & <-).
  destruct (argmin_first_smallest (map f l)) as [Hmin Hfirst].
  assert (Ha : (argmin (map f l) < List.length l)%nat).
  { rewrite <- (length_map f). apply argmin_bound. destruct l; [destruct Hv | discriminate]. }
  assert (Hval : forall k, (k < List.length l)%nat -> nth k (map f l) 0 = f (nth k l O)).
  { intros k Hk. rewrite (nth_indep _ 0 (f O)) by now rewrite length_map.
    apply map_nth. }
  set (a := argmin (map f l)) in *. split.
  - rewrite <- (Hval a Ha), <- (Hval j Hj). apply Hmin. now rewrite length_map.
  - intro Heq. apply increasing_nth; [exact Hinc | | exact Hj].
    destruct (Nat.le_gt_cases a j) as [Hle | Hgt]; [exact Hle |]. exfalso.
    specialize (Hfirst j Hgt). rewrite (Hval a Ha), (Hval j Hj) in Hfirst.
    rewrite Heq in Hfirst. now apply Qlt_irrefl in Hfirst.
Qed.

(** X15.  The ends of the seam.  The start vertex has the smallest x
    coordinate of the top group, and the end vertex is a vertex of the
    bottom group nearest to the start vertex; where several vertices
    are equally good, the one of lowest index is taken. *)
Theorem seam_endpoints_are_extremal (m : mesh) :
  (forall v, In v (top_indices m) ->
     vx (vertex_at m (start_idx m)) <= vx (vertex_at m v) /\
     (vx (vertex_at m v) == vx (vertex_at m (start_idx m)) -> (start_idx m <= v)%nat)) /\
  (forall v, In v (bottom_indices m) ->
     dist2 (vertex_at m (end_idx m)) (vertex_at m (start_idx m))
       <= dist2 (vertex_at m v) (vertex_at m (start_idx m)) /\
     (dist2 (vertex_at m v) (vertex_at m (start_idx m))
        == dist2 (vertex_at m (end_idx m)) (vertex_at m (start_idx m)) ->
      (end_idx m <= v)%nat)).
Proof.
  split; intros v Hv.
  - apply (argmin_choice (fun i => vx (vertex_at m i)) (top_indices m) v); [| exact Hv].
    apply filter_increasing, np_unique_increasing.
  - apply (argmin_choice (fun i => dist2 (vertex_at m i) (vertex_at m (start_idx m)))
                         (bottom_indices m) v); [| exact Hv].
    apply filter_increasing, np_unique_increasing.
Qed.

End SeamEndpoints.

Section SeamEndpointsExample.

Import SeamExtract SeamProps.

(** On the strip, vertex 2 is the top vertex of smallest x and vertex 0
    the bottom vertex nearest to it. *)
Example strip_endpoints : start_idx strip = 2%nat /\ end_idx strip = 0%nat.
Proof. split; reflexivity. Qed.

End SeamEndpointsExample.

Section SimpleSeam.

Import SeamExtract SeamProps.

Lemma repetition_or_none (l : list nat) :
  NoDup l \/ exists a l1 l2 l3, l = (l1 ++ a :: l2 ++ a :: l3)%list.
Proof.
  induction l as [| a l [IH | (b & l1 & l2 & l3 & ->)]].
  - left. constructor.
  - destruct (in_dec Nat.eq_dec a l) as [Hin | Hnin].
    + right. apply in_split in Hin as (l2 & l3 & ->). now exists a, [], l2, l3.
    + left. now constructor.
  - right. now exists b, (a :: l1), l2, l3.
Qed.

Lemma linked_app_inv (adj : nat -> nat -> bool) (l1 l2 : list nat) :
  linked adj (l1 ++ l2) = true -> linked adj l1 = true /\ linked adj l2 = true.
Proof.
  induction l1 as [| a l1 IH]; intro H; [now split |].
  destruct l1 as [| b l1].
  - split; [reflexivity |]. destruct l2 as [| c l2]; [reflexivity |].
    change (linked adj ([a] ++ c :: l2)) with (adj a c && linked adj (c :: l2)) in H.
    now apply andb_prop in H.
  - change (linked adj ((a :: b :: l1) ++ l2))
      with (adj a b && linked adj ((b :: l1) ++ l2)) in H.
    apply andb_prop in H as [Hab H]. destruct (IH H) as [H1 H2]. split; [| exact H2].
    change (linked adj (a :: b :: l1)) with (adj a b && linked adj (b :: l1)).
    now rewrite Hab, H1.
Qed.

Lemma linked_join (adj : nat -> nat -> bool) (l1 : list nat) (v : nat) (l3 : list nat) :
  linked adj (l1 ++ [v]) = true -> linked adj (v :: l3) = true ->
  linked adj (l1 ++ v :: l3) = true.
Proof.
  induction l1 as [| a l1 IH]; intros H1 H3; [exact H3 |].
  destruct l1 as [| b l1].
  - change (linked adj ([a] ++ v :: l3)) with (adj a v && linked adj (v :: l3)).
    change (linked adj ([a] ++ [v])) with (adj a v && true) in H1.
    apply andb_prop in H1 as [Hav _]. now rewrite Hav, H3.
  - change (linked adj ((a :: b :: l1) ++ v :: l3))
      with (adj a b && linked adj ((b :: l1) ++ v :: l3)).
    change (linked adj ((a :: b :: l1) ++ [v]))
      with (adj a b && linked adj ((b :: l1) ++ [v])) in H1.
    apply andb_prop in H1 as [Hab H1]. rewrite Hab. simpl andb. now apply IH.
Qed.

Lemma last_after (l1 : list nat) (v : nat) (l3 : list nat) (d : nat) :
  last (l1 ++ v :: l3) d = last (v :: l3) d.
Proof.
  induction l1 as [| a l1 IH]; [reflexivity |].
  change ((a :: l1) ++ v :: l3)%list with (a :: (l1 ++ v :: l3))%list.
  destruct (l1 ++ v :: l3)%list as [| b r] eqn:E.
  - destruct l1; discriminate E.
  - rewrite <- IH. reflexivity.
Qed.

(** A walk that passes a vertex twice can be cut short. *)
Lemma walk_shortcut (adj : nat -> nat -> bool) (s t a : nat) (l1 l2 l3 : list nat) :
  walk adj s t (l1 ++ a :: l2 ++ a :: l3) -> walk adj s t (l1 ++ a :: l3).
Proof.
  intros (Hhd & Hlast & Hlink). repeat split.
  - destruct l1; exact Hhd.
  - rewrite last_after.
    replace (l1 ++ a :: l2 ++ a :: l3)%list with ((l1 ++ a :: l2) ++ a :: l3)%list in Hlast
      by (rewrite <- app_assoc; reflexivity).
    now rewrite last_after in Hlast.
  - apply linked_join.
    + replace (l1 ++ a :: l2 ++ a :: l3)%list with ((l1 ++ [a]) ++ l2 ++ a :: l3)%list in Hlink
        by (rewrite <- app_assoc; reflexivity).
      now apply linked_app_inv in Hlink.
    + replace (l1 ++ a :: l2 ++ a :: l3)%list with ((l1 ++ a :: l2) ++ a :: l3)%list in Hlink
        by (rewrite <- app_assoc; reflexivity).
      now apply linked_app_inv in Hlink.
Qed.

Lemma walk_in_nodes (m : mesh) (s t : nat) (l : list nat) :
  In s (nodes m) -> walk (adjacent m) s t l -> forall v, In v l -> In v (nodes m).
Proof.
  intros Hs (Hhd & _ & Hlink) v Hv.
  destruct (In_nth l v O Hv) as (i & Hi & <-).
  destruct i as [| i].
  - destruct l as [| a l]; [destruct Hv |]. simpl in Hhd. injection Hhd as ->. exact Hs.
  - pose proof (linked_steps _ _ Hlink i Hi) as Hadj.
    unfold adjacent, adjacent_in in Hadj. apply mem_In in Hadj.
    now apply (neighbors_in_nodes m (nth i l O)).
Qed.

(** X24.  The seam is a simple path through the mesh: it visits no
    vertex twice, and every vertex it visits is a corner of some
    face. *)
Theorem seam_visits_each_vertex_once (m : mesh) (path : list nat) :
  extract_seam m = Seam path ->
  NoDup path /\
  forall v, In v path ->
    exists f, In f (faces m) /\
              (v = fst (fst f) \/ v = snd (fst f) \/ v = snd f).
Proof.
  unfold extract_seam. intro H.
  destruct (boundary_indices m) as [| b0 bs] eqn:Hb; [discriminate |].
  destruct (top_indices m) as [| t0 ts] eqn:Ht; [discriminate |].
  destruct (bottom_indices m) as [| u0 us] eqn:Hu; [discriminate |].
  destruct (shortest_path (neighbors m) (List.length (nodes m)) (start_idx m) (end_idx m))
    as [p |] eqn:Hsp; [| discriminate].
  injection H as ->.
  apply shortest_path_shortest in Hsp. destruct Hsp as [Hwalk Hmin].
  split.
  - destruct (repetition_or_none path) as [Hnd | (a & l1 & l2 & l3 & ->)]; [exact Hnd |].
    exfalso. pose proof (Hmin _ (walk_shortcut _ _ _ _ _ _ _ Hwalk)) as Hle.
    rewrite !length_app in Hle. simpl in Hle. rewrite length_app in Hle. simpl in Hle. lia.
  - intros v Hv.
    assert (Hstart : In (start_idx m) (nodes m)).
    { apply boundary_in_nodes.
      assert (Hin : In (start_idx m) (top_indices m))
        by (apply start_in_top; rewrite Ht; discriminate).
      apply in_top_indices in Hin. tauto. }
    pose proof (walk_in_nodes m _ _ _ Hstart Hwalk v Hv) as Hnode.
    unfold nodes, endpoints in Hnode. rewrite np_unique_In, in_flat_map in Hnode.
    destruct Hnode as (e & He & Hve).
    unfold mesh_edges in He. apply in_flat_map in He as (f & Hf & Hef).
    exists f. split; [exact Hf |].
    destruct f as [[a b] c]. simpl in Hef, Hve |- *.
    destruct Hef as [<- | [<- | [<- | []]]]; simpl in Hve; intuition.
Qed.

Lemma seam_simple_witness :
  NoDup [2; 0]%nat /\
  forall v, In v [2; 0]%nat ->
    exists f, In f (faces strip) /\
              (v = fst (fst f) \/ v = snd (fst f) \/ v = snd f).
Proof.
  apply (seam_visits_each_vertex_once strip [2; 0]%nat).
  vm_compute. reflexivity.
Defined.

End SimpleSeam.

(* ================================================================== *)
(** * The seam file between [seam_extract.py] and [seam2uv.py] *)
(* ================================================================== *)

Section SeamFileRoundTrip.

Import SeamExtract UvRepack SeamFile.
Local Open Scope string_scope.

Lemma all_chars_append (p : ascii -> bool) (s t : string) :
  all_chars p (s ++ t) = all_chars p s && all_chars p t.
Proof.
  induction s as [| c s IH]; simpl; [reflexivity |]. now rewrite IH, andb_assoc.
Qed.

Lemma all_chars_weaken (p q : ascii -> bool) (s : string) :
  (forall c, p c = true -> q c = true) -> all_chars p s = true -> all_chars q s = true.
Proof.
  intro Hpq. induction s as [| c s IH]; simpl; [reflexivity |].
  intro H. apply andb_prop in H as [Hc Hs]. now rewrite (Hpq c Hc), IH.
Qed.

Lemma digit_is_no_space (c : ascii) : is_digit c = true -> negb (is_space c) = true.
Proof.
  destruct c as [[] [] [] [] [] [] [] []]; vm_compute; intro H;
    first [reflexivity | discriminate H].
Qed.

Lemma digit_is_no_line_end (c : ascii) :
  is_digit c = true ->
  negb (Ascii.eqb c line_feed || Ascii.eqb c carriage_return) = true.
Proof.
  destruct c as [[] [] [] [] [] [] [] []]; vm_compute; intro H;
    first [reflexivity | discriminate H].
Qed.

Lemma digit_is_no_hash (c : ascii) (s : string) :
  is_digit c = true -> startswith "#" (String c s) = false.
Proof.
  destruct c as [[] [] [] [] [] [] [] []]; vm_compute; intro H;
    first [reflexivity | discriminate H].
Qed.

Lemma uint_digits (d : Decimal.uint) :
  all_chars is_digit (NilEmpty.string_of_uint d) = true.
Proof. induction d; simpl; trivial. Qed.

Lemma show_nat_digits (n : nat) : all_chars is_digit (show_nat n) = true.
Proof. apply uint_digits. Qed.

Lemma show_nat_first (n : nat) :
  exists c s, show_nat n = String c s /\ is_digit c = true.
Proof.
  pose proof (show_nat_digits n) as Hd. unfold show_nat in *.
  destruct (Nat.to_uint n) as [| d | d | d | d | d | d | d | d | d | d] eqn:E;
    try (eexists _, _; split; [reflexivity | reflexivity]).
  exfalso. pose proof (DecimalNat.Unsigned.of_to n) as H. rewrite E in H. simpl in H. subst n.
  discriminate E.
Qed.

(** A line without line end in it is read as one line. *)
Lemma file_lines_line (w : string) :
  forall cur rest,
    no_line_end w = true ->
    file_lines false cur (w ++ String line_feed rest)
      = (cur ++ w ++ String line_feed "") :: file_lines false "" rest.
Proof.
  unfold no_line_end.
  induction w as [| c w IH]; intros cur rest Hw.
  - reflexivity.
  - simpl in Hw. apply andb_prop in Hw as [Hc Hw].
    apply negb_true_iff, orb_false_iff in Hc as [Hlf Hcr].
    simpl. rewrite Hlf, Hcr. rewrite IH by exact Hw. now rewrite snoc_append.
Qed.

Section WithRoutines.

Variable fmt6 : Q -> string.
Variable py_int : string -> option Z.

Hypothesis fmt6_one_line : forall q, no_line_end (fmt6 q) = true.
Hypothesis py_int_decimal : forall n, py_int (show_nat n) = Some (Z.of_nat n).

Lemma seam_line_shape (entry : nat * SeamExtract.vertex) :
  exists body,
    seam_line fmt6 entry = show_nat (fst entry) ++ String " " body ++ String line_feed "" /\
    no_line_end (show_nat (fst entry) ++ String " " body) = true.
Proof.
  exists (fmt6 (vx (snd entry)) ++ " " ++ fmt6 (vy (snd entry)) ++ " "
            ++ fmt6 (vz (snd entry))).
  split.
  - unfold seam_line. repeat (rewrite ?append_associative; simpl). reflexivity.
  - unfold no_line_end in *. rewrite all_chars_append.
    rewrite (all_chars_weaken is_digit _ _ digit_is_no_line_end (show_nat_digits _)).
    repeat (rewrite ?all_chars_append, ?fmt6_one_line; simpl). reflexivity.
Qed.

Lemma read_seam_line (entry : nat * SeamExtract.vertex) (seam_indices : list Z) :
  read_line py_int (seam_line fmt6 entry) seam_indices
    = Ok (seam_indices ++ [Z.of_nat (fst entry)])%list.
Proof.
  destruct (seam_line_shape entry) as (body & -> & _).
  destruct (show_nat_first (fst entry)) as (c & s & Hshow & Hc).
  unfold read_line.
  assert (Hhash : startswith "#" (show_nat (fst entry) ++ String " " body
                                    ++ String line_feed "") = false).
  { rewrite Hshow. simpl append. now apply digit_is_no_hash. }
  rewrite Hhash.
  unfold split_ws.
  rewrite split_ws_from_word
    by (apply (all_chars_weaken is_digit); [apply digit_is_no_space | apply show_nat_digits]).
  simpl append at 1.
  assert (Hne : nonempty (show_nat (fst entry)) = true) by now rewrite Hshow.
  simpl split_ws_from. rewrite Hne. now rewrite py_int_decimal.
Qed.

Lemma read_written_lines (entries : list (nat * SeamExtract.vertex)) :
  forall seam_indices,
    read_lines py_int
               (file_lines false "" (fold_right append "" (map (seam_line fmt6) entries)))
               seam_indices
      = Ok (seam_indices ++ map (fun e => Z.of_nat (fst e)) entries)%list.
Proof.
  induction entries as [| e es IH]; intro acc.
  - simpl. now rewrite app_nil_r.
  - simpl fold_right. simpl map.
    pose proof (read_seam_line e acc) as Hread.
    destruct (seam_line_shape e) as (body & Hshape & Hline).
    rewrite Hshape in *.
    replace ((show_nat (fst e) ++ String " " body ++ String line_feed "")
               ++ fold_right append "" (map (seam_line fmt6) es))
      with ((show_nat (fst e) ++ String " " body)
              ++ String line_feed (fold_right append "" (map (seam_line fmt6) es))).
    2:{ repeat (rewrite ?append_associative; simpl). reflexivity. }
    rewrite file_lines_line by exact Hline.
    simpl append at 1. rewrite append_associative.
    simpl read_lines. simpl append in Hread. rewrite Hread. simpl bind.
    rewrite IH. now rewrite <- app_assoc.
Qed.

(** X16.  The seam file round trip.  Whatever path the first script
    writes, the second script reads back its vertex indices, in
    order: the header is skipped as a comment and each line yields
    its first token.  This needs only that the rendering of a
    coordinate contains no line end and that [int] reads the decimal
    rendering of an index. *)
Theorem seam_file_round_trip (m : mesh) (path : list nat) :
  read_seam py_int (write_seam fmt6 m path) = Ok (map Z.of_nat path).
Proof.
  unfold read_seam, write_seam.
  change (header ++ fold_right append "" (map (seam_line fmt6) (seam_lines m path)))
    with ("# index  x  y  z"
            ++ String line_feed
                 (fold_right append "" (map (seam_line fmt6) (seam_lines m path)))).
  rewrite (file_lines_line "# index  x  y  z") by reflexivity.
  simpl read_lines. 
  change (read_line py_int ("" ++ "# index  x  y  z" ++ String line_feed "") [])
    with (Ok (@nil Z)).
  simpl bind. rewrite read_written_lines. unfold seam_lines.
  rewrite map_map. reflexivity.
Qed.

End WithRoutines.

End SeamFileRoundTrip.

Section SeamFileExample.

Import SeamExtract UvRepack SeamFile.
Local Open Scope string_scope.

Lemma digits_val_uint (d : Decimal.uint) :
  forall a : nat,
    digits_val (Z.of_nat a) (NilEmpty.string_of_uint d) = Some (Z.of_nat (Nat.of_uint_acc d a)).
Proof.
  induction d; intro a; simpl NilEmpty.string_of_uint; simpl Nat.of_uint_acc;
    [reflexivity | ..];
    cbn [digits_val];
    match goal with
    | |- context [digit_val ?c] =>
        let v := eval vm_compute in (digit_val c) in
        change (digit_val c) with v; cbv iota beta
    end;
    rewrite <- IHd; f_equal; rewrite Nat.tail_mul_spec; lia.
Qed.

(** Reading back the decimal rendering of an index. *)
Lemma decimal_int_show_nat (n : nat) : decimal_int (show_nat n) = Some (Z.of_nat n).
Proof.
  destruct (show_nat_first n) as (c & s & Hshow & Hc).
  assert (Hplain : decimal_int (show_nat n) = digits_val 0 (show_nat n)).
  { rewrite Hshow. revert Hc.
    destruct c as [[] [] [] [] [] [] [] []]; vm_compute is_digit; intro Hc;
      first [discriminate Hc | reflexivity]. }
  rewrite Hplain. unfold show_nat.
  pose proof (digits_val_uint (Nat.to_uint n) 0) as H.
  change (Z.of_nat 0) with 0%Z in H. rewrite H.
  fold (Nat.of_uint (Nat.to_uint n)). now rewrite DecimalNat.Unsigned.of_to.
Qed.

Lemma fixed6_whole_one_line (q : Q) : no_line_end (fixed6_whole q) = true.
Proof.
  unfold fixed6_whole, no_line_end. rewrite !all_chars_append.
  rewrite (all_chars_weaken is_digit _ _ digit_is_no_line_end (show_nat_digits _)).
  destruct (Qle_bool 0 q); reflexivity.
Qed.

Lemma seam_file_round_trip_witness :
  read_seam decimal_int (write_seam fixed6_whole strip [2; 0]%nat) = Ok [2; 0]%Z.
Proof.
  apply (seam_file_round_trip fixed6_whole decimal_int
                              fixed6_whole_one_line decimal_int_show_nat strip [2; 0]%nat).
Defined.

(** The file written for the seam of the strip. *)
Example strip_seam_file :
  write_seam fixed6_whole strip [2; 0]%nat
    = "# index  x  y  z" ++ String line_feed
        ("2 0.000000 0.000000 1.000000" ++ String line_feed
           ("0 0.000000 0.000000 0.000000" ++ String line_feed "")).
Proof. vm_compute. reflexivity. Qed.

(** A blank line in the file makes the reader fail. *)
Example blank_line_raises :
  read_seam decimal_int ("7 0 0 0" ++ String line_feed (String line_feed ""))
    = Raise IndexError.
Proof. vm_compute. reflexivity. Qed.

End SeamFileExample.

(* ================================================================== *)
(** * Further properties of [align_robust] *)
(* ================================================================== *)

Section AxisChoice.

Import Preprocess AlignRobust.

Variable face_normals : list vertex.
Variable face_areas : list Q.

Lemma qsum_pointwise {A : Type} (f g : A -> Q) (l : list A) :
  (forall a, In a l -> f a == g a) -> qsum (map f l) == qsum (map g l).
Proof.
  unfold qsum. induction l as [| a l IH]; intro H; simpl; [reflexivity |].
  rewrite (fold_qplus_acc (map f l)), (fold_qplus_acc (map g l)).
  rewrite IH by (intros b Hb; apply H; now right).
  rewrite (H a (or_introl eq_refl)). reflexivity.
Qed.

Lemma axis_score_reversed (axis : vertex) :
  axis_score face_normals face_areas (neg axis) == axis_score face_normals face_areas axis.
Proof.
  unfold axis_score. apply qsum_pointwise. intros [a n] _. cbn [fst snd].
  assert (E : dot n (neg axis) == - dot n axis) by (unfold dot, neg, vx, vy, vz; simpl; ring).
  rewrite E, Qabs_opp. reflexivity.
Qed.

Lemma axis_scores_three (a0 a1 a2 : vertex) (rest : list vertex) :
  axis_scores face_normals face_areas (a0 :: a1 :: a2 :: rest)
    = Ok [ axis_score face_normals face_areas a0;
           axis_score face_normals face_areas a1;
           axis_score face_normals face_areas a2 ].
Proof. reflexivity. Qed.

Lemma axis_scores_short (candidate_axes : list vertex) :
  (List.length candidate_axes < 3)%nat ->
  axis_scores face_normals face_areas candidate_axes = Raise IndexError.
Proof.
  destruct candidate_axes as [| a0 [| a1 [| a2 rest]]]; simpl; intro H;
    first [reflexivity | lia].
Qed.

(** X17.  The choice of the axis.  When the decomposition gives three
    candidate axes, the principal axis is the candidate whose score,
    the area-weighted sum of [|normal . axis|] over the faces, is
    lowest, and the first such candidate when several share the lowest
    score; with fewer than three candidates the function raises
    [IndexError].  The score of an axis and of its reverse are equal,
    so the choice cannot tell which end of the axis is up. *)
Theorem principal_axis_has_lowest_score (candidate_axes : list vertex) :
  (forall i axis,
      principal_axis face_normals face_areas candidate_axes = Ok (i, axis) ->
      (i < 3)%nat /\ nth_error candidate_axes i = Some axis /\
      forall j other, (j < 3)%nat -> nth_error candidate_axes j = Some other ->
        axis_score face_normals face_areas axis <= axis_score face_normals face_areas other /\
        ((j < i)%nat ->
         axis_score face_normals face_areas axis < axis_score face_normals face_areas other)) /\
  ((List.length candidate_axes < 3)%nat <->
   principal_axis face_normals face_areas candidate_axes = Raise IndexError) /\
  (forall axis,
      axis_score face_normals face_areas (neg axis)
        == axis_score face_normals face_areas axis).
Proof.
  set (sc := axis_score face_normals face_areas).
  split; [| split; [| exact axis_score_reversed]].
  - intros i axis H. unfold principal_axis in H.
    destruct candidate_axes as [| a0 [| a1 [| a2 rest]]];
      try (rewrite axis_scores_short in H by (simpl; lia); discriminate H).
    rewrite axis_scores_three in H. cbn [bind] in H. fold sc in H.
    set (scores := [sc a0; sc a1; sc a2]) in *.
    destruct (argmin_first_smallest scores) as [Hmin Hfirst].
    assert (Hb : (SeamExtract.argmin scores < 3)%nat)
      by (apply (argmin_bound scores); discriminate).
    destruct (nth_error (a0 :: a1 :: a2 :: rest) (SeamExtract.argmin scores)) as [a |] eqn:Ha;
      [| discriminate].
    injection H as <- <-.
    assert (Hval : forall k b, (k < 3)%nat -> nth_error (a0 :: a1 :: a2 :: rest) k = Some b ->
                               nth k scores 0 = sc b).
    { intros k b Hk Hkb.
      destruct k as [| [| [| k]]]; try lia; simpl in Hkb; injection Hkb as <-; reflexivity. }
    split; [exact Hb |]. split; [exact Ha |].
    intros j other Hj Hjo.
    rewrite <- (Hval _ _ Hb Ha), <- (Hval _ _ Hj Hjo). split.
    + apply Hmin. exact Hj.
    + intro Hlt. now apply Hfirst.
  - unfold principal_axis. split.
    + intro Hshort. now rewrite axis_scores_short.
    + intro H.
      destruct candidate_axes as [| a0 [| a1 [| a2 rest]]]; try (simpl; lia).
      exfalso. rewrite axis_scores_three in H. cbn [bind] in H. fold sc in H.
      set (scores := [sc a0; sc a1; sc a2]) in *.
      assert (Hb : (SeamExtract.argmin scores < 3)%nat)
        by (apply (argmin_bound scores); discriminate).
      destruct (SeamExtract.argmin scores) as [| [| [| k]]]; try lia; discriminate H.
Qed.

End AxisChoice.

Section AxisChoiceExample.

Import Preprocess AlignRobust.

(** Two faces whose normals lie along x and y: the third candidate is
    perpendicular to both and wins with score 0. *)
Example third_axis_wins :
  principal_axis [ (1, 0, 0); (0, 1, 0) ] [ 2; 3 ] [ (1, 0, 0); (0, 1, 0); (0, 0, 1) ]
    = Ok (2%nat, (0, 0, 1)).
Proof. vm_compute. reflexivity. Qed.

(** On equal scores the first candidate is taken. *)
Example equal_scores_first_axis :
  principal_axis [] [] [ (1, 0, 0); (0, 1, 0); (0, 0, 1) ] = Ok (0%nat, (1, 0, 0)).
Proof. vm_compute. reflexivity. Qed.

End AxisChoiceExample.

Section Recentring.

Import Preprocess AlignRobust.

Lemma qmin_shift (a b c : Q) : qmin (a + c) (b + c) = qmin a b + c.
Proof.
  unfold qmin. destruct (Qlt_le_dec (b + c) (a + c)), (Qlt_le_dec b a);
    first [reflexivity | exfalso; lra].
Qed.

Lemma qmax_shift (a b c : Q) : qmax (a + c) (b + c) = qmax a b + c.
Proof.
  unfold qmax. destruct (Qlt_le_dec (a + c) (b + c)), (Qlt_le_dec a b);
    first [reflexivity | exfalso; lra].
Qed.

Lemma list_min_shift (c : Q) (l : list Q) :
  l <> [] -> list_min (map (fun x => x + c) l) = list_min l + c.
Proof.
  destruct l as [| x r]; [contradiction |]. intros _. simpl. revert x.
  induction r as [| y r IH]; intro x; simpl; [reflexivity |].
  rewrite qmin_shift. apply IH.
Qed.

Lemma list_max_shift (c : Q) (l : list Q) :
  l <> [] -> list_max (map (fun x => x + c) l) = list_max l + c.
Proof.
  destruct l as [| x r]; [contradiction |]. intros _. simpl. revert x.
  induction r as [| y r IH]; intro x; simpl; [reflexivity |].
  rewrite qmax_shift. apply IH.
Qed.

(** Moving the vertices does not change which of them are referenced. *)
Lemma in_mesh_map (g : vertex -> vertex) (faces : list face) (vertices : list vertex) :
  in_mesh (map g vertices) faces = map g (in_mesh vertices faces).
Proof.
  unfold in_mesh. rewrite length_map.
  generalize (seq 0 (List.length vertices)) as idx.
  induction vertices as [| v vs IH]; intro idx.
  - destruct idx; reflexivity.
  - destruct idx as [| i idx]; [reflexivity |]. simpl.
    destruct (referenced faces i); simpl; now rewrite IH.
Qed.

Lemma bounds_some (vertices : list vertex) (faces : list face) (lo hi : vertex) :
  bounds vertices faces = Some (lo, hi) ->
  let pts := in_mesh vertices faces in
  pts <> [] /\
  lo = (list_min (map vx pts), list_min (map vy pts), list_min (map vz pts)) /\
  hi = (list_max (map vx pts), list_max (map vy pts), list_max (map vz pts)).
Proof.
  unfold bounds. cbv zeta.
  destruct (in_mesh vertices faces) as [| p ps]; [discriminate |].
  intro H. injection H as <- <-. repeat split. discriminate.
Qed.

Lemma in_mesh_translated (t : vertex) (vertices : list vertex) (faces : list face) :
  in_mesh (apply_translation t vertices) faces
    = apply_translation t (in_mesh vertices faces).
Proof. apply in_mesh_map. Qed.

Lemma translated_coordinates (t : vertex) (l : list vertex) :
  map vx (apply_translation t l) = map (fun x => x + vx t) (map vx l) /\
  map vy (apply_translation t l) = map (fun x => x + vy t) (map vy l) /\
  map vz (apply_translation t l) = map (fun x => x + vz t) (map vz l).
Proof. unfold apply_translation. rewrite !map_map. repeat split. Qed.

Lemma bounds_translated (t : vertex) (vertices : list vertex) (faces : list face) :
  let pts := in_mesh vertices faces in
  pts <> [] ->
  bounds (apply_translation t vertices) faces
    = Some ((list_min (map vx pts) + vx t, list_min (map vy pts) + vy t,
             list_min (map vz pts) + vz t),
            (list_max (map vx pts) + vx t, list_max (map vy pts) + vy t,
             list_max (map vz pts) + vz t)).
Proof.
  cbv zeta. intro Hne. unfold bounds. cbv zeta. rewrite in_mesh_translated.
  set (pts := in_mesh vertices faces) in *.
  destruct (translated_coordinates t pts) as (Hx & Hy & Hz).
  assert (Hnx : map vx pts <> []) by (destruct pts; [contradiction | discriminate]).
  assert (Hny : map vy pts <> []) by (destruct pts; [contradiction | discriminate]).
  assert (Hnz : map vz pts <> []) by (destruct pts; [contradiction | discriminate]).
  rewrite Hx, Hy, Hz.
  rewrite !list_min_shift, !list_max_shift by assumption.
  destruct pts as [| p ps]; [contradiction | reflexivity].
Qed.

(** X18.  Recentring.  When the mesh has a referenced vertex, the last
    step of the alignment moves all vertices by one and the same
    horizontal shift, after which the bounding box of the mesh is
    centred on the vertical axis; the box keeps its size, and no
    height changes. *)
Theorem recentre_centres_bounding_box
        (vertices : list vertex) (faces : list face) (moved : list vertex) :
  recentre vertices faces = Some moved ->
  exists lo hi lo' hi',
    bounds vertices faces = Some (lo, hi) /\
    bounds moved faces = Some (lo', hi') /\
    vx lo' + vx hi' == 0 /\
    vy lo' + vy hi' == 0 /\
    vx hi' - vx lo' == vx hi - vx lo /\
    vy hi' - vy lo' == vy hi - vy lo /\
    vz lo' == vz lo /\ vz hi' == vz hi /\
    List.length moved = List.length vertices /\
    forall i, (i < List.length vertices)%nat ->
      vz (nth i moved (0, 0, 0)) == vz (nth i vertices (0, 0, 0)) /\
      vx (nth i moved (0, 0, 0)) - vx (nth i vertices (0, 0, 0))
        == - ((vx lo + vx hi) / 2) /\
      vy (nth i moved (0, 0, 0)) - vy (nth i vertices (0, 0, 0))
        == - ((vy lo + vy hi) / 2).
Proof.
  unfold recentre. intro H.
  destruct (bounds vertices faces) as [[lo hi] |] eqn:Hb; [| discriminate].
  injection H as <-.
  destruct (bounds_some _ _ _ _ Hb) as (Hne & Hlo & Hhi).
  set (t := (- ((vx lo + vx hi) / 2), - ((vy lo + vy hi) / 2), 0)).
  pose proof (bounds_translated t vertices faces Hne) as Hb'.
  set (pts := in_mesh vertices faces) in *.
  exists lo, hi. eexists _, _. split; [reflexivity |]. split; [exact Hb' |].
  assert (Ex : vx lo = list_min (map vx pts)) by now rewrite Hlo.
  assert (Ey : vy lo = list_min (map vy pts)) by now rewrite Hlo.
  assert (Ez : vz lo = list_min (map vz pts)) by now rewrite Hlo.
  assert (Fx : vx hi = list_max (map vx pts)) by now rewrite Hhi.
  assert (Fy : vy hi = list_max (map vy pts)) by now rewrite Hhi.
  assert (Fz : vz hi = list_max (map vz pts)) by now rewrite Hhi.
  rewrite <- Ex, <- Ey, <- Ez, <- Fx, <- Fy, <- Fz.
  set (g := fun v : vertex => (vx v + vx t, vy v + vy t, vz v + vz t)).
  assert (Hnth : forall i, (i < List.length vertices)%nat ->
                           nth i (apply_translation t vertices) (0, 0, 0)
                           = g (nth i vertices (0, 0, 0))).
  { intros i Hi. unfold apply_translation. fold g.
    rewrite (nth_indep _ _ (g (0, 0, 0))) by (rewrite length_map; lia).
    apply map_nth. }
  unfold t, vx, vy, vz in *. cbn [fst snd] in *.
  repeat split; try field.
  - unfold apply_translation. now rewrite length_map.
  - rewrite (Hnth i H). unfold g. cbn [fst snd]. ring.
  - rewrite (Hnth i H). unfold g. cbn [fst snd]. ring.
  - rewrite (Hnth i H). unfold g. cbn [fst snd]. ring.
Qed.

End Recentring.

Section RecentringExample.

Import Preprocess AlignRobust.

(** The triangle of the example spans x from 2 to 6 and y from 1 to 5:
    it is moved by (-4, -3, 0), and the vertex that no face uses moves
    along without entering the bounds. *)
Example off_axis_recentred :
  option_map (map (fun v => (Qred (vx v), Qred (vy v), Qred (vz v))))
             (recentre off_axis_vertices off_axis_faces)
    = Some [ (-2, -2, 0); (2, -2, 3); (-2, 2, 7); (96, 97, 100) ].
Proof. vm_compute. reflexivity. Qed.

Lemma recentre_witness :
  exists lo hi lo' hi',
    bounds off_axis_vertices off_axis_faces = Some (lo, hi) /\
    bounds (apply_translation (- ((2 + 6) / 2), - ((1 + 5) / 2), 0) off_axis_vertices) off_axis_faces
      = Some (lo', hi') /\
    vx lo' + vx hi' == 0 /\
    vy lo' + vy hi' == 0 /\
    vx hi' - vx lo' == vx hi - vx lo /\
    vy hi' - vy lo' == vy hi - vy lo /\
    vz lo' == vz lo /\ vz hi' == vz hi /\
    List.length (apply_translation (- ((2 + 6) / 2), - ((1 + 5) / 2), 0) off_axis_vertices)
      = List.length off_axis_vertices /\
    forall i, (i < List.length off_axis_vertices)%nat ->
      vz (nth i (apply_translation (- ((2 + 6) / 2), - ((1 + 5) / 2), 0) off_axis_vertices) (0, 0, 0))
        == vz (nth i off_axis_vertices (0, 0, 0)) /\
      vx (nth i (apply_translation (- ((2 + 6) / 2), - ((1 + 5) / 2), 0) off_axis_vertices) (0, 0, 0))
        - vx (nth i off_axis_vertices (0, 0, 0))
        == - ((vx lo + vx hi) / 2) /\
      vy (nth i (apply_translation (- ((2 + 6) / 2), - ((1 + 5) / 2), 0) off_axis_vertices) (0, 0, 0))
        - vy (nth i off_axis_vertices (0, 0, 0))
        == - ((vy lo + vy hi) / 2).
Proof.
  apply (recentre_centres_bounding_box off_axis_vertices off_axis_faces).
  vm_compute. reflexivity.
Defined.

End RecentringExample.

(* ================================================================== *)
(** * The alignment rotation is a rigid motion *)
(* ================================================================== *)

Section RigidAlignment.

Import Preprocess.
Local Open Scope R_scope.

(** The rotation block about a unit direction keeps the length of
    every vector. *)
Lemma rotation_keeps_length (x y z c s a b d : R) :
  x * x + y * y + z * z = 1 ->
  c * c + s * s = 1 ->
  ((c + x * x * (1 - c)) * a + (x * y * (1 - c) - z * s) * b + (x * z * (1 - c) + y * s) * d)
  * ((c + x * x * (1 - c)) * a + (x * y * (1 - c) - z * s) * b + (x * z * (1 - c) + y * s) * d)
  + ((y * x * (1 - c) + z * s) * a + (c + y * y * (1 - c)) * b + (y * z * (1 - c) - x * s) * d)
    * ((y * x * (1 - c) + z * s) * a + (c + y * y * (1 - c)) * b + (y * z * (1 - c) - x * s) * d)
  + ((z * x * (1 - c) - y * s) * a + (z * y * (1 - c) + x * s) * b + (c + z * z * (1 - c)) * d)
    * ((z * x * (1 - c) - y * s) * a + (z * y * (1 - c) + x * s) * b + (c + z * z * (1 - c)) * d)
  = a * a + b * b + d * d.
Proof.
  intros Hk Hc.
  set (W := a * a + b * b + d * d).
  set (D := x * a + y * b + z * d).
  transitivity (c * c * W + (1 - c) * (1 - c) * (D * D) * (x * x + y * y + z * z)
                + s * s * ((x * x + y * y + z * z) * W - D * D)
                + 2 * c * (1 - c) * (D * D)).
  - unfold W, D. ring.
  - rewrite Hk.
    replace (c * c * W + (1 - c) * (1 - c) * (D * D) * 1 + s * s * (1 * W - D * D)
             + 2 * c * (1 - c) * (D * D))
      with ((c * c + s * s) * W + (D * D) * (1 - (c * c + s * s))) by ring.
    rewrite Hc. ring.
Qed.

Lemma dot3_self_nonneg (v : vec3) : 0 <= dot3 v v.
Proof. destruct v as [[a b] c]. simpl. nra. Qed.

Lemma normalised_is_unit (v : vec3) :
  0 < norm3 v -> dot3 (div3 v (norm3 v)) (div3 v (norm3 v)) = 1.
Proof.
  intro Hpos. destruct v as [[a b] c]. unfold norm3 in *.
  set (n := sqrt (dot3 (a, b, c) (a, b, c))) in *.
  assert (Hnn : n * n = a * a + b * b + c * c).
  { unfold n. rewrite sqrt_sqrt; [reflexivity | apply dot3_self_nonneg]. }
  simpl.
  replace (a / n * (a / n) + b / n * (b / n) + c / n * (c / n))
    with ((a * a + b * b + c * c) / (n * n)) by (field; lra).
  rewrite <- Hnn. field. lra.
Qed.

Lemma rotation_matrix_keeps_length (angle : R) (k w : vec3) :
  dot3 k k = 1 ->
  dot3 (mat_vec (rotation_matrix angle k) w) (mat_vec (rotation_matrix angle k) w)
    = dot3 w w.
Proof.
  intro Hk. destruct k as [[k1 k2] k3], w as [[a b] d].
  unfold rotation_matrix, norm3. rewrite Hk, sqrt_1.
  unfold div3, mat_vec, dot3.
  apply rotation_keeps_length.
  - simpl in Hk. unfold Rdiv. rewrite Rinv_1. lra.
  - pose proof (sin2_cos2 angle) as H. unfold Rsqr in H. lra.
Qed.

Lemma mat_vec_sub (m : mat3) (u v : vec3) :
  sub3 (mat_vec m u) (mat_vec m v) = mat_vec m (sub3 u v).
Proof.
  destruct m as [[[[m11 m12] m13] [[m21 m22] m23]] [[m31 m32] m33]].
  destruct u as [[u1 u2] u3], v as [[v1 v2] v3]. simpl.
  f_equal; [f_equal |]; ring.
Qed.

(** X23.  The alignment is a rigid motion about the origin.  Whatever
    the principal axis is, the step moves every vertex by one and the
    same map, and that map keeps the distance between any two
    vertices and the distance of every vertex from the origin: the
    mesh is turned, never stretched or sheared. *)
Theorem alignment_is_rigid (principal_axis : vec3) :
  exists f : vec3 -> vec3,
    (forall vertices, apply_alignment principal_axis vertices = map f vertices) /\
    (forall u v, norm3 (sub3 (f u) (f v)) = norm3 (sub3 u v)) /\
    (forall u, norm3 (f u) = norm3 u).
Proof.
  unfold apply_alignment, alignment_rotation. cbv zeta.
  destruct (Rlt_dec align_tol (norm3 (cross principal_axis target_axis))) as [Hn | Hn].
  - set (k := div3 (cross principal_axis target_axis)
                   (norm3 (cross principal_axis target_axis))).
    set (angle := acos (clip (dot3 principal_axis target_axis) (-1) 1)).
    assert (Hk : dot3 k k = 1).
    { apply normalised_is_unit. unfold align_tol in Hn. lra. }
    exists (mat_vec (rotation_matrix angle k)).
    split; [reflexivity |]. split.
    + intros u v. unfold norm3. f_equal.
      rewrite mat_vec_sub. now apply rotation_matrix_keeps_length.
    + intro u. unfold norm3. f_equal. now apply rotation_matrix_keeps_length.
  - exists (fun v => v). split; [| split; reflexivity].
    intro vertices. symmetry. apply map_id.
Qed.

End RigidAlignment.

(* ================================================================== *)
(** * Properties of [main.py] *)
(* ================================================================== *)

Section PipelineSteps.

Import Pipeline.
Local Open Scope string_scope.

Variable world : Type.
Variable path_exists : string -> world -> bool.
Variable makedirs : string -> world -> option string * world.
Variable subprocess_run : list string -> world -> run_end * world.
Variable abspath : string -> string.
Variable join : string -> string -> string.
Variable dirname : string -> string.
Variable basename : string -> string.
Variable splitext_root : string -> string.
Variable executable : string.
Variable this_file : string.

Variable input_obj : string.
Variable output_dir : string.

Ltac run_pipeline :=
  cbv [pipeline repack_step run_command andthen ret raise print exists_now when
       texture_abs fst snd];
  repeat (match goal with
          | |- context [path_exists ?p ?w] => destruct (path_exists p w)
          | |- context [makedirs ?p ?w] => destruct (makedirs p w) as [[?what |] ?w]
          | |- context [subprocess_run ?c ?w] =>
              destruct (subprocess_run c w) as [[| [| ? ?] [| ? ?] | ?what] ?w]
          | |- context [truthy (abspath ?s)] => destruct (truthy (abspath s))
          end;
          cbn [negb truthy app fst snd]);
  cbv beta iota.

(** X19.  The steps run in the order preprocess, seam extraction,
    Blender, texture repack, and a step is started only when every
    step before it has ended with exit status 0: in the list of the
    commands that were run, only the last one can have failed.  When
    [pipeline] returns, at least the first three have been run, none
    has failed, and the value returned is the path of the texture. *)
Theorem no_step_after_a_failed_step (input_texture : option string) (w : world) :
  let all_steps :=
    ([ cmd_1 abspath join dirname basename splitext_root executable this_file
            input_obj output_dir;
      cmd_2 abspath join dirname basename splitext_root executable this_file
            input_obj output_dir;
      cmd_3 abspath join dirname basename splitext_root this_file input_obj output_dir ]
    ++ match texture_abs abspath input_texture with
       | Some t => [ cmd_4 abspath join dirname basename splitext_root executable
                           this_file input_obj output_dir t ]
       | None => []
       end)%list in
  let '(r, (_, trace)) :=
    pipeline world path_exists makedirs subprocess_run abspath join dirname basename
             splitext_root executable this_file input_obj input_texture output_dir
             (w, []) in
  (exists n, map fst (calls trace) = firstn n all_steps) /\
  only_last_may_fail (calls trace) /\
  (forall p, r = Returned p ->
     (3 <= List.length (calls trace))%nat /\
     Forall (fun c => snd c = Exit0) (calls trace) /\
     p = path_final_tex abspath join basename splitext_root input_obj output_dir).
Proof.
  cbv zeta.
  destruct input_texture as [[| c t] |]; run_pipeline; cbn [calls map fst];
    (split; [first [ exists 0%nat; reflexivity | exists 1%nat; reflexivity
                   | exists 2%nat; reflexivity | exists 3%nat; reflexivity
                   | exists 4%nat; reflexivity ] |]);
    (split; [cbn; tauto |]);
    intros p Hp; first [discriminate Hp | injection Hp as <-];
    (split; [cbn; lia |]); (split; [repeat constructor | reflexivity]).
Qed.

(** X20.  Without a texture the repack step is skipped, and the
    function still returns the path of the texture file: when
    [pipeline] returns in that case, exactly the first three commands
    have been run, each with exit status 0, the warning has been
    printed, and the repack command has not been run. *)
Theorem returned_texture_path_without_repack
        (w w' : world) (trace : list event) (p : string) :
  pipeline world path_exists makedirs subprocess_run abspath join dirname basename
           splitext_root executable this_file input_obj None output_dir (w, [])
    = (Returned p, (w', trace)) ->
  p = path_final_tex abspath join basename splitext_root input_obj output_dir /\
  calls trace
    = [ (cmd_1 abspath join dirname basename splitext_root executable this_file
               input_obj output_dir, Exit0);
        (cmd_2 abspath join dirname basename splitext_root executable this_file
               input_obj output_dir, Exit0);
        (cmd_3 abspath join dirname basename splitext_root this_file input_obj output_dir,
         Exit0) ] /\
  In (Print "[Warning] No texture provided or file not found. Skipping repack.") trace.
Proof.
  run_pipeline; intro H; first [discriminate H | injection H as <- <- <-];
    (split; [reflexivity |]); (split; [reflexivity |]); cbn; tauto.
Qed.

(** X21.  Blender is looked for only after the first two steps: where
    the Blender executable does not exist, [pipeline] never returns,
    and when the first two steps succeed it raises
    [FileNotFoundError] after both have been run. *)
Theorem blender_is_checked_after_two_steps (input_texture : option string) (w : world) :
  (forall w0, path_exists BLENDER_PATH w0 = false) ->
  let '(r, (_, trace)) :=
    pipeline world path_exists makedirs subprocess_run abspath join dirname basename
             splitext_root executable this_file input_obj input_texture output_dir
             (w, []) in
  (forall p, r <> Returned p) /\
  (List.length (calls trace) <= 2)%nat /\
  (List.length (calls trace) = 2%nat ->
   Forall (fun c => snd c = Exit0) (calls trace) ->
   r = Raised (FileNotFoundError ("Blender executable not found at: " ++ BLENDER_PATH))).
Proof.
  intro Hmissing.
  cbv [pipeline repack_step run_command andthen ret raise print exists_now when
       texture_abs fst snd].
  destruct (path_exists output_dir w);
    [| destruct (makedirs output_dir w) as [[what |] w0]];
    repeat (match goal with
            | |- context [path_exists BLENDER_PATH ?w] => rewrite (Hmissing w)
            | |- context [subprocess_run ?c ?w] =>
                destruct (subprocess_run c w) as [[| [| ? ?] [| ? ?] | ?what] ?w]
            | |- context [truthy (abspath ?s)] => destruct (truthy (abspath s))
            end;
            cbn [negb truthy app fst snd]);
    cbv beta iota; cbn [calls List.length];
    (split; [intros p Hp; discriminate Hp |]);
    (split; [lia |]);
    intros Hlen Hall; first [discriminate Hlen | reflexivity | idtac];
    repeat match goal with
           | H : Forall _ (_ :: _) |- _ => inversion H; clear H; subst
           end;
    cbn [snd] in *; discriminate.
Qed.

End PipelineSteps.

Section PipelineExamples.

Import Pipeline.
Local Open Scope string_scope.

(** In a world where every command succeeds and only Blender exists,
    a run without texture returns after three commands. *)
Lemma returned_texture_path_witness :
  "out/bottle.obj_texture.png"
    = path_final_tex (fun p => p) (fun a b => a ++ "/" ++ b) (fun p => p) (fun p => p)
                     "bottle.obj" "out" /\
  calls (snd (snd (pipeline nat (only_file BLENDER_PATH) always_makedirs counting_run
                            (fun p => p) (fun a b => a ++ "/" ++ b) (fun p => p) (fun p => p)
                            (fun p => p) "python" "main.py" "bottle.obj" None "out"
                            (O, []))))
    = [ (cmd_1 (fun p => p) (fun a b => a ++ "/" ++ b) (fun p => p) (fun p => p)
               (fun p => p) "python" "main.py" "bottle.obj" "out", Exit0);
        (cmd_2 (fun p => p) (fun a b => a ++ "/" ++ b) (fun p => p) (fun p => p)
               (fun p => p) "python" "main.py" "bottle.obj" "out", Exit0);
        (cmd_3 (fun p => p) (fun a b => a ++ "/" ++ b) (fun p => p) (fun p => p)
               (fun p => p) "main.py" "bottle.obj" "out", Exit0) ] /\
  In (Print "[Warning] No texture provided or file not found. Skipping repack.")
     (snd (snd (pipeline nat (only_file BLENDER_PATH) always_makedirs counting_run
                         (fun p => p) (fun a b => a ++ "/" ++ b) (fun p => p) (fun p => p)
                         (fun p => p) "python" "main.py" "bottle.obj" None "out"
                         (O, [])))).
Proof.
  apply (returned_texture_path_without_repack
           nat (only_file BLENDER_PATH) always_makedirs counting_run
           (fun p => p) (fun a b => a ++ "/" ++ b) (fun p => p) (fun p => p) (fun p => p)
           "python" "main.py" "bottle.obj" "out" O 3%nat).
  vm_compute. reflexivity.
Defined.

(** In a world without Blender the run stops after two commands. *)
Lemma blender_missing_witness :
  let '(r, (_, trace)) :=
    pipeline nat (fun _ _ => false) always_makedirs counting_run
             (fun p => p) (fun a b => a ++ "/" ++ b) (fun p => p) (fun p => p)
             (fun p => p) "python" "main.py" "bottle.obj" None "out" (O, []) in
  (forall p, r <> Returned p) /\
  (List.length (calls trace) <= 2)%nat /\
  (List.length (calls trace) = 2%nat ->
   Forall (fun c => snd c = Exit0) (calls trace) ->
   r = Raised (FileNotFoundError ("Blender executable not found at: " ++ BLENDER_PATH))).
Proof.
  apply (blender_is_checked_after_two_steps
           nat (fun _ _ => false) always_makedirs counting_run
           (fun p => p) (fun a b => a ++ "/" ++ b) (fun p => p) (fun p => p) (fun p => p)
           "python" "main.py" "bottle.obj" "out" None O).
  reflexivity.
Defined.

Example run_without_blender :
  fst (pipeline nat (fun _ _ => false) always_makedirs counting_run
                (fun p => p) (fun a b => a ++ "/" ++ b) (fun p => p) (fun p => p)
                (fun p => p) "python" "main.py" "bottle.obj" None "out" (O, []))
    = Raised (FileNotFoundError
                "Blender executable not found at: E:\Softwares\Blender\blender.exe").
Proof. vm_compute. reflexivity. Qed.

End PipelineExamples.
